(** * Code-block language detection and reformatting (converter_agent.py)

    A shallow embedding of [detect_code_language], [process_code_block] and
    [post_process_markdown] of converter_agent.py and of [sanitize_filename]
    of scrape_pydantic.py, together with the parts of Python's [str], [re]
    and [json] modules these functions call.

    Texts are sequences of code points below 256 (the Latin-1 range of a
    Python [str]); every character class below is CPython's, restricted to
    that range.  Operations that raise in Python return in the [result]
    monad. *)

From Stdlib Require Import Ascii String Arith NArith ZArith Bool Lia List.
From Stdlib Require Decimal DecimalZ.
Import ListNotations.

(** ** Texts *)

Definition str := list ascii.

Definition txt (x : string) : str := list_ascii_of_string x.

Definition code (c : ascii) : N := N_of_ascii c.

Definition between (lo hi n : N) : bool := (lo <=? n)%N && (n <=? hi)%N.

Definition ascii_eqb (a b : ascii) : bool := Ascii.eqb a b.

Fixpoint str_eqb (a b : str) : bool :=
  match a, b with
  | [], [] => true
  | x :: a', y :: b' => ascii_eqb x y && str_eqb a' b'
  | _, _ => false
  end.

(** [str.isspace] on one character; also the class [\s] of [re]. *)
Definition is_space (c : ascii) : bool :=
  let n := code c in
  between 9 13 n || between 28 31 n || (n =? 32)%N || (n =? 133)%N || (n =? 160)%N.

(** The line boundaries of [str.splitlines]. *)
Definition is_linebreak (c : ascii) : bool :=
  let n := code c in
  between 10 13 n || between 28 30 n || (n =? 133)%N.

(** The class [\w] of [re] on a [str] pattern: alphanumeric or underscore. *)
Definition is_word (c : ascii) : bool :=
  let n := code c in
  between 48 57 n || between 65 90 n || between 97 122 n || (n =? 95)%N
  || (n =? 170)%N || (n =? 178)%N || (n =? 179)%N || (n =? 181)%N
  || (n =? 185)%N || (n =? 186)%N || between 188 190 n
  || between 192 214 n || between 216 246 n || between 248 255 n.

(** The class [\d] of [re]. *)
Definition is_digit (c : ascii) : bool := between 48 57 (code c).

(** [str.lower] on one character. *)
Definition to_lower (c : ascii) : ascii :=
  let n := code c in
  if between 65 90 n || (between 192 222 n && negb (n =? 215)%N)
  then ascii_of_N (n + 32) else c.

Definition lower (s : str) : str := map to_lower s.

Fixpoint lstrip (s : str) : str :=
  match s with
  | c :: t => if is_space c then lstrip t else s
  | [] => []
  end.

Definition rstrip (s : str) : str := rev (lstrip (rev s)).

Definition strip (s : str) : str := rstrip (lstrip s).

(** Truth value of a [str]: non-empty. *)
Definition truthy (s : str) : bool :=
  match s with [] => false | _ :: _ => true end.

(** A line is blank when [line.strip()] is falsy. *)
Definition blank (line : str) : bool := negb (truthy (strip line)).

Fixpoint startswith (p s : str) : bool :=
  match p, s with
  | [], _ => true
  | x :: p', y :: s' => ascii_eqb x y && startswith p' s'
  | _ :: _, [] => false
  end.

(** [needle in hay]. *)
Fixpoint str_in (needle hay : str) : bool :=
  startswith needle hay ||
  match hay with
  | [] => false
  | _ :: t => str_in needle t
  end.

Definition LF : ascii := "010"%char.
Definition CR : ascii := "013"%char.

(** [str.splitlines()]: a line ends at a line boundary, [\r\n] counts as
    one boundary, and no empty line follows a final boundary. *)
Fixpoint splitlines (s : str) : list str :=
  match s with
  | [] => []
  | c :: t =>
      if is_linebreak c then
        [] :: match t with
              | d :: t' => if ascii_eqb c CR && ascii_eqb d LF
                           then splitlines t' else splitlines t
              | [] => splitlines t
              end
      else match splitlines t with
           | [] => [[c]]
           | l :: ls => (c :: l) :: ls
           end
  end.

(** [sep.join(lines)]. *)
Fixpoint join (sep : str) (lines : list str) : str :=
  match lines with
  | [] => []
  | [l] => l
  | l :: ls => l ++ sep ++ join sep ls
  end.

(** ** Exceptions *)

Inductive exn : Type :=
| ValueError
| IndexError
| JSONDecodeError
| RecursionError
| OutOfFuel.

Inductive result (A : Type) : Type :=
| Ok (a : A)
| Raise (e : exn).

Arguments Ok {A} a.
Arguments Raise {A} e.

Definition bind {A B} (m : result A) (f : A -> result B) : result B :=
  match m with
  | Ok a => f a
  | Raise e => Raise e
  end.

Notation "x <- m ;; k" := (bind m (fun x => k))
  (at level 61, m at next level, right associativity).
Notation "' p <- m ;; k" := (bind m (fun x => match x with p => k end))
  (at level 61, p pattern, m at next level, right associativity).

(** [try: body  except: handler] with a bare [except]. *)
Definition try_except {A} (body : result A) (handler : result A) : result A :=
  match body with
  | Ok a => Ok a
  | Raise _ => handler
  end.

(** [min(xs)] raises [ValueError] on an empty sequence. *)
Definition py_min (xs : list nat) : result nat :=
  match xs with
  | [] => Raise ValueError
  | x :: t => Ok (fold_left Nat.min t x)
  end.

(** [xs[i]] raises [IndexError] out of range. *)
Definition py_index {A} (xs : list A) (i : nat) : result A :=
  match nth_error xs i with
  | Some x => Ok x
  | None => Raise IndexError
  end.

(** ** Regular expressions ([re])

    Patterns are written as syntax trees.  [rmatch] explores the
    alternatives in the order of Python's backtracking matcher (left
    alternative first, greedy repetition longest first, lazy repetition
    shortest first), so the first result is the match [re] reports. *)

Inductive regex : Type :=
| Eps
| Chr (p : ascii -> bool)
| Seq (r1 r2 : regex)
| Alt (r1 r2 : regex)
| Star (greedy : bool) (r : regex)
| Group (n : nat) (r : regex)
| Bol (multiline : bool)
| Eol (multiline : bool)
| WordB.

Record mstate : Type := MState {
  prev : option ascii;          (* the character before the position *)
  rest : str;                   (* the text from the position on *)
  groups : list (nat * str)     (* captured groups, latest first *)
}.

Definition set_group (n : nat) (g : str) (st : mstate) : mstate :=
  MState (prev st) (rest st) ((n, g) :: groups st).

Fixpoint find_group (n : nat) (gs : list (nat * str)) : str :=
  match gs with
  | [] => []
  | (m, g) :: t => if Nat.eqb n m then g else find_group n t
  end.

Definition group (n : nat) (st : mstate) : str := find_group n (groups st).

Definition word_opt (c : option ascii) : bool :=
  match c with Some a => is_word a | None => false end.

Definition at_bol (multiline : bool) (st : mstate) : bool :=
  match prev st with
  | None => true
  | Some c => multiline && ascii_eqb c LF
  end.

Definition at_eol (multiline : bool) (st : mstate) : bool :=
  match rest st with
  | [] => true
  | c :: t => ascii_eqb c LF && (multiline || match t with [] => true | _ => false end)
  end.

Definition at_word_boundary (st : mstate) : bool :=
  xorb (word_opt (prev st)) (word_opt (hd_error (rest st))).

Definition or_else {A} (a b : option A) : option A :=
  match a with Some x => Some x | None => b end.

(** The loop of a repetition: [body] matches one more item, which must
    consume text; [k] continues after the repetition. *)
Fixpoint star_loop {A} (body : mstate -> (mstate -> option A) -> option A)
         (greedy : bool) (k : mstate -> option A) (fuel : nat) (st : mstate)
  : option A :=
  let again :=
    match fuel with
    | 0 => None
    | S fuel' =>
        body st (fun st' =>
          if length (rest st') <? length (rest st)
          then star_loop body greedy k fuel' st' else None)
    end in
  if greedy then or_else again (k st) else or_else (k st) again.

Fixpoint rmatch {A} (r : regex) (st : mstate) (k : mstate -> option A) : option A :=
  match r with
  | Eps => k st
  | Chr p =>
      match rest st with
      | c :: t => if p c then k (MState (Some c) t (groups st)) else None
      | [] => None
      end
  | Seq r1 r2 => rmatch r1 st (fun st' => rmatch r2 st' k)
  | Alt r1 r2 => or_else (rmatch r1 st k) (rmatch r2 st k)
  | Star greedy r1 => star_loop (rmatch r1) greedy k (length (rest st)) st
  | Group n r1 =>
      rmatch r1 st (fun st' =>
        k (set_group n (firstn (length (rest st) - length (rest st')) (rest st)) st'))
  | Bol ml => if at_bol ml st then k st else None
  | Eol ml => if at_eol ml st then k st else None
  | WordB => if at_word_boundary st then k st else None
  end.

(** The match of [r] starting exactly at the position [(p, s)], if any. *)
Definition match_at (r : regex) (p : option ascii) (s : str) : option mstate :=
  rmatch r (MState p s []) (fun st => Some st).

(** [re.search(r, s)]: the leftmost position with a match, as the index
    [m.start()] and the state at [m.end()]. *)
Fixpoint search_from (r : regex) (p : option ascii) (s : str) (i : nat)
  : option (nat * mstate) :=
  match match_at r p s with
  | Some st => Some (i, st)
  | None =>
      match s with
      | [] => None
      | c :: t => search_from r (Some c) t (S i)
      end
  end.

Definition re_search (r : regex) (s : str) : bool :=
  match search_from r None s 0 with Some _ => true | None => false end.

(** [re.sub(r, repl, s)] with a replacement computed from the match.  The
    scan resumes after each match; an empty match is replaced and the scan
    moves one character on. *)
Fixpoint sub_loop (fuel : nat) (r : regex) (repl : mstate -> str)
         (p : option ascii) (s : str) : str :=
  match fuel with
  | 0 => s
  | S fuel' =>
      match match_at r p s with
      | Some st =>
          let n := length s - length (rest st) in
          repl st ++
          match n with
          | 0 => match s with
                 | [] => []
                 | c :: t => c :: sub_loop fuel' r repl (Some c) t
                 end
          | S _ => sub_loop fuel' r repl (prev st) (rest st)
          end
      | None =>
          match s with
          | [] => []
          | c :: t => c :: sub_loop fuel' r repl (Some c) t
          end
      end
  end.

(** Replacement templates: literal text and group references [\n]. *)
Inductive titem : Type :=
| TLit (s : str)
| TRef (n : nat).

Definition expand (tpl : list titem) (st : mstate) : str :=
  flat_map (fun i => match i with TLit s => s | TRef n => group n st end) tpl.

Definition re_sub (r : regex) (tpl : list titem) (s : str) : str :=
  sub_loop (S (length s)) r (expand tpl) None s.

(** [re.sub(r, f, s)] with a callable [f] that may raise. *)
Fixpoint sub_loop_call (fuel : nat) (r : regex) (f : mstate -> result str)
         (p : option ascii) (s : str) : result str :=
  match fuel with
  | 0 => Ok s
  | S fuel' =>
      let step :=
        match s with
        | [] => Ok []
        | c :: t => out <- sub_loop_call fuel' r f (Some c) t ;; Ok (c :: out)
        end in
      match match_at r p s with
      | Some st =>
          new <- f st ;;
          out <- match length s - length (rest st) with
                 | 0 => step
                 | S _ => sub_loop_call fuel' r f (prev st) (rest st)
                 end ;;
          Ok (new ++ out)
      | None => step
      end
  end.

Definition re_sub_call (r : regex) (f : mstate -> result str) (s : str) : result str :=
  sub_loop_call (S (length s)) r f None s.

(** [len(re.findall(r, s))]. *)
Fixpoint count_loop (fuel : nat) (r : regex) (p : option ascii) (s : str) : nat :=
  match fuel with
  | 0 => 0
  | S fuel' =>
      let step :=
        match s with
        | [] => 0
        | c :: t => count_loop fuel' r (Some c) t
        end in
      match match_at r p s with
      | Some st =>
          S match length s - length (rest st) with
            | 0 => step
            | S _ => count_loop fuel' r (prev st) (rest st)
            end
      | None => step
      end
  end.

Definition re_findall_count (r : regex) (s : str) : nat :=
  count_loop (S (length s)) r None s.

(** Pattern combinators. *)

Definition chr (c : ascii) : regex := Chr (ascii_eqb c).

(** A literal character under [re.IGNORECASE]. *)
Definition ichr (c : ascii) : regex :=
  Chr (fun x => ascii_eqb (to_lower x) (to_lower c)).

Fixpoint seqs (rs : list regex) : regex :=
  match rs with
  | [] => Eps
  | [r] => r
  | r :: t => Seq r (seqs t)
  end.

Fixpoint alts (rs : list regex) : regex :=
  match rs with
  | [] => Chr (fun _ => false)
  | [r] => r
  | r :: t => Alt r (alts t)
  end.

Definition lit (w : string) : regex := seqs (map chr (txt w)).
Definition ilit (w : string) : regex := seqs (map ichr (txt w)).

Definition star (r : regex) : regex := Star true r.
Definition plus (r : regex) : regex := Seq r (Star true r).
Definition opt (r : regex) : regex := Alt r Eps.

Definition one_of (w : string) : regex := Chr (fun c => existsb (ascii_eqb c) (txt w)).
Definition none_of (w : string) : regex := Chr (fun c => negb (existsb (ascii_eqb c) (txt w))).

Definition SP : regex := Chr is_space.          (* \s *)
Definition W : regex := Chr is_word.            (* \w *)
Definition dot : regex := Chr (fun c => negb (ascii_eqb c LF)).   (* . *)
Definition dot_all : regex := Chr (fun _ => true).                (* . under DOTALL *)

(** Characters and texts that cannot stand in a string literal. *)
Definition DQ : ascii := "034"%char.
Definition SQ : ascii := "'"%char.

(** A text written with ['] in place of the double quote. *)
Definition txtq (x : string) : str :=
  map (fun c => if ascii_eqb c SQ then DQ else c) (txt x).

(** A text given line by line. *)
Definition text_of_lines (ls : list string) : str := join [LF] (map txt ls).

Definition quote : regex := Chr (fun c => ascii_eqb c SQ || ascii_eqb c DQ).   (* ['\x22] *)

(** ** detect_code_language *)

(** [import|def\s+\w+|class\s+\w+|async\s+def|await|with\s+|try:|except:] *)
Definition re_url_context : regex := alts [
  lit "import";
  seqs [lit "def"; plus SP; plus W];
  seqs [lit "class"; plus SP; plus W];
  seqs [lit "async"; plus SP; lit "def"];
  lit "await";
  seqs [lit "with"; plus SP];
  lit "try:";
  lit "except:" ].

(** [import\s+\w+|from\s+\w+\s+import|def\s+\w+\s*\(|class\s+\w+|async\s+def|@\w+|await\s+|with\s+|if\s+__name__\s*==\s*['\x22]__main__['\x22]],
    IGNORECASE *)
Definition re_python : regex := alts [
  seqs [ilit "import"; plus SP; plus W];
  seqs [ilit "from"; plus SP; plus W; plus SP; ilit "import"];
  seqs [ilit "def"; plus SP; plus W; star SP; chr "("];
  seqs [ilit "class"; plus SP; plus W];
  seqs [ilit "async"; plus SP; ilit "def"];
  seqs [chr "@"; plus W];
  seqs [ilit "await"; plus SP];
  seqs [ilit "with"; plus SP];
  seqs [ilit "if"; plus SP; ilit "__name__"; star SP; lit "=="; star SP;
        quote; ilit "__main__"; quote] ].

(** [function\s+\w+\s*\(|\w+\s*=>\s*[\{\(]|const\s+\w+\s*=|let\s+\w+\s*=|var\s+\w+\s*=|import\s+.*from\s+['\x22]|export\s+|class\s+\w+\s*\{\s*constructor|new\s+\w+\(] *)
Definition re_javascript : regex := alts [
  seqs [lit "function"; plus SP; plus W; star SP; chr "("];
  seqs [plus W; star SP; lit "=>"; star SP; one_of "{("];
  seqs [lit "const"; plus SP; plus W; star SP; chr "="];
  seqs [lit "let"; plus SP; plus W; star SP; chr "="];
  seqs [lit "var"; plus SP; plus W; star SP; chr "="];
  seqs [lit "import"; plus SP; star dot; lit "from"; plus SP; quote];
  seqs [lit "export"; plus SP];
  seqs [lit "class"; plus SP; plus W; star SP; chr "{"; star SP; lit "constructor"];
  seqs [lit "new"; plus SP; plus W; chr "("] ].

(** [:\s*\w+(\[\])?|interface\s+\w+|<\w+>|implements\s+|namespace\s+] *)
Definition re_typescript : regex := alts [
  seqs [chr ":"; star SP; plus W; opt (Group 1 (lit "[]"))];
  seqs [lit "interface"; plus SP; plus W];
  seqs [chr "<"; plus W; chr ">"];
  seqs [lit "implements"; plus SP];
  seqs [lit "namespace"; plus SP] ].

(** [<(!DOCTYPE|html|head|body|div|span|p|a|img|ul|ol|li|table|form|input)\b|<\/\w+>],
    IGNORECASE *)
Definition re_html : regex := alts [
  seqs [chr "<";
        Group 1 (alts (map ilit ["!DOCTYPE"; "html"; "head"; "body"; "div"; "span";
                                 "p"; "a"; "img"; "ul"; "ol"; "li"; "table"; "form";
                                 "input"]%string));
        WordB];
  seqs [lit "</"; plus W; chr ">"] ].

(** [SELECT\s+.+\s+FROM|INSERT\s+INTO|UPDATE\s+.+\s+SET|DELETE\s+FROM|CREATE\s+TABLE|ALTER\s+TABLE|DROP\s+TABLE],
    IGNORECASE *)
Definition re_sql : regex := alts [
  seqs [ilit "SELECT"; plus SP; plus dot; plus SP; ilit "FROM"];
  seqs [ilit "INSERT"; plus SP; ilit "INTO"];
  seqs [ilit "UPDATE"; plus SP; plus dot; plus SP; ilit "SET"];
  seqs [ilit "DELETE"; plus SP; ilit "FROM"];
  seqs [ilit "CREATE"; plus SP; ilit "TABLE"];
  seqs [ilit "ALTER"; plus SP; ilit "TABLE"];
  seqs [ilit "DROP"; plus SP; ilit "TABLE"] ].

(** [^\s*\{\s*\x22\w+\x22\s*:\s*] *)
Definition re_json_open : regex :=
  seqs [Bol false; star SP; chr "{"; star SP; chr DQ; plus W; chr DQ; star SP;
        chr ":"; star SP].

(** [}\s*$] *)
Definition re_json_close : regex := seqs [chr "}"; star SP; Eol false].

(** [public\s+(class|interface)|private\s+\w+|protected\s+\w+|@Override|import\s+java\.|System\.out\.print] *)
Definition re_java : regex := alts [
  seqs [lit "public"; plus SP; Group 1 (Alt (lit "class") (lit "interface"))];
  seqs [lit "private"; plus SP; plus W];
  seqs [lit "protected"; plus SP; plus W];
  lit "@Override";
  seqs [lit "import"; plus SP; lit "java."];
  lit "System.out.print" ].

(** [#include\s+<\w+(\.\w+)?>|std::|int\s+main\s*\(\s*(?:void|int\s+argc)|void\s+\w+\s*\(\s*\w+] *)
Definition re_cpp : regex := alts [
  seqs [lit "#include"; plus SP; chr "<"; plus W;
        opt (Group 1 (Seq (chr ".") (plus W))); chr ">"];
  lit "std::";
  seqs [lit "int"; plus SP; lit "main"; star SP; chr "("; star SP;
        Alt (lit "void") (seqs [lit "int"; plus SP; lit "argc"])];
  seqs [lit "void"; plus SP; plus W; star SP; chr "("; star SP; plus W] ].

(** [package\s+main|import\s+\(\s*\x22|func\s+\w+\s*\(|go\s+func|make\(\w+\)] *)
Definition re_go : regex := alts [
  seqs [lit "package"; plus SP; lit "main"];
  seqs [lit "import"; plus SP; chr "("; star SP; chr DQ];
  seqs [lit "func"; plus SP; plus W; star SP; chr "("];
  seqs [lit "go"; plus SP; lit "func"];
  seqs [lit "make("; plus W; chr ")"] ].

(** [fn\s+\w+|let\s+mut\s+|struct\s+\w+|impl\s+|use\s+\w+::|pub\s+fn] *)
Definition re_rust : regex := alts [
  seqs [lit "fn"; plus SP; plus W];
  seqs [lit "let"; plus SP; lit "mut"; plus SP];
  seqs [lit "struct"; plus SP; plus W];
  seqs [lit "impl"; plus SP];
  seqs [lit "use"; plus SP; plus W; lit "::"];
  seqs [lit "pub"; plus SP; lit "fn"] ].

(** [#!/bin/(ba)?sh|export\s+\w+=|\$\(\w+\)|if\s+\[\s+|\[\s+.+\s+\]] *)
Definition re_bash : regex := alts [
  seqs [lit "#!/bin/"; opt (Group 1 (lit "ba")); lit "sh"];
  seqs [lit "export"; plus SP; plus W; chr "="];
  seqs [lit "$("; plus W; chr ")"];
  seqs [lit "if"; plus SP; chr "["; plus SP];
  seqs [chr "["; plus SP; plus dot; plus SP; chr "]"] ].

(** [^\s*\w+:\s*\n\s+-\s+], MULTILINE *)
Definition re_yaml : regex :=
  seqs [Bol true; star SP; plus W; chr ":"; star SP; chr LF; plus SP; chr "-"; plus SP].

Definition context_domains : list str :=
  [txt "crawl4ai.com"; txt "pydantic.dev"; txt "github.io/langgraph"].

Definition detect_code_language (code_text : str) (language_hint : option str)
           (url : option str) : str :=
  if match language_hint with
     | Some h => truthy h && truthy (strip h)
                 && negb (str_eqb (lower (strip h)) (txt "text"))
     | None => false
     end
  then lower (strip (match language_hint with Some h => h | None => [] end))
  else
  if match url with
     | Some u => truthy u && existsb (fun domain => str_in domain u) context_domains
     | None => false
     end
     && re_search re_url_context code_text
  then txt "python"
  else if re_search re_python code_text then txt "python"
  else if re_search re_javascript code_text then
    if re_search re_typescript code_text then txt "typescript" else txt "javascript"
  else if re_search re_html code_text then txt "html"
  else if re_search re_sql code_text then txt "sql"
  else if re_search re_json_open code_text && re_search re_json_close code_text
       then txt "json"
  else if re_search re_java code_text then txt "java"
  else if re_search re_cpp code_text then txt "cpp"
  else if re_search re_go code_text then txt "go"
  else if re_search re_rust code_text then txt "rust"
  else if re_search re_bash code_text then txt "bash"
  else if re_search re_yaml code_text then txt "yaml"
  else txt "text".

(** ** JSON ([json.loads], [json.dumps(_, indent=2)])

    Python floats are kept abstract: [float_of_literal] is [float] on the
    text of a number (or on [nan], [inf], [-inf]) and [float_repr] is the
    text [json] writes for a float.  The limits of the interpreter that
    [json] can run into are parameters too, see [PyLimits].  [OutOfFuel] is
    not an exception of Python: it marks the end of the fuel that makes the
    recursion of the decoder structural, and [json_loads] never raises
    it. *)

Class PyFloat : Type := {
  pyfloat : Type;
  float_of_literal : str -> pyfloat;
  float_repr : pyfloat -> str
}.

Section JsonValue.

Context {PF : PyFloat}.

(** A decoded document.  A [str] value is a list of code points (an escape
    [\uXXXX] can denote any of them); a [dict] keeps its keys in insertion
    order. *)
Local Unset Elimination Schemes.

Inductive json : Type :=
| JNull
| JBool (b : bool)
| JInt (z : Z)
| JFloat (f : pyfloat)
| JStr (s : list N)
| JList (l : list json)
| JDict (d : list (list N * json)).

Local Set Elimination Schemes.

End JsonValue.

(** The limits of the interpreter.

    [int_max_str_digits] is [sys.get_int_max_str_digits()]: 4300 unless
    configured otherwise, 0 for no limit.

    [decoder_depth] is the number of arrays and objects, one inside the
    other, that the scanner can enter before the interpreter raises
    [RecursionError]: what is left of the recursion limit where
    [json.loads] is called.

    [encoder_error v] is the exception [json.dumps(v, indent=2)] raises, if
    it raises one: a [RecursionError] when the document is nested too
    deeply for the generators the encoder runs as, a [ValueError] for an
    [int] with too many digits.  What a document costs the encoder depends
    on the interpreter; the model leaves it open. *)
Class PyLimits {PF : PyFloat} : Type := {
  int_max_str_digits : nat;
  decoder_depth : nat;
  encoder_error : json -> option exn
}.

Section Json.

Context {PF : PyFloat} {PL : PyLimits}.

Definition is_json_ws (c : ascii) : bool :=
  let n := code c in (n =? 32)%N || (n =? 9)%N || (n =? 10)%N || (n =? 13)%N.

Fixpoint skip_ws (s : str) : str :=
  match s with
  | c :: t => if is_json_ws c then skip_ws t else s
  | [] => []
  end.

Definition hex_value (c : ascii) : option N :=
  let n := code c in
  if between 48 57 n then Some (n - 48)%N
  else if between 97 102 n then Some (n - 87)%N
  else if between 65 70 n then Some (n - 55)%N
  else None.

Definition hex4 (a b c d : ascii) : option N :=
  match hex_value a, hex_value b, hex_value c, hex_value d with
  | Some x, Some y, Some z, Some w => Some (((x * 16 + y) * 16 + z) * 16 + w)%N
  | _, _, _, _ => None
  end.

Definition is_high_surrogate (n : N) : bool := between 55296 56319 n.
Definition is_low_surrogate (n : N) : bool := between 56320 57343 n.

Definition join_surrogates (hi lo : N) : N :=
  (65536 + ((hi - 55296) * 1024 + (lo - 56320)))%N.

(** The character of a backslash escape other than [\u]. *)
Definition unescape (c : ascii) : option N :=
  let n := code c in
  if (n =? 34)%N || (n =? 92)%N || (n =? 47)%N then Some n
  else if (n =? 98)%N then Some 8%N
  else if (n =? 102)%N then Some 12%N
  else if (n =? 110)%N then Some 10%N
  else if (n =? 114)%N then Some 13%N
  else if (n =? 116)%N then Some 9%N
  else None.

Definition BS : ascii := "\"%char.

(** [scanstring] in strict mode, from just after the opening quote. *)
Fixpoint scanstring (s : str) : result (list N * str) :=
  match s with
  | [] => Raise JSONDecodeError
  | c :: t =>
      if ascii_eqb c DQ then Ok ([], t)
      else if ascii_eqb c BS then
        match t with
        | [] => Raise JSONDecodeError
        | e :: t1 =>
            if ascii_eqb e "u" then
              match t1 with
              | h1 :: h2 :: h3 :: h4 :: t5 =>
                  match hex4 h1 h2 h3 h4 with
                  | None => Raise JSONDecodeError
                  | Some u =>
                      match t5 with
                      | b :: v :: g1 :: g2 :: g3 :: g4 :: t11 =>
                          if is_high_surrogate u && truthy t11
                             && ascii_eqb b BS && ascii_eqb v "u" then
                            match hex4 g1 g2 g3 g4 with
                            | None => Raise JSONDecodeError
                            | Some u2 =>
                                if is_low_surrogate u2 then
                                  ' (k, r) <- scanstring t11 ;;
                                  Ok (join_surrogates u u2 :: k, r)
                                else
                                  ' (k, r) <- scanstring t5 ;; Ok (u :: k, r)
                            end
                          else ' (k, r) <- scanstring t5 ;; Ok (u :: k, r)
                      | _ => ' (k, r) <- scanstring t5 ;; Ok (u :: k, r)
                      end
                  end
              | _ => Raise JSONDecodeError
              end
            else
              match unescape e with
              | Some x => ' (k, r) <- scanstring t1 ;; Ok (x :: k, r)
              | None => Raise JSONDecodeError
              end
        end
      else if (code c <=? 31)%N then Raise JSONDecodeError
      else ' (k, r) <- scanstring t ;; Ok (code c :: k, r)
  end.

(** The longest prefix of digits, and what follows it. *)
Fixpoint span_digits (s : str) : str * str :=
  match s with
  | c :: t => if is_digit c then let (d, r) := span_digits t in (c :: d, r)
              else ([], s)
  | [] => ([], [])
  end.

(** An optional minus sign. *)
Definition scan_sign (s : str) : str * str :=
  match s with
  | c :: t => if ascii_eqb c "-" then ([c], t) else ([], s)
  | [] => ([], s)
  end.

(** The integer digits: a lone [0], or a non-zero digit and more digits. *)
Definition scan_int (s : str) : option (str * str) :=
  match s with
  | [] => None
  | c :: t =>
      if ascii_eqb c "0" then Some ([c], t)
      else if is_digit c then let (d, r) := span_digits t in Some (c :: d, r)
      else None
  end.

(** A fraction: a point followed by at least one digit. *)
Definition scan_frac (s : str) : str * str :=
  match s with
  | p :: d :: t =>
      if ascii_eqb p "." && is_digit d
      then let (ds, r) := span_digits t in (p :: d :: ds, r)
      else ([], s)
  | _ => ([], s)
  end.

(** An exponent: [e] or [E], an optional sign and at least one digit. *)
Definition scan_exp (s : str) : str * str :=
  match s with
  | e :: t =>
      if ascii_eqb e "e" || ascii_eqb e "E" then
        let (sg, t') :=
          match t with
          | x :: y :: r =>
              if ascii_eqb x "-" || ascii_eqb x "+" then ([x], y :: r)
              else ([], t)
          | _ => ([], t)
          end in
        match span_digits t' with
        | ([], _) => ([], s)
        | (ds, r) => (e :: sg ++ ds, r)
        end
      else ([], s)
  | [] => ([], s)
  end.

(** The number at the head of [s]: whether it is a float, its text and
    what follows. *)
Definition match_number (s : str) : option (bool * str * str) :=
  let (sign, s1) := scan_sign s in
  match scan_int s1 with
  | None => None
  | Some (ds, s2) =>
      let (frac, s3) := scan_frac s2 in
      let (exp, s4) := scan_exp s3 in
      Some (truthy frac || truthy exp, sign ++ ds ++ frac ++ exp, s4)
  end.

Definition digit_of_char (c : ascii) (u : Decimal.uint) : Decimal.uint :=
  match (code c - 48)%N with
  | 0 => Decimal.D0 u | 1 => Decimal.D1 u | 2 => Decimal.D2 u
  | 3 => Decimal.D3 u | 4 => Decimal.D4 u | 5 => Decimal.D5 u
  | 6 => Decimal.D6 u | 7 => Decimal.D7 u | 8 => Decimal.D8 u
  | _ => Decimal.D9 u
  end%N.

Fixpoint uint_of_digits (s : str) : Decimal.uint :=
  match s with
  | [] => Decimal.Nil
  | c :: t => digit_of_char c (uint_of_digits t)
  end.

Fixpoint digits_of_uint (u : Decimal.uint) : str :=
  match u with
  | Decimal.Nil => []
  | Decimal.D0 u => "0"%char :: digits_of_uint u
  | Decimal.D1 u => "1"%char :: digits_of_uint u
  | Decimal.D2 u => "2"%char :: digits_of_uint u
  | Decimal.D3 u => "3"%char :: digits_of_uint u
  | Decimal.D4 u => "4"%char :: digits_of_uint u
  | Decimal.D5 u => "5"%char :: digits_of_uint u
  | Decimal.D6 u => "6"%char :: digits_of_uint u
  | Decimal.D7 u => "7"%char :: digits_of_uint u
  | Decimal.D8 u => "8"%char :: digits_of_uint u
  | Decimal.D9 u => "9"%char :: digits_of_uint u
  end.

(** [int(s)] on the text of an integer matched by [match_number]. *)
Definition int_of_literal (s : str) : Z :=
  match s with
  | c :: t => if ascii_eqb c "-" then Z.of_int (Decimal.Neg (uint_of_digits t))
              else Z.of_int (Decimal.Pos (uint_of_digits s))
  | [] => 0%Z
  end.

(** The limit on the digits of an [int]: it applies to a text of more than
    640 digits, the sign not counted. *)
Definition int_too_long (numstr : str) : bool :=
  let digits := length (filter is_digit numstr) in
  (640 <? digits) && (0 <? int_max_str_digits) && (int_max_str_digits <? digits).

(** [int(numstr)] as the scanner calls it. *)
Definition py_int (numstr : str) : result Z :=
  if int_too_long numstr then Raise ValueError else Ok (int_of_literal numstr).

(** [int.__repr__]. *)
Definition int_repr (z : Z) : str :=
  match Z.to_int z with
  | Decimal.Pos u => digits_of_uint u
  | Decimal.Neg u => "-"%char :: digits_of_uint u
  end.

(** [d[k] = v] on an insertion-ordered [dict]. *)
Fixpoint dict_set (k : list N) (v : json) (d : list (list N * json)) : list (list N * json) :=
  match d with
  | [] => [(k, v)]
  | (k', v') :: t =>
      if list_eq_dec N.eq_dec k k' then (k', v) :: t else (k', v') :: dict_set k v t
  end.

(** [dict(pairs)]. *)
Definition dict_of_pairs (pairs : list (list N * json)) : list (list N * json) :=
  fold_left (fun d kv => dict_set (fst kv) (snd kv) d) pairs [].

(** [scan_once] with the loops of [JSONArray] and [JSONObject].  The
    scanner enters a recursive call of the interpreter at every [{] and
    every [[]: [depth] is the number of such calls it can still nest.
    [fuel] bounds the calls of the model itself. *)
Fixpoint scan_once (fuel depth : nat) (s : str) : result (json * str) :=
  match fuel with
  | 0 => Raise OutOfFuel
  | S fuel' =>
      match s with
      | [] => Raise JSONDecodeError
      | c :: t =>
          if ascii_eqb c DQ then ' (k, r) <- scanstring t ;; Ok (JStr k, r)
          else if ascii_eqb c "{" then
            match depth with
            | 0 => Raise RecursionError
            | S depth' =>
                match skip_ws t with
                | c' :: t' =>
                    if ascii_eqb c' "}" then Ok (JDict [], t')
                    else if ascii_eqb c' DQ then
                      ' (pairs, r) <- object_items fuel' depth' t' ;;
                      Ok (JDict (dict_of_pairs pairs), r)
                    else Raise JSONDecodeError
                | [] => Raise JSONDecodeError
                end
            end
          else if ascii_eqb c "[" then
            match depth with
            | 0 => Raise RecursionError
            | S depth' =>
                match skip_ws t with
                | c' :: t' =>
                    if ascii_eqb c' "]" then Ok (JList [], t')
                    else ' (vs, r) <- array_items fuel' depth' (c' :: t') ;;
                         Ok (JList vs, r)
                | [] => Raise JSONDecodeError
                end
            end
          else if startswith (txt "null") s then Ok (JNull, skipn 4 s)
          else if startswith (txt "true") s then Ok (JBool true, skipn 4 s)
          else if startswith (txt "false") s then Ok (JBool false, skipn 5 s)
          else
            match match_number s with
            | Some (is_float, numstr, r) =>
                if is_float then Ok (JFloat (float_of_literal numstr), r)
                else z <- py_int numstr ;; Ok (JInt z, r)
            | None =>
                if startswith (txt "NaN") s
                then Ok (JFloat (float_of_literal (txt "nan")), skipn 3 s)
                else if startswith (txt "Infinity") s
                then Ok (JFloat (float_of_literal (txt "inf")), skipn 8 s)
                else if startswith (txt "-Infinity") s
                then Ok (JFloat (float_of_literal (txt "-inf")), skipn 9 s)
                else Raise JSONDecodeError
            end
      end
  end

(** The loop of [JSONArray], at the start of a value. *)
with array_items (fuel depth : nat) (s : str) : result (list json * str) :=
  match fuel with
  | 0 => Raise OutOfFuel
  | S fuel' =>
      ' (v, r) <- scan_once fuel' depth s ;;
      match skip_ws r with
      | c :: t =>
          if ascii_eqb c "]" then Ok ([v], t)
          else if ascii_eqb c "," then
            ' (vs, r') <- array_items fuel' depth (skip_ws t) ;; Ok (v :: vs, r')
          else Raise JSONDecodeError
      | [] => Raise JSONDecodeError
      end
  end

(** The loop of [JSONObject], just after the opening quote of a key. *)
with object_items (fuel depth : nat) (s : str)
  : result (list (list N * json) * str) :=
  match fuel with
  | 0 => Raise OutOfFuel
  | S fuel' =>
      ' (key, r) <- scanstring s ;;
      match skip_ws r with
      | c :: t =>
          if ascii_eqb c ":" then
            ' (v, r') <- scan_once fuel' depth (skip_ws t) ;;
            match skip_ws r' with
            | c' :: t' =>
                if ascii_eqb c' "}" then Ok ([(key, v)], t')
                else if ascii_eqb c' "," then
                  match skip_ws t' with
                  | q :: t'' =>
                      if ascii_eqb q DQ then
                        ' (kvs, r'') <- object_items fuel' depth t'' ;;
                        Ok ((key, v) :: kvs, r'')
                      else Raise JSONDecodeError
                  | [] => Raise JSONDecodeError
                  end
                else Raise JSONDecodeError
            | [] => Raise JSONDecodeError
            end
          else Raise JSONDecodeError
      | [] => Raise JSONDecodeError
      end
  end.

(** [json.loads(s)]: one value between optional whitespace. *)
Definition json_loads (s : str) : result json :=
  ' (v, r) <- scan_once (2 * length s + 2) decoder_depth (skip_ws s) ;;
  match skip_ws r with
  | [] => Ok v
  | _ :: _ => Raise JSONDecodeError
  end.

Definition hex_digit (n : N) : ascii :=
  if (n <? 10)%N then ascii_of_N (48 + n) else ascii_of_N (87 + n).

(** [format(n, 04x)] for [n < 65536]. *)
Definition hex4_of (n : N) : str :=
  [hex_digit (n / 4096); hex_digit ((n / 256) mod 16);
   hex_digit ((n / 16) mod 16); hex_digit (n mod 16)]%N.

Definition escape_char (n : N) : str :=
  if (n =? 34)%N then [BS; DQ]
  else if (n =? 92)%N then [BS; BS]
  else if (n =? 8)%N then [BS; "b"%char]
  else if (n =? 12)%N then [BS; "f"%char]
  else if (n =? 10)%N then [BS; "n"%char]
  else if (n =? 13)%N then [BS; "r"%char]
  else if (n =? 9)%N then [BS; "t"%char]
  else if between 32 126 n then [ascii_of_N n]
  else if (n <? 65536)%N then BS :: "u"%char :: hex4_of n
  else
    let m := (n - 65536)%N in
    BS :: "u"%char :: hex4_of (N.lor 55296 (N.land (N.shiftr m 10) 1023))
    ++ BS :: "u"%char :: hex4_of (N.lor 56320 (N.land m 1023)).

(** [encode_basestring_ascii]. *)
Definition encode_basestring_ascii (s : list N) : str :=
  DQ :: flat_map escape_char s ++ [DQ].

(** A line break followed by [level] steps of two spaces. *)
Definition newline_indent (level : nat) : str :=
  LF :: repeat " "%char (2 * level).

(** [_iterencode] with [indent=2], at nesting depth [level]. *)
Fixpoint encode (level : nat) (v : json) : str :=
  match v with
  | JNull => txt "null"
  | JBool true => txt "true"
  | JBool false => txt "false"
  | JInt z => int_repr z
  | JFloat f => float_repr f
  | JStr s => encode_basestring_ascii s
  | JList [] => txt "[]"
  | JList l =>
      txt "[" ++ newline_indent (S level)
      ++ join (txt "," ++ newline_indent (S level)) (map (encode (S level)) l)
      ++ newline_indent level ++ txt "]"
  | JDict [] => txt "{}"
  | JDict d =>
      txt "{" ++ newline_indent (S level)
      ++ join (txt "," ++ newline_indent (S level))
           (map (fun kv => encode_basestring_ascii (fst kv) ++ txt ": "
                           ++ encode (S level) (snd kv)) d)
      ++ newline_indent level ++ txt "}"
  end.

(** [json.dumps(v, indent=2)]. *)
Definition json_dumps (v : json) : result str :=
  match encoder_error v with
  | Some e => Raise e
  | None => Ok (encode 0 v)
  end.

End Json.

(** ** process_code_block *)

Section Formatter.

Context {PF : PyFloat} {PL : PyLimits}.

(** [re.sub(r'kw(\w+)', r'kw \1', content)] *)
Definition fix_keyword (content : str) (kw : string) : str :=
  re_sub (Seq (lit kw) (Group 1 (plus W)))
         [TLit (txt kw ++ txt " "); TRef 1] content.

(** [re.sub(r'([^L])o([^R])', r'\1 o \2', content)] for an operator
    character [o] and excluded neighbours [L] and [R]. *)
Definition fix_operator (content : str) (rule : string * ascii * string) : str :=
  let '(before, op, after) := rule in
  re_sub (seqs [Group 1 (none_of before); chr op; Group 2 (none_of after)])
         [TRef 1; TLit [" "%char; op; " "%char]; TRef 2] content.

(** [re.sub(r'(Name)\s*\(', r'\1(', content)] *)
Definition fix_call (content : str) (name : string) : str :=
  re_sub (seqs [Group 1 (lit name); star SP; chr "("])
         [TRef 1; TLit (txt "(")] content.

(** [re.sub(r'\.(\w+)\(', r'.\1(', content)] *)
Definition fix_chaining (content : str) : str :=
  re_sub (seqs [chr "."; Group 1 (plus W); chr "("])
         [TLit (txt "."); TRef 1; TLit (txt "(")] content.

Definition python_keywords : list string :=
  ["import"; "from"; "def"; "class"; "if"; "elif"; "for"; "while"; "with";
   "return"; "except"; "as"; "in"; "await"; "async"]%string.

Definition op_rule (before : string) (op : ascii) (after : string)
  : string * ascii * string := (before, op, after).

Definition python_operators : list (string * ascii * string) :=
  [op_rule "=!<>" "=" "="; op_rule "+" "+" "+="; op_rule "-" "-" "-=";
   op_rule "*" "*" "*="; op_rule "/" "/" "/="].

Definition js_keywords : list string :=
  ["function"; "const"; "let"; "var"; "if"; "else"; "for"; "while"; "switch";
   "return"]%string.

Definition js_operators : list (string * ascii * string) :=
  [op_rule "=!<>" "=" "="; op_rule "+" "+" "+="; op_rule "-" "-" "-="].

Definition crawl4ai_calls : list string :=
  ["CrawlerRunConfig"; "AsyncWebCrawler"; "DefaultMarkdownGenerator"]%string.

(** ['crawl4ai' in url.lower() if url else False] *)
Definition is_crawl4ai (url : option str) : bool :=
  match url with
  | Some u => if truthy u then str_in (txt "crawl4ai") (lower u) else false
  | None => false
  end.

(** The substitutions on one Python line, in source order. *)
Definition fix_python (url : option str) (content : str) : str :=
  let content := fold_left fix_keyword python_keywords content in
  let content := if is_crawl4ai url then fold_left fix_call crawl4ai_calls content
                 else content in
  let content := fix_chaining content in
  fold_left fix_operator python_operators content.

(** The substitutions on one JavaScript or TypeScript line. *)
Definition fix_js (content : str) : str :=
  fold_left fix_operator js_operators (fold_left fix_keyword js_keywords content).

(** [len(line) - len(line.lstrip())] *)
Definition indent_of (line : str) : nat := length line - length (lstrip line).

(** The body of each formatting loop: a blank line becomes empty, any other
    line keeps its indentation relative to [min_indent] and has [fixup]
    applied to its content. *)
Definition format_line (fixup : str -> str) (min_indent : nat) (line : str) : str :=
  if negb (truthy (strip line)) then []
  else
    let indent := indent_of line in
    let relative_indent :=
      if min_indent <? indent then repeat " "%char (indent - min_indent) else [] in
    let content := lstrip line in
    relative_indent ++ fixup content.

Definition format_lines (fixup : str -> str) (min_indent : nat) (lines : list str) : str :=
  join [LF] (map (format_line fixup min_indent) lines).

(** [while lines and not lines[0].strip(): lines.pop(0)] *)
Fixpoint drop_blank_head (lines : list str) : list str :=
  match lines with
  | l :: t => if negb (truthy (strip l)) then drop_blank_head t else lines
  | [] => []
  end.

(** [while lines and not lines[-1].strip(): lines.pop()] *)
Definition drop_blank_tail (lines : list str) : list str :=
  rev (drop_blank_head (rev lines)).

Definition import_line : str :=
  txt "from crawl4ai import AsyncWebCrawler, CrawlerRunConfig" ++ [LF].

(** [^(import|from)], MULTILINE *)
Definition re_import_line : regex :=
  Seq (Bol true) (Group 1 (Alt (lit "import") (lit "from"))).

(** The import patch applied to the joined Python block. *)
Definition add_crawl4ai_import (formatted_code : str) : str :=
  if str_in (txt "AsyncWebCrawler") formatted_code
     && negb (str_in (txt "from crawl4ai import AsyncWebCrawler") formatted_code)
  then
    match search_from re_import_line None formatted_code 0 with
    | Some (insert_point, _) =>
        firstn insert_point formatted_code ++ import_line
        ++ skipn insert_point formatted_code
    | None => formatted_code
    end
  else formatted_code.

Definition process_code_block (code_text language : str) (url : option str)
  : result (str * str) :=
  if length code_text <? 5 then Ok (code_text, language) else
  let lines := drop_blank_tail (drop_blank_head (splitlines code_text)) in
  if negb (existsb (fun _ => true) lines) then Ok (code_text, language) else
  let non_empty_lines := filter (fun line => truthy (strip line)) lines in
  if negb (existsb (fun _ => true) non_empty_lines) then Ok (code_text, language) else
  min_indent <- py_min (map indent_of non_empty_lines) ;;
  if str_eqb language (txt "python") then
    let formatted_code := format_lines (fix_python url) min_indent lines in
    let formatted_code :=
      if is_crawl4ai url then add_crawl4ai_import formatted_code
      else formatted_code in
    Ok (formatted_code, txt "python")
  else if existsb (str_eqb language)
            [txt "javascript"; txt "typescript"; txt "jsx"; txt "tsx"] then
    Ok (format_lines fix_js min_indent lines, language)
  else if existsb (str_eqb language) [txt "json"; txt "yaml"] then
    early <- try_except
               (if str_eqb language (txt "json")
                then parsed <- json_loads code_text ;;
                     out <- json_dumps parsed ;;
                     Ok (Some (out, language))
                else Ok None)
               (Ok None) ;;
    match early with
    | Some out => Ok out
    | None => Ok (format_lines (fun c => c) min_indent lines, language)
    end
  else Ok (format_lines (fun c => c) min_indent lines, language).

(** ** post_process_markdown *)

Definition fence : str := txt "```".

(** [```( [^\n]* )\n( .*? )\n```] (spaces added), DOTALL *)
Definition re_code_block : regex :=
  seqs [lit "```"; Group 1 (star dot); chr LF; Group 2 (Star false dot_all);
        chr LF; lit "```"].

(** [```[^\n]*\n] *)
Definition re_fence_open : regex := seqs [lit "```"; star dot; chr LF].

Definition replace_code_block (url : str) (m : mstate) : result str :=
  let lang := lower (strip (group 1 m)) in
  let code := group 2 m in
  ' (formatted_code, detected_lang) <-
      process_code_block code (if truthy lang then lang else txt "text") (Some url) ;;
  let final_lang :=
    if negb (truthy lang) || str_eqb lang (txt "text") then detected_lang else lang in
  Ok (fence ++ final_lang ++ [LF] ++ formatted_code ++ [LF] ++ fence).

(** [s.split(sep)] for a one-character separator. *)
Fixpoint split_on (sep : ascii) (s : str) : list str :=
  match s with
  | [] => [[]]
  | c :: t =>
      if ascii_eqb c sep then [] :: split_on sep t
      else match split_on sep t with
           | l :: ls => (c :: l) :: ls
           | [] => [[c]]
           end
  end.

Definition str_of_nat (n : nat) : str := digits_of_uint (Nat.to_uint n).

Definition str_of_bool (b : bool) : str := if b then txt "True" else txt "False".

(** [re.sub(..., replace_code_block, markdown_content, flags=re.DOTALL)] *)
Definition process_code_blocks (markdown_content url : str) : result str :=
  re_sub_call re_code_block (replace_code_block url) markdown_content.

(** [timestamp] stands for [datetime.datetime.now().isoformat()]. *)
Definition post_process_markdown (timestamp : str) (markdown_content url : str)
  : result str :=
  let code_blocks_count := re_findall_count re_fence_open markdown_content in
  processed_content <- process_code_blocks markdown_content url ;;
  domain <- (if str_in (txt "://") url then py_index (split_on "/" url) 2
             else py_index (split_on "/" url) 0) ;;
  let frontmatter :=
    txt "---" ++ [LF]
    ++ txt "url: " ++ url ++ [LF]
    ++ txt "source: gemini" ++ [LF]
    ++ txt "date_processed: " ++ timestamp ++ [LF]
    ++ txt "domain: " ++ domain ++ [LF]
    ++ txt "content_type: documentation" ++ [LF]
    ++ txt "contains_code: " ++ str_of_bool (0 <? code_blocks_count) ++ [LF] in
  let frontmatter :=
    if 0 <? code_blocks_count
    then frontmatter ++ txt "code_blocks_count: " ++ str_of_nat code_blocks_count ++ [LF]
    else frontmatter in
  let frontmatter := frontmatter ++ txt "formatter_version: 2.1" ++ [LF]
                     ++ txt "---" ++ [LF; LF] in
  let header := txt "# " ++ domain ++ [LF; LF] ++ txt "> Original URL: [" ++ url
                ++ txt "](" ++ url ++ txt ")" ++ [LF; LF] in
  Ok (frontmatter ++ header ++ processed_content).

End Formatter.

(** ** sanitize_filename (scrape_pydantic.py) *)

(** [s.lstrip(chars)] *)
Fixpoint lstrip_chars (chars s : str) : str :=
  match s with
  | c :: t => if existsb (ascii_eqb c) chars then lstrip_chars chars t else s
  | [] => []
  end.

(** [s.strip(chars)] *)
Definition strip_chars (chars s : str) : str :=
  rev (lstrip_chars chars (rev (lstrip_chars chars s))).

(** [^https?://] *)
Definition re_scheme : regex :=
  seqs [Bol false; lit "http"; opt (chr "s"); lit "://"].

(** The characters of the class [[<>:\x22/\\|?*]]. *)
Definition invalid_char (c : ascii) : bool :=
  existsb (ascii_eqb c) (txtq "<>:'/\|?*").

(** [_+] *)
Definition re_underscores : regex := plus (chr "_").

Definition sanitize_filename (url_str : str) : str :=
  let sanitized := re_sub re_scheme [] url_str in
  let sanitized := re_sub (Chr invalid_char) [TLit (txt "_")] sanitized in
  let sanitized := re_sub re_underscores [TLit (txt "_")] sanitized in
  let sanitized := strip_chars (txt "_.") sanitized in
  firstn 100 sanitized.

(** * Vocabulary of the statements and proofs *)

(** A float implementation that keeps the text of the literal; it serves to
    run examples, none of which holds a float. *)
Definition literal_floats : PyFloat :=
  {| pyfloat := str; float_of_literal := fun l => l; float_repr := fun f => f |}.

(** An interpreter with the limit on the digits of an [int] that CPython
    ships with, and with room for a hundred nested arrays and objects in
    the decoder and for every document in the encoder; it serves to run
    examples, none of which comes near a limit. *)
Definition example_limits : @PyLimits literal_floats :=
  {| int_max_str_digits := 4300;
     decoder_depth := 100;
     encoder_error := fun _ => None |}.

(** The character before the position once the word [w] has been read. *)
Definition prev_after (w : str) (p : option ascii) : option ascii :=
  fold_left (fun _ c => Some c) w p.

Definition python : str := txt "python".

Definition crawl4ai_docs : option str := Some (txt "https://docs.crawl4ai.com/core/").

(** The lines the formatting loops run over, and the non-blank ones. *)
Definition block_lines (code_text : str) : list str :=
  drop_blank_tail (drop_blank_head (splitlines code_text)).

Definition non_empty_lines (code_text : str) : list str :=
  filter (fun line => truthy (strip line)) (block_lines code_text).

(** The text the indentation-only loop produces for a block. *)
Definition indentation_only (code_text : str) : str :=
  match py_min (map indent_of (non_empty_lines code_text)) with
  | Ok min_indent => format_lines (fun c => c) min_indent (block_lines code_text)
  | Raise _ => code_text
  end.

(** A text has ink when one of its characters is not white space. *)
Definition has_ink (s : str) : bool := existsb (fun c => negb (is_space c)) s.

(** A text without line boundaries. *)
Definition one_line (s : str) : Prop := Forall (fun c => is_linebreak c = false) s.

Definition count_nonblank_lines (x : str) : nat :=
  length (filter (fun line => truthy (strip line)) (splitlines x)).

Definition state_ok (Q : ascii -> Prop) (st : mstate) : Prop :=
  Forall Q (rest st) /\ Forall (fun ng => Forall Q (snd ng)) (groups st).

Definition template_ok (Q : ascii -> Prop) (tpl : list titem) : Prop :=
  Forall (fun i => match i with TLit s => Forall Q s | TRef _ => True end) tpl.

(** A replacement template with a literal piece that has ink. *)
Definition template_ink (tpl : list titem) : bool :=
  existsb (fun i => match i with TLit s => has_ink s | TRef _ => false end) tpl.

(** A line with ink: what the formatting loops hand to the substitutions. *)
Definition inked_line (s : str) : Prop := one_line s /\ has_ink s = true.

Definition is_one_line (s : str) : bool := forallb (fun c => negb (is_linebreak c)) s.

Definition template_one_line (tpl : list titem) : bool :=
  forallb (fun i => match i with TLit s => is_one_line s | TRef _ => true end) tpl.

Definition keyword_ok (kw : string) : bool :=
  is_one_line (txt kw) && has_ink (txt kw).

Definition operator_ok (rule : string * ascii * string) : bool :=
  let '(_, op, _) := rule in negb (is_linebreak op) && negb (is_space op).

(** The substitutions [process_code_block] applies to the lines of a block
    in language [L]. *)
Definition content_fix (L : str) (u : option str) : str -> str :=
  if str_eqb L (txt "python") then fix_python u
  else if existsb (str_eqb L)
            [txt "javascript"; txt "typescript"; txt "jsx"; txt "tsx"]
       then fix_js
       else fun c => c.

(** Code points of a [str], with no high surrogate directly before a low
    one (the decoder joins such a pair). *)
Fixpoint code_points_ok (s : list N) : bool :=
  match s with
  | [] => true
  | c :: t =>
      (c <? 1114112)%N
      && negb (is_high_surrogate c
               && match t with c' :: _ => is_low_surrogate c' | [] => false end)
      && code_points_ok t
  end.

Definition then_cons (x : N) (m : result (list N * str)) : result (list N * str) :=
  ' (k, r) <- m ;; Ok (x :: k, r).

(** The text after a [\uXXXX] escape does not start with the escape of a
    low surrogate. *)
Definition no_low_escape (X : str) : Prop :=
  forall g1 g2 g3 g4 t,
    X = BS :: "u"%char :: g1 :: g2 :: g3 :: g4 :: t ->
    exists u2, hex4 g1 g2 g3 g4 = Some u2 /\ is_low_surrogate u2 = false.

Definition high_half (n : N) : N :=
  N.lor 55296 (N.land (N.shiftr (n - 65536) 10) 1023).

Definition low_half (n : N) : N := N.lor 56320 (N.land (n - 65536) 1023).

(** The four shapes of an encoded code point. *)
Inductive escape_shape (c : N) : str -> Prop :=
| shape_simple e :
    unescape e = Some c -> escape_shape c [BS; e]
| shape_raw a :
    code a = c -> ascii_eqb a DQ = false -> ascii_eqb a BS = false ->
    (code a <=? 31)%N = false -> escape_shape c [a]
| shape_u h1 h2 h3 h4 :
    hex4 h1 h2 h3 h4 = Some c ->
    escape_shape c [BS; "u"%char; h1; h2; h3; h4]
| shape_pair h1 h2 h3 h4 g1 g2 g3 g4 hi lo :
    hex4 h1 h2 h3 h4 = Some hi -> hex4 g1 g2 g3 g4 = Some lo ->
    is_high_surrogate hi = true -> is_low_surrogate hi = false ->
    is_low_surrogate lo = true -> join_surrogates hi lo = c ->
    escape_shape c [BS; "u"%char; h1; h2; h3; h4; BS; "u"%char; g1; g2; g3; g4].

Definition first_low (k : list N) : bool :=
  match k with c :: _ => is_low_surrogate c | [] => false end.

Definition all_digits (s : str) : Prop := Forall (fun c => is_digit c = true) s.

(** What follows a value in an encoded document: nothing, a comma or a
    line feed. *)
Definition value_end (rest : str) : bool :=
  match rest with
  | [] => true
  | c :: _ => ascii_eqb c "," || ascii_eqb c LF
  end.

(** The characters a value can start with. *)
Definition value_start (c : ascii) : bool :=
  is_digit c || existsb (ascii_eqb c) (DQ :: txt "{[ntfNI-").

Definition item_sep (level : nat) : str := txt "," ++ newline_indent (S level).

(** What follows the first item of a joined list. *)
Definition join_tail (sep : str) (ls : list str) : str :=
  match ls with [] => [] | _ :: _ => sep ++ join sep ls end.

Section JsonVocabulary.

Context {PF : PyFloat} {PL : PyLimits}.

(** A float that [json] can read back from the text it writes for it. *)
Definition float_roundtrip (f : pyfloat) : Prop :=
  forall fuel depth rest,
    value_end rest = true ->
    scan_once (S fuel) depth (float_repr f ++ rest) = Ok (JFloat f, rest).

Fixpoint floats_of (v : json) : list pyfloat :=
  match v with
  | JFloat f => [f]
  | JList l => flat_map floats_of l
  | JDict d => flat_map (fun kv => floats_of (snd kv)) d
  | _ => []
  end.

(** Documents as the decoder builds them: well-formed strings and keys, no
    key twice in a [dict]. *)
Local Unset Elimination Schemes.

Inductive wf_json : json -> Prop :=
| wf_null : wf_json JNull
| wf_bool b : wf_json (JBool b)
| wf_int z : wf_json (JInt z)
| wf_float f : wf_json (JFloat f)
| wf_str s : code_points_ok s = true -> wf_json (JStr s)
| wf_list l : Forall wf_json l -> wf_json (JList l)
| wf_dict d :
    NoDup (map fst d) ->
    Forall (fun kv => code_points_ok (fst kv) = true /\ wf_json (snd kv)) d ->
    wf_json (JDict d).

Local Set Elimination Schemes.

(** Documents within the limits of the decoder: at most [depth] arrays
    and objects one inside the other, and no [int] with too many digits. *)
Local Unset Elimination Schemes.

Inductive fits : nat -> json -> Prop :=
| fits_null depth : fits depth JNull
| fits_bool depth b : fits depth (JBool b)
| fits_int depth z : int_too_long (int_repr z) = false -> fits depth (JInt z)
| fits_float depth f : fits depth (JFloat f)
| fits_str depth s : fits depth (JStr s)
| fits_list depth l : Forall (fits depth) l -> fits (S depth) (JList l)
| fits_dict depth d :
    Forall (fun kv => fits depth (snd kv)) d -> fits (S depth) (JDict d).

Local Set Elimination Schemes.

(** The calls a document needs to be read back. *)
Fixpoint weight (v : json) : nat :=
  match v with
  | JList l => S (fold_right (fun x n => S (weight x + n)) 0 l)
  | JDict d => S (fold_right (fun kv n => S (weight (snd kv) + n)) 0 d)
  | _ => 1
  end.

(** The property proved for every document: enough fuel reads it back. *)
Definition reads_back (v : json) : Prop :=
  wf_json v -> Forall float_roundtrip (floats_of v) ->
  forall level rest fuel depth,
    value_end rest = true -> weight v <= fuel -> fits depth v ->
    scan_once fuel depth (encode level v ++ rest) = Ok (v, rest).

Definition items_weight (l : list json) : nat :=
  fold_right (fun x n => S (weight x + n)) 0 l.

Definition pairs_weight (d : list (list N * json)) : nat :=
  fold_right (fun kv n => S (weight (snd kv) + n)) 0 d.

Definition pair_text (level : nat) (kv : list N * json) : str :=
  encode_basestring_ascii (fst kv) ++ txt ": " ++ encode (S level) (snd kv).

Definition pair_ok (kv : list N * json) : Prop :=
  code_points_ok (fst kv) = true /\ wf_json (snd kv).

(** The text of a block that [json] reads and writes again: no exception
    in [json.loads], none in [json.dumps]. *)
Definition reserialized (x : str) : option str :=
  match json_loads x with
  | Ok v => match json_dumps v with Ok t => Some t | Raise _ => None end
  | Raise _ => None
  end.

End JsonVocabulary.

(** ** Vocabulary of the further properties *)

(** The matches of a pattern, without the order in which the matcher tries
    them: [matches r st st'] when [r] can take the matcher from the state
    [st] to the state [st'].  As in the matcher, every item of a repetition
    consumes text. *)
Inductive matches : regex -> mstate -> mstate -> Prop :=
| matches_eps st : matches Eps st st
| matches_chr p st c t :
    rest st = c :: t -> p c = true ->
    matches (Chr p) st (MState (Some c) t (groups st))
| matches_seq r1 r2 st st1 st2 :
    matches r1 st st1 -> matches r2 st1 st2 -> matches (Seq r1 r2) st st2
| matches_alt_l r1 r2 st st' : matches r1 st st' -> matches (Alt r1 r2) st st'
| matches_alt_r r1 r2 st st' : matches r2 st st' -> matches (Alt r1 r2) st st'
| matches_star_done greedy r st : matches (Star greedy r) st st
| matches_star_more greedy r st st1 st2 :
    matches r st st1 -> length (rest st1) < length (rest st) ->
    matches (Star greedy r) st1 st2 -> matches (Star greedy r) st st2
| matches_group n r st st1 :
    matches r st st1 ->
    matches (Group n r) st
      (set_group n (firstn (length (rest st) - length (rest st1)) (rest st)) st1)
| matches_bol ml st : at_bol ml st = true -> matches (Bol ml) st st
| matches_eol ml st : at_eol ml st = true -> matches (Eol ml) st st
| matches_wordb st : at_word_boundary st = true -> matches WordB st st.

(** The ink of a text: its characters other than white space, in order. *)
Definition ink (s : str) : str := filter (fun c => negb (is_space c)) s.

Section BlockVocabulary.

Context {PF : PyFloat} {PL : PyLimits}.

(** The indentation common to the non-blank lines of a block. *)
Definition min_indent (code_text : str) : nat :=
  match py_min (map indent_of (non_empty_lines code_text)) with
  | Ok m => m
  | Raise _ => 0
  end.

(** The block as the formatting loop of language [L] writes it. *)
Definition formatted_block (L : str) (u : option str) (code_text : str) : str :=
  format_lines (content_fix L u) (min_indent code_text) (block_lines code_text).

(** The three tests of the import patch on the formatted block: it names
    [AsyncWebCrawler], it does not import it, and one of its lines begins
    with [import] or [from]. *)
Definition inserts_import (formatted_code : str) : bool :=
  str_in (txt "AsyncWebCrawler") formatted_code
  && negb (str_in (txt "from crawl4ai import AsyncWebCrawler") formatted_code)
  && match search_from re_import_line None formatted_code 0 with
     | Some _ => true
     | None => false
     end.

(** The blocks into which [process_code_block] puts the import line: the
    Python blocks of a crawl4ai page that are formatted and pass the tests
    of the patch. *)
Definition import_added (x L : str) (u : option str) : bool :=
  (5 <=? length x) && has_ink x && str_eqb L (txt "python") && is_crawl4ai u
  && inserts_import (formatted_block L u x).

End BlockVocabulary.

(** A text whose only line boundaries are line feeds. *)
Definition line_feeds_only (s : str) : Prop :=
  Forall (fun c => is_linebreak c = true -> c = LF) s.

(** [url.split('/')[2] if '://' in url else url.split('/')[0]], with the
    empty text where Python would raise. *)
Definition domain_of (url : str) : str :=
  nth (if str_in (txt "://") url then 2 else 0) (split_on "/" url) [].

(** The front matter and the title that [post_process_markdown] puts
    before the page. *)
Definition page_header (timestamp url domain : str) (code_blocks_count : nat) : str :=
  txt "---" ++ [LF]
  ++ txt "url: " ++ url ++ [LF]
  ++ txt "source: gemini" ++ [LF]
  ++ txt "date_processed: " ++ timestamp ++ [LF]
  ++ txt "domain: " ++ domain ++ [LF]
  ++ txt "content_type: documentation" ++ [LF]
  ++ txt "contains_code: "
  ++ (if 0 <? code_blocks_count
      then txt "True" ++ [LF] ++ txt "code_blocks_count: "
           ++ str_of_nat code_blocks_count
      else txt "False") ++ [LF]
  ++ txt "formatter_version: 2.1" ++ [LF]
  ++ txt "---" ++ [LF; LF]
  ++ txt "# " ++ domain ++ [LF; LF]
  ++ txt "> Original URL: [" ++ url ++ txt "](" ++ url ++ txt ")" ++ [LF; LF].

(** The number of occurrences of a character. *)
Definition count_char (c : ascii) (s : str) : nat :=
  length (filter (ascii_eqb c) s).

(** The test [detect_code_language] makes on its hint: given, not blank
    and not [text]. *)
Definition usable_hint (language_hint : option str) : bool :=
  match language_hint with
  | Some h => truthy h && truthy (strip h)
              && negb (str_eqb (lower (strip h)) (txt "text"))
  | None => false
  end.

(** The white space characters. *)
Definition spaces : str :=
  map ascii_of_nat [9; 10; 11; 12; 13; 28; 29; 30; 31; 32; 133; 160].

(** A pattern that may match in a text of white space only: none of its
    characters is bound to be ink. *)
Fixpoint blank_ok (r : regex) : bool :=
  match r with
  | Chr p => existsb p spaces
  | Seq r1 r2 => blank_ok r1 && blank_ok r2
  | Alt r1 r2 => blank_ok r1 || blank_ok r2
  | Group _ r1 => blank_ok r1
  | _ => true
  end.

(** No two characters [c] side by side. *)
Fixpoint no_double (c : ascii) (s : str) : bool :=
  match s with
  | x :: t =>
      negb (ascii_eqb x c && match t with y :: _ => ascii_eqb y c | [] => false end)
      && no_double c t
  | [] => true
  end.

(** The characters [strip] removes at the ends of a file name. *)
Definition end_char (c : ascii) : bool := existsb (ascii_eqb c) (txt "_.").

(** A text that begins with [import] or [from]. *)
Definition import_start (s : str) : bool :=
  startswith (txt "import") s || startswith (txt "from") s.

(** A place at the beginning of a line: the start of the text, or just
    after a line feed. *)
Definition line_start (before : str) : bool :=
  match rev before with
  | [] => true
  | c :: _ => ascii_eqb c LF
  end.

(** * Properties *)

Ltac bind_ok H x r E :=
  match type of H with
  | bind ?m _ = Ok _ =>
      destruct m as [[x r] | ?] eqn:E; [cbn [bind] in H | discriminate H]
  end.

Ltac div_lia := zify; Z.to_euclidean_division_equations; lia.

(** ** Texts *)

Lemma ascii_eqb_eq (a b : ascii) : ascii_eqb a b = true <-> a = b.
Proof. apply Ascii.eqb_eq. Qed.

Lemma str_eqb_eq (a b : str) : str_eqb a b = true <-> a = b.
Proof.
  revert b; induction a as [|x a IH]; intros [|y b]; simpl; split;
    try discriminate; try reflexivity.
  - intros H. apply andb_true_iff in H as [Hx Hab].
    apply ascii_eqb_eq in Hx. apply IH in Hab. congruence.
  - intros H. injection H as -> ->. apply andb_true_iff. split.
    + now apply ascii_eqb_eq.
    + now apply IH.
Qed.

Lemma str_eqb_neq (a b : str) : a <> b -> str_eqb a b = false.
Proof.
  intros H. destruct (str_eqb a b) eqn:E; [|reflexivity].
  apply str_eqb_eq in E. contradiction.
Qed.

Lemma truthy_nonempty (a : str) : a <> [] -> truthy a = true.
Proof. destruct a; [contradiction | reflexivity]. Qed.

(** ** detect_code_language *)

(** C3. An explicit hint wins: when the hint is non-empty after trimming
    and is not [text] in any letter case, the detector returns the hint,
    trimmed and lower-cased, whatever the block and the url are. *)
Theorem detect_hint_precedence (x hint : str) (u : option str) :
  strip hint <> [] ->
  lower (strip hint) <> txt "text" ->
  detect_code_language x (Some hint) u = lower (strip hint).
Proof.
  intros Hne Hnt. unfold detect_code_language.
  assert (Hh : truthy hint = true).
  { apply truthy_nonempty. intros ->. now apply Hne. }
  rewrite Hh, (truthy_nonempty _ Hne), (str_eqb_neq _ _ Hnt). reflexivity.
Qed.

Lemma detect_hint_precedence_rust :
  strip (txt "rust") <> [] /\ lower (strip (txt "rust")) <> txt "text" /\
  detect_code_language (text_of_lines ["import os"; "def main():"]%string)
                       (Some (txt "rust")) (Some (txt "https://docs.crawl4ai.com/"))
  = txt "rust".
Proof.
  assert (H1 : strip (txt "rust") <> []) by (vm_compute; discriminate).
  assert (H2 : lower (strip (txt "rust")) <> txt "text") by (vm_compute; discriminate).
  split; [exact H1 | split; [exact H2 |]].
  exact (detect_hint_precedence
           (text_of_lines ["import os"; "def main():"]%string) (txt "rust")
           (Some (txt "https://docs.crawl4ai.com/")) H1 H2).
Defined.

(** ** The matcher on literal words *)

Lemma startswith_app (p s : str) :
  startswith p s = true -> exists t, s = p ++ t.
Proof.
  revert s; induction p as [|x p IH]; intros s H.
  - now exists s.
  - destruct s as [|y s]; [discriminate|]. simpl in H.
    apply andb_true_iff in H as [Hx Hp]. apply ascii_eqb_eq in Hx. subst y.
    destruct (IH _ Hp) as [t ->]. now exists t.
Qed.

Lemma str_in_split (needle hay : str) :
  str_in needle hay = true -> exists pre post, hay = pre ++ needle ++ post.
Proof.
  induction hay as [|c hay IH]; simpl; intros H.
  - apply orb_true_iff in H as [H|H]; [|discriminate].
    apply startswith_app in H as [t ->]. now exists [], t.
  - apply orb_true_iff in H as [H|H].
    + apply startswith_app in H as [t ->]. now exists [], t.
    + destruct (IH H) as (pre & post & ->). now exists (c :: pre), post.
Qed.

Lemma rmatch_seqs_cons {A} (r : regex) (rs : list regex) (st : mstate)
      (k : mstate -> option A) :
  rmatch (seqs (r :: rs)) st k = rmatch r st (fun st' => rmatch (seqs rs) st' k).
Proof. destruct rs; reflexivity. Qed.

(** A literal word matches exactly when the text continues with it, and
    hands the rest of the text to the continuation. *)
Lemma rmatch_word {A} (w s : str) (p : option ascii) (g : list (nat * str))
      (k : mstate -> option A) :
  rmatch (seqs (map chr w)) (MState p (w ++ s) g) k
  = k (MState (prev_after w p) s g).
Proof.
  revert p; induction w as [|c w IH]; intros p.
  - reflexivity.
  - change (map chr (c :: w)) with (chr c :: map chr w).
    rewrite rmatch_seqs_cons. simpl.
    unfold ascii_eqb. rewrite Ascii.eqb_refl. apply IH.
Qed.

Lemma search_from_found (r : regex) (pre s : str) (p : option ascii) (i : nat) :
  (forall q, match_at r q s <> None) ->
  search_from r p (pre ++ s) i <> None.
Proof.
  intros Hm. revert p i; induction pre as [|c pre IH]; intros p i.
  - simpl. destruct s; simpl; specialize (Hm p);
      destruct (match_at r p _); congruence.
  - simpl. destruct (match_at r p (c :: pre ++ s)); [discriminate|]. apply IH.
Qed.

(** A pattern whose first alternative is a literal word is found in every
    text that contains the word. *)
Lemma re_search_word_alternative (w : string) (r : regex) (x : str) :
  str_in (txt w) x = true -> re_search (Alt (lit w) r) x = true.
Proof.
  intros H. apply str_in_split in H as (pre & post & ->).
  unfold re_search.
  destruct (search_from (Alt (lit w) r) None (pre ++ txt w ++ post) 0) eqn:E;
    [reflexivity|].
  exfalso. revert E. apply search_from_found. intros q.
  unfold match_at. simpl. unfold lit. rewrite rmatch_word. discriminate.
Qed.

Lemma str_in_nonempty (d u : str) : d <> [] -> str_in d u = true -> truthy u = true.
Proof.
  intros Hd H. destruct u; [|reflexivity].
  destruct d; [contradiction | discriminate].
Qed.

(** C10. With no hint, a block that contains the characters [import]
    anywhere (also inside a longer identifier) on a url that contains one
    of the listed domains is classified as python by the url-context rule,
    before any of the language patterns is tried. *)
Theorem detect_url_context_substring (x u : str) (hint : option str) :
  hint = None \/ hint = Some [] ->
  str_in (txt "import") x = true ->
  (str_in (txt "crawl4ai.com") u = true \/ str_in (txt "pydantic.dev") u = true
   \/ str_in (txt "github.io/langgraph") u = true) ->
  detect_code_language x hint (Some u) = txt "python".
Proof.
  intros Hh Hx Hu. unfold detect_code_language.
  assert (Hgiven : match hint with
                   | Some h => truthy h && truthy (strip h)
                               && negb (str_eqb (lower (strip h)) (txt "text"))
                   | None => false
                   end = false) by (destruct Hh as [-> | ->]; reflexivity).
  rewrite Hgiven.
  assert (Ht : truthy u = true).
  { destruct Hu as [H | [H | H]];
      (eapply str_in_nonempty; [| exact H]); discriminate. }
  assert (Hd : existsb (fun domain => str_in domain u) context_domains = true).
  { unfold context_domains. cbn [existsb].
    destruct Hu as [-> | [-> | ->]]; rewrite ?orb_true_r; reflexivity. }
  rewrite Ht, Hd.
  assert (Hs : re_search re_url_context x = true)
    by (apply (re_search_word_alternative "import"); exact Hx).
  rewrite Hs. reflexivity.
Qed.

Lemma detect_url_context_substring_importantVar :
  (@None str = None \/ @None str = Some []) /\
  str_in (txt "import") (txt "const importantVar = 1") = true /\
  detect_code_language (txt "const importantVar = 1") None
                       (Some (txt "https://docs.crawl4ai.com/core"))
  = txt "python" /\
  detect_code_language (txt "const importantVar = 1") None None = txt "javascript".
Proof.
  assert (H1 : str_in (txt "import") (txt "const importantVar = 1") = true)
    by reflexivity.
  split; [now left | split; [exact H1 | split]].
  - apply (detect_url_context_substring
             (txt "const importantVar = 1") (txt "https://docs.crawl4ai.com/core")
             None (or_introl eq_refl) H1).
    left. reflexivity.
  - vm_compute. reflexivity.
Defined.

(** ** process_code_block on concrete blocks *)

Section FormatterExamples.

Context {PF : PyFloat} {PL : PyLimits}.

(** Scenario 5 of the specification: the missing space after [return] is
    inserted. *)
Example return1_gets_its_space :
  process_code_block (text_of_lines ["def foo():"; "    return1"]%string) python None
  = Ok (text_of_lines ["def foo():"; "    return 1"]%string, python).
Proof. vm_compute. reflexivity. Qed.

(** With an import line present, the crawl4ai import is put before it. *)
Example import_inserted_before_first_import :
  process_code_block (text_of_lines ["import os"; "AsyncWebCrawler()"]%string)
                     python crawl4ai_docs
  = Ok (text_of_lines ["from crawl4ai import AsyncWebCrawler, CrawlerRunConfig";
                       "import os"; "AsyncWebCrawler()"]%string, python).
Proof. vm_compute. reflexivity. Qed.

(** C2. Reformatting is not idempotent in the code: the assignment rule
    [([^=!<>])=([^=])] also matches an [=] that already has a space on each
    side, so every pass widens [x = 1] by two more spaces; the same rule is
    used for the JavaScript family. *)
Theorem reformat_widens_spaced_assignment :
  process_code_block (txt "x = 1") python None = Ok (txt "x  =  1", python)
  /\ process_code_block (txt "x  =  1") python None = Ok (txt "x   =   1", python)
  /\ process_code_block (txt "x = 1") (txt "javascript") None
     = Ok (txt "x  =  1", txt "javascript").
Proof. repeat split; vm_compute; reflexivity. Qed.

(** C7. With no line that starts with [import] or [from], the code inserts
    no import line at all: the block comes back as it was, although it
    names [AsyncWebCrawler], the url is a crawl4ai one and the import is
    missing. *)
Theorem import_not_added_without_import_line :
  is_crawl4ai crawl4ai_docs = true
  /\ str_in (txt "AsyncWebCrawler") (txt "AsyncWebCrawler()") = true
  /\ process_code_block (txt "AsyncWebCrawler()") python crawl4ai_docs
     = Ok (txt "AsyncWebCrawler()", python).
Proof. repeat split; vm_compute; reflexivity. Qed.

(** C8. The keyword rules have no word boundary in front of the keyword:
    [in(\w+)] fires inside the identifier [print] and [import(\w+)] inside
    [important]. *)
Theorem keyword_fix_splits_identifiers :
  process_code_block (txt "print(x)") python None = Ok (txt "prin t(x)", python)
  /\ fold_left fix_keyword python_keywords (txt "important") = txt "import ant".
Proof. repeat split; vm_compute; reflexivity. Qed.

(** C5. The assembler never calls the detector: a fence without a hint is
    processed as [text] and written back as [text], while the detector
    classifies the same block as python. *)
Theorem assembler_leaves_unhinted_fence_as_text (timestamp : str) :
  let markdown := text_of_lines ["```"; "import os"; "```"]%string in
  let url := txt "https://example.com/page" in
  process_code_blocks markdown url
  = Ok (text_of_lines ["```text"; "import os"; "```"]%string)
  /\ (exists front,
        post_process_markdown timestamp markdown url
        = Ok (front ++ text_of_lines ["```text"; "import os"; "```"]%string))
  /\ detect_code_language (txt "import os") (Some []) (Some url) = python.
Proof.
  intros markdown url.
  assert (Hp : process_code_blocks markdown url
               = Ok (text_of_lines ["```text"; "import os"; "```"]%string))
    by (vm_compute; reflexivity).
  split; [exact Hp | split].
  - unfold post_process_markdown. rewrite Hp. cbn [bind].
    replace (if str_in (txt "://") url then py_index (split_on "/" url) 2
             else py_index (split_on "/" url) 0)
      with (Ok (txt "example.com")) by (vm_compute; reflexivity).
    cbn [bind]. eexists. rewrite app_assoc. reflexivity.
  - vm_compute. reflexivity.
Qed.

End FormatterExamples.

(** ** The paths of process_code_block *)

Section FormatterPaths.

Context {PF : PyFloat} {PL : PyLimits}.

Lemma existsb_true_nonempty {A} (l : list A) :
  existsb (fun _ => true) l = match l with [] => false | _ :: _ => true end.
Proof. destruct l; reflexivity. Qed.

Lemma filter_nonempty_source {A} (f : A -> bool) (l : list A) :
  filter f l <> [] -> l <> [].
Proof. destruct l; [simpl; congruence | discriminate]. Qed.

(** The two early exits: a short text, or a text without a non-blank
    line, comes back unchanged. *)
Lemma process_code_block_unchanged (x L : str) (u : option str) :
  length x < 5 \/ non_empty_lines x = [] ->
  process_code_block x L u = Ok (x, L).
Proof.
  intros H. unfold process_code_block.
  destruct (Nat.ltb_spec (length x) 5) as [Hlt | Hge]; [reflexivity|].
  destruct H as [H | H]; [lia|].
  fold (block_lines x). rewrite existsb_true_nonempty.
  destruct (block_lines x) eqn:Eb; [reflexivity|]. cbn [negb].
  rewrite <- Eb. fold (non_empty_lines x). rewrite H. reflexivity.
Qed.

Lemma reserialized_raise (x : str) (e : exn) :
  json_loads x = Raise e -> reserialized x = None.
Proof. unfold reserialized. now intros ->. Qed.

Lemma reserialized_dumps_raise (x : str) (v : json) (e : exn) :
  json_loads x = Ok v -> json_dumps v = Raise e -> reserialized x = None.
Proof. unfold reserialized. now intros -> ->. Qed.

(** The [try] statement of the JSON branch. *)
Lemma try_json (x L : str) :
  try_except
    (if str_eqb L (txt "json")
     then parsed <- json_loads x ;; out <- json_dumps parsed ;; Ok (Some (out, L))
     else Ok None)
    (Ok None)
  = Ok (if str_eqb L (txt "json")
        then match reserialized x with Some t => Some (t, L) | None => None end
        else None).
Proof.
  unfold reserialized. destruct (str_eqb L (txt "json")); [|reflexivity].
  destruct (json_loads x) as [v|e]; [|reflexivity]. cbn [bind].
  destruct (json_dumps v); reflexivity.
Qed.

(** The indentation-only path: taken by every language outside the Python
    and JavaScript families, and by [json] when the block is not
    re-serialized. *)
Lemma process_code_block_indentation_only (x L : str) (u : option str) :
  L <> txt "python" ->
  existsb (str_eqb L) [txt "javascript"; txt "typescript"; txt "jsx"; txt "tsx"]
  = false ->
  (L = txt "json" -> reserialized x = None) ->
  process_code_block x L u
  = Ok (if length x <? 5 then x else indentation_only x, L).
Proof.
  intros Hpy Hjs Hjson. unfold process_code_block, indentation_only.
  destruct (length x <? 5); [reflexivity|].
  fold (block_lines x). rewrite existsb_true_nonempty.
  destruct (block_lines x) eqn:Eb.
  { unfold non_empty_lines. rewrite Eb. reflexivity. }
  cbn [negb]. rewrite <- Eb. clear Eb. fold (non_empty_lines x).
  rewrite existsb_true_nonempty.
  destruct (non_empty_lines x) as [|l0 ls0] eqn:En; [reflexivity|].
  cbn [negb map py_min bind].
  rewrite (str_eqb_neq _ _ Hpy), Hjs.
  destruct (existsb (str_eqb L) [txt "json"; txt "yaml"]); [|reflexivity].
  rewrite try_json. cbn [bind].
  destruct (str_eqb L (txt "json")) eqn:Ej; [|reflexivity].
  apply str_eqb_eq in Ej. now rewrite (Hjson Ej).
Qed.

Lemma process_code_block_plain (x L : str) (u : option str) :
  L <> txt "python" ->
  existsb (str_eqb L) [txt "javascript"; txt "typescript"; txt "jsx"; txt "tsx"]
  = false ->
  (L = txt "json" -> exists e, json_loads x = Raise e) ->
  process_code_block x L u
  = Ok (if length x <? 5 then x else indentation_only x, L).
Proof.
  intros Hpy Hjs Hjson. apply process_code_block_indentation_only; try assumption.
  intros Ej. destruct (Hjson Ej) as [e He]. now apply (reserialized_raise x e).
Qed.

(** C6, as the code has it.  The length test is on the text as given, not
    on the trimmed text: a text of fewer than five characters comes back
    unchanged with the given language. *)
Theorem short_text_passthrough (x L : str) (u : option str) :
  length x < 5 -> process_code_block x L u = Ok (x, L).
Proof. intros H. apply process_code_block_unchanged. now left. Qed.

(** C9, as the code has it.  [process_code_block] never raises and returns
    the language it was given; the errors that can occur inside it, in the
    JSON parse or in the writing of the parsed document, are caught and
    lead to the indentation-only text of the block. *)
Theorem process_code_block_total (x L : str) (u : option str) :
  (exists t, process_code_block x L u = Ok (t, L))
  /\ (forall e, L = txt "json" -> json_loads x = Raise e ->
      process_code_block x L u
      = Ok (if length x <? 5 then x else indentation_only x, L))
  /\ (forall v e, L = txt "json" -> json_loads x = Ok v -> json_dumps v = Raise e ->
      process_code_block x L u
      = Ok (if length x <? 5 then x else indentation_only x, L)).
Proof.
  split; [|split].
  - unfold process_code_block.
    destruct (length x <? 5); [now eexists|].
    destruct (negb (existsb _ (drop_blank_tail _))); [now eexists|].
    rewrite existsb_true_nonempty.
    destruct (filter _ _) as [|l0 ls0]; [now eexists|].
    cbn [negb map py_min bind].
    destruct (str_eqb L (txt "python")) eqn:Ep.
    { apply str_eqb_eq in Ep. subst L. now eexists. }
    destruct (existsb (str_eqb L)
                [txt "javascript"; txt "typescript"; txt "jsx"; txt "tsx"]);
      [now eexists|].
    destruct (existsb (str_eqb L) [txt "json"; txt "yaml"]); [|now eexists].
    rewrite try_json. cbn [bind].
    destruct (str_eqb L (txt "json")); [|now eexists].
    destruct (reserialized x); now eexists.
  - intros e -> He. apply process_code_block_plain.
    + discriminate.
    + reflexivity.
    + intros _. eauto.
  - intros v e -> Hv He. apply process_code_block_indentation_only.
    + discriminate.
    + reflexivity.
    + intros _. now apply (reserialized_dumps_raise x v e).
Qed.

End FormatterPaths.

(** C6 as stated fails: the trimmed text [x=1] has three characters, yet
    the block is reformatted, because the text as given has five. *)
Lemma trimmed_short_text_is_reformatted :
  length (strip (txt " x=1 ")) < 5
  /\ @process_code_block literal_floats example_limits (txt " x=1 ") (txt "text") None
     = Ok (txt "x=1 ", txt "text")
  /\ txt "x=1 " <> txt " x=1 ".
Proof. repeat split; [vm_compute; lia | discriminate]. Qed.

Lemma short_text_passthrough_x_eq_1 :
  length (txt "x=1") < 5
  /\ @process_code_block literal_floats example_limits (txt "x=1") python None
     = Ok (txt "x=1", python).
Proof.
  assert (H : length (txt "x=1") < 5) by (vm_compute; lia).
  split; [exact H|]. exact (short_text_passthrough (txt "x=1") python None H).
Defined.

(** C9 as stated fails on its last clause: the JSON parse of this block
    raises inside the function, and the text that comes back is the
    re-indented block, not the original text. *)
Lemma json_failure_is_not_identity :
  @json_loads literal_floats example_limits (txt "  {oops") = Raise JSONDecodeError
  /\ @process_code_block literal_floats example_limits (txt "  {oops") (txt "json") None
     = Ok (txt "{oops", txt "json")
  /\ txt "{oops" <> txt "  {oops".
Proof. repeat split; discriminate. Qed.

(** ** Lines and blank lines *)

Lemma linebreak_is_space (c : ascii) : is_linebreak c = true -> is_space c = true.
Proof.
  destruct c as [[] [] [] [] [] [] [] []]; vm_compute; intros H;
    first [reflexivity | discriminate H].
Qed.

Lemma has_ink_app (a b : str) : has_ink (a ++ b) = has_ink a || has_ink b.
Proof. apply existsb_app. Qed.

Lemma has_ink_rev (s : str) : has_ink (rev s) = has_ink s.
Proof.
  induction s as [|c s IH]; [reflexivity|].
  simpl rev. rewrite has_ink_app, IH. simpl.
  rewrite orb_false_r. apply orb_comm.
Qed.

Lemma truthy_lstrip (s : str) : truthy (lstrip s) = has_ink s.
Proof.
  induction s as [|c s IH]; [reflexivity|].
  simpl. destruct (is_space c); [exact IH | reflexivity].
Qed.

Lemma has_ink_lstrip (s : str) : has_ink (lstrip s) = has_ink s.
Proof.
  induction s as [|c s IH]; [reflexivity|].
  simpl lstrip. destruct (is_space c) eqn:E; [|reflexivity].
  rewrite IH. simpl. now rewrite E.
Qed.

Lemma truthy_rev (s : str) : truthy (rev s) = truthy s.
Proof.
  destruct s as [|c s]; [reflexivity|].
  simpl. destruct (rev s); reflexivity.
Qed.

(** A line is non-blank exactly when it has ink. *)
Lemma truthy_strip (s : str) : truthy (strip s) = has_ink s.
Proof.
  unfold strip, rstrip.
  now rewrite truthy_rev, truthy_lstrip, has_ink_rev, has_ink_lstrip.
Qed.

Lemma one_line_lstrip (s : str) : one_line s -> one_line (lstrip s).
Proof.
  induction 1 as [|c s Hc Hs IH]; [constructor|].
  simpl. destruct (is_space c); [exact IH | now constructor].
Qed.

Lemma splitlines_cons_plain (c : ascii) (t : str) :
  is_linebreak c = false ->
  splitlines (c :: t)
  = match splitlines t with [] => [[c]] | l :: ls => (c :: l) :: ls end.
Proof. intros H. simpl. now rewrite H. Qed.

(** Every line of [splitlines] is free of line boundaries. *)
Lemma splitlines_one_line (x : str) : Forall one_line (splitlines x).
Proof.
  remember (length x) as n eqn:En.
  assert (Hn : length x <= n) by lia. clear En.
  revert x Hn; induction n as [|n IH]; intros x Hn.
  - destruct x; [constructor | simpl in Hn; lia].
  - destruct x as [|c t]; [constructor|]. simpl in Hn.
    simpl. destruct (is_linebreak c) eqn:Ec.
    + constructor; [constructor|].
      destruct t as [|d t']; [constructor|].
      destruct (ascii_eqb c CR && ascii_eqb d LF); apply IH; simpl in *; lia.
    + assert (Ht : Forall one_line (splitlines t)) by (apply IH; lia).
      destruct (splitlines t) as [|l ls]; repeat constructor; try assumption.
      * now inversion Ht.
      * now inversion Ht.
Qed.

(** A line followed by a line feed is split off as it is. *)
Lemma splitlines_line_feed (l r : str) :
  one_line l -> splitlines (l ++ LF :: r) = l :: splitlines r.
Proof.
  induction 1 as [|c l Hc Hl IH].
  - simpl. destruct r; reflexivity.
  - simpl app. rewrite splitlines_cons_plain by assumption. now rewrite IH.
Qed.

Lemma splitlines_single (l : str) :
  one_line l -> splitlines l = match l with [] => [] | _ :: _ => [l] end.
Proof.
  induction 1 as [|c l Hc Hl IH]; [reflexivity|].
  rewrite splitlines_cons_plain by assumption. rewrite IH.
  destruct l; reflexivity.
Qed.

Lemma filter_cons_eq {A} (f : A -> bool) (a : A) (l1 l2 : list A) :
  filter f l1 = filter f l2 -> filter f (a :: l1) = filter f (a :: l2).
Proof. simpl. now intros ->. Qed.

(** Joining lines with line feeds and splitting again gives back the same
    non-blank lines. *)
Lemma nonblank_lines_of_join (ls : list str) :
  Forall one_line ls ->
  filter (fun line => truthy (strip line)) (splitlines (join [LF] ls))
  = filter (fun line => truthy (strip line)) ls.
Proof.
  induction 1 as [|l ls Hl Hls IH]; [reflexivity|].
  destruct ls as [|l' ls'].
  - simpl join. rewrite splitlines_single by assumption.
    destruct l; reflexivity.
  - change (join [LF] (l :: l' :: ls')) with (l ++ LF :: join [LF] (l' :: ls')).
    rewrite splitlines_line_feed by assumption.
    apply filter_cons_eq, IH.
Qed.

Lemma filter_drop_blank_head (ls : list str) :
  filter (fun line => truthy (strip line)) (drop_blank_head ls)
  = filter (fun line => truthy (strip line)) ls.
Proof.
  induction ls as [|l ls IH]; [reflexivity|].
  simpl. destruct (truthy (strip l)) eqn:E; simpl; [now rewrite E | exact IH].
Qed.

Lemma filter_rev {A} (f : A -> bool) (l : list A) :
  filter f (rev l) = rev (filter f l).
Proof.
  induction l as [|a l IH]; [reflexivity|].
  simpl. rewrite filter_app, IH. simpl.
  destruct (f a); simpl; [reflexivity | now rewrite app_nil_r].
Qed.

(** Dropping blank lines at both ends keeps the non-blank lines. *)
Lemma filter_block_lines (x : str) :
  non_empty_lines x = filter (fun line => truthy (strip line)) (splitlines x).
Proof.
  unfold non_empty_lines, block_lines, drop_blank_tail.
  rewrite filter_rev, filter_drop_blank_head, filter_rev, rev_involutive.
  apply filter_drop_blank_head.
Qed.

Lemma Forall_drop_blank_head {P : str -> Prop} (ls : list str) :
  Forall P ls -> Forall P (drop_blank_head ls).
Proof.
  induction 1 as [|l ls Hl Hls IH]; [constructor|].
  simpl. destruct (negb (truthy (strip l))); [exact IH | now constructor].
Qed.

Lemma block_lines_one_line (x : str) : Forall one_line (block_lines x).
Proof.
  unfold block_lines, drop_blank_tail.
  apply Forall_rev, Forall_drop_blank_head, Forall_rev, Forall_drop_blank_head.
  apply splitlines_one_line.
Qed.

(** ** The loops of the matcher always have fuel

    The fuel of [sub_loop], [sub_loop_call], [count_loop] and [star_loop]
    only makes their recursion structural: the amount their callers give
    is never used up, and any larger amount gives the same result. *)

Lemma sub_loop_more_fuel (r : regex) (repl : mstate -> str) (fuel : nat) :
  forall (p : option ascii) (s : str),
    length s < fuel -> sub_loop (S fuel) r repl p s = sub_loop fuel r repl p s.
Proof.
  induction fuel as [|fuel IH]; intros p s Hf; [lia|].
  change (sub_loop (S (S fuel)) r repl p s)
    with (match match_at r p s with
          | Some st =>
              repl st ++
              match length s - length (rest st) with
              | 0 => match s with
                     | [] => []
                     | c :: t => c :: sub_loop (S fuel) r repl (Some c) t
                     end
              | S _ => sub_loop (S fuel) r repl (prev st) (rest st)
              end
          | None =>
              match s with
              | [] => []
              | c :: t => c :: sub_loop (S fuel) r repl (Some c) t
              end
          end).
  change (sub_loop (S fuel) r repl p s)
    with (match match_at r p s with
          | Some st =>
              repl st ++
              match length s - length (rest st) with
              | 0 => match s with
                     | [] => []
                     | c :: t => c :: sub_loop fuel r repl (Some c) t
                     end
              | S _ => sub_loop fuel r repl (prev st) (rest st)
              end
          | None =>
              match s with
              | [] => []
              | c :: t => c :: sub_loop fuel r repl (Some c) t
              end
          end).
  assert (Hstep : match s with
                  | [] => []
                  | c :: t => c :: sub_loop (S fuel) r repl (Some c) t
                  end
                  = match s with
                    | [] => []
                    | c :: t => c :: sub_loop fuel r repl (Some c) t
                    end).
  { destruct s as [|c t]; [reflexivity|]. rewrite IH; [reflexivity|].
    simpl in Hf. lia. }
  destruct (match_at r p s) as [st|]; [|exact Hstep]. f_equal.
  destruct (length s - length (rest st)) eqn:En; [exact Hstep|].
  apply IH. lia.
Qed.

(** [re_sub] gives the result of its loop with any larger fuel. *)
Lemma re_sub_any_fuel (r : regex) (tpl : list titem) (s : str) (n : nat) :
  re_sub r tpl s = sub_loop (n + S (length s)) r (expand tpl) None s.
Proof.
  unfold re_sub. induction n as [|n IH]; [reflexivity|].
  cbn [Nat.add].
  rewrite (sub_loop_more_fuel r (expand tpl) (n + S (length s))); [exact IH | lia].
Qed.

Lemma sub_loop_call_more_fuel (r : regex) (f : mstate -> result str) (fuel : nat) :
  forall (p : option ascii) (s : str),
    length s < fuel ->
    sub_loop_call (S fuel) r f p s = sub_loop_call fuel r f p s.
Proof.
  induction fuel as [|fuel IH]; intros p s Hf; [lia|].
  change (sub_loop_call (S (S fuel)) r f p s)
    with (let step :=
            match s with
            | [] => Ok []
            | c :: t => out <- sub_loop_call (S fuel) r f (Some c) t ;; Ok (c :: out)
            end in
          match match_at r p s with
          | Some st =>
              new <- f st ;;
              out <- match length s - length (rest st) with
                     | 0 => step
                     | S _ => sub_loop_call (S fuel) r f (prev st) (rest st)
                     end ;;
              Ok (new ++ out)
          | None => step
          end).
  change (sub_loop_call (S fuel) r f p s)
    with (let step :=
            match s with
            | [] => Ok []
            | c :: t => out <- sub_loop_call fuel r f (Some c) t ;; Ok (c :: out)
            end in
          match match_at r p s with
          | Some st =>
              new <- f st ;;
              out <- match length s - length (rest st) with
                     | 0 => step
                     | S _ => sub_loop_call fuel r f (prev st) (rest st)
                     end ;;
              Ok (new ++ out)
          | None => step
          end).
  cbv zeta.
  assert (Hstep : match s with
                  | [] => Ok []
                  | c :: t =>
                      out <- sub_loop_call (S fuel) r f (Some c) t ;; Ok (c :: out)
                  end
                  = match s with
                    | [] => Ok []
                    | c :: t =>
                        out <- sub_loop_call fuel r f (Some c) t ;; Ok (c :: out)
                    end).
  { destruct s as [|c t]; [reflexivity|]. rewrite IH; [reflexivity|].
    simpl in Hf. lia. }
  destruct (match_at r p s) as [st|]; [|exact Hstep].
  destruct (f st) as [new|e]; [cbn [bind] | reflexivity].
  destruct (length s - length (rest st)) eqn:En; [now rewrite Hstep|].
  rewrite IH; [reflexivity | lia].
Qed.

(** [re_sub_call] gives the result of its loop with any larger fuel. *)
Lemma re_sub_call_any_fuel (r : regex) (f : mstate -> result str) (s : str) (n : nat) :
  re_sub_call r f s = sub_loop_call (n + S (length s)) r f None s.
Proof.
  unfold re_sub_call. induction n as [|n IH]; [reflexivity|].
  cbn [Nat.add].
  rewrite (sub_loop_call_more_fuel r f (n + S (length s))); [exact IH | lia].
Qed.

Lemma count_loop_more_fuel (r : regex) (fuel : nat) :
  forall (p : option ascii) (s : str),
    length s < fuel -> count_loop (S fuel) r p s = count_loop fuel r p s.
Proof.
  induction fuel as [|fuel IH]; intros p s Hf; [lia|].
  change (count_loop (S (S fuel)) r p s)
    with (let step :=
            match s with
            | [] => 0
            | c :: t => count_loop (S fuel) r (Some c) t
            end in
          match match_at r p s with
          | Some st =>
              S match length s - length (rest st) with
                | 0 => step
                | S _ => count_loop (S fuel) r (prev st) (rest st)
                end
          | None => step
          end).
  change (count_loop (S fuel) r p s)
    with (let step :=
            match s with
            | [] => 0
            | c :: t => count_loop fuel r (Some c) t
            end in
          match match_at r p s with
          | Some st =>
              S match length s - length (rest st) with
                | 0 => step
                | S _ => count_loop fuel r (prev st) (rest st)
                end
          | None => step
          end).
  cbv zeta.
  assert (Hstep : match s with
                  | [] => 0
                  | c :: t => count_loop (S fuel) r (Some c) t
                  end
                  = match s with
                    | [] => 0
                    | c :: t => count_loop fuel r (Some c) t
                    end).
  { destruct s as [|c t]; [reflexivity|]. apply IH. simpl in Hf. lia. }
  destruct (match_at r p s) as [st|]; [|exact Hstep]. f_equal.
  destruct (length s - length (rest st)) eqn:En; [exact Hstep|].
  apply IH. lia.
Qed.

(** [re_findall_count] gives the result of its loop with any larger fuel. *)
Lemma re_findall_count_any_fuel (r : regex) (s : str) (n : nat) :
  re_findall_count r s = count_loop (n + S (length s)) r None s.
Proof.
  unfold re_findall_count. induction n as [|n IH]; [reflexivity|].
  cbn [Nat.add].
  rewrite (count_loop_more_fuel r (n + S (length s))); [exact IH | lia].
Qed.

(** A repetition step, unfolded. *)
Lemma star_loop_step {A} (body : mstate -> (mstate -> option A) -> option A)
      (greedy : bool) (k : mstate -> option A) (fuel : nat) (st : mstate) :
  star_loop body greedy k (S fuel) st
  = let again :=
      body st (fun st' =>
        if length (rest st') <? length (rest st)
        then star_loop body greedy k fuel st' else None) in
    if greedy then or_else again (k st) else or_else (k st) again.
Proof. reflexivity. Qed.

(** The matcher calls its continuation on states no further from the end
    of the text, and its result depends on the continuation there only. *)
Lemma rmatch_ext {A} (r : regex) :
  forall (st : mstate) (k k' : mstate -> option A),
    (forall st', length (rest st') <= length (rest st) -> k st' = k' st') ->
    rmatch r st k = rmatch r st k'.
Proof.
  induction r as [|p|r1 IH1 r2 IH2|r1 IH1 r2 IH2|g r1 IH1|n r1 IH1|ml|ml|];
    intros st k k' Hk; cbn [rmatch].
  - apply Hk. lia.
  - destruct (rest st) as [|c t] eqn:E; [reflexivity|].
    destruct (p c); [|reflexivity]. apply Hk. simpl. lia.
  - apply IH1. intros st' H1. apply IH2. intros st'' H2. apply Hk. lia.
  - rewrite (IH1 st k k' Hk), (IH2 st k k' Hk). reflexivity.
  - generalize (length (rest st)). intros fuel.
    revert st Hk. induction fuel as [|fuel IHf]; intros st Hk.
    + cbn [star_loop]. rewrite (Hk st) by lia. reflexivity.
    + rewrite !star_loop_step. cbv zeta. rewrite (Hk st) by lia.
      replace (rmatch r1 st
                 (fun st' => if length (rest st') <? length (rest st)
                             then star_loop (rmatch r1) g k fuel st' else None))
        with (rmatch r1 st
                (fun st' => if length (rest st') <? length (rest st)
                            then star_loop (rmatch r1) g k' fuel st' else None));
        [reflexivity|].
      apply IH1. intros st' H1.
      destruct (length (rest st') <? length (rest st)); [|reflexivity].
      symmetry. apply IHf. intros st'' H2. apply Hk. lia.
  - apply IH1. intros st' H1. unfold set_group. apply Hk. simpl. lia.
  - destruct (at_bol ml st); [apply Hk; lia | reflexivity].
  - destruct (at_eol ml st); [apply Hk; lia | reflexivity].
  - destruct (at_word_boundary st); [apply Hk; lia | reflexivity].
Qed.

(** A match is a value of the continuation. *)
Lemma rmatch_none {A} (r : regex) :
  forall (st : mstate) (k : mstate -> option A),
    (forall st', k st' = None) -> rmatch r st k = None.
Proof.
  induction r as [|p|r1 IH1 r2 IH2|r1 IH1 r2 IH2|g r1 IH1|n r1 IH1|ml|ml|];
    intros st k Hk; cbn [rmatch]; auto.
  - destruct (rest st) as [|c t]; [reflexivity|]. destruct (p c); auto.
  - now rewrite IH1, IH2.
  - generalize (length (rest st)). intros fuel. revert st.
    induction fuel as [|fuel IHf]; intros st.
    + cbn [star_loop]. rewrite Hk. now destruct g.
    + rewrite star_loop_step. cbv zeta. rewrite Hk, IH1; [now destruct g|].
      intros st'. destruct (length (rest st') <? length (rest st)); auto.
  - destruct (at_bol ml st); auto.
  - destruct (at_eol ml st); auto.
  - destruct (at_word_boundary st); auto.
Qed.

Lemma star_loop_more_fuel {A} (r : regex) (greedy : bool) (k : mstate -> option A)
      (fuel : nat) :
  forall st : mstate,
    length (rest st) <= fuel ->
    star_loop (rmatch r) greedy k (S fuel) st = star_loop (rmatch r) greedy k fuel st.
Proof.
  induction fuel as [|fuel IH]; intros st Hf.
  - rewrite star_loop_step. cbn [star_loop]. cbv zeta.
    rewrite rmatch_none; [reflexivity|].
    intros st'. replace (length (rest st)) with 0 by lia.
    now destruct (length (rest st')).
  - rewrite (star_loop_step (rmatch r) greedy k (S fuel)).
    rewrite (star_loop_step (rmatch r) greedy k fuel). cbv zeta.
    replace (rmatch r st
               (fun st' => if length (rest st') <? length (rest st)
                           then star_loop (rmatch r) greedy k (S fuel) st'
                           else None))
      with (rmatch r st
              (fun st' => if length (rest st') <? length (rest st)
                          then star_loop (rmatch r) greedy k fuel st' else None));
      [reflexivity|].
    apply rmatch_ext. intros st' H1.
    destruct (length (rest st') <? length (rest st)) eqn:E; [|reflexivity].
    apply Nat.ltb_lt in E. symmetry. apply IH. lia.
Qed.

(** A repetition gives the result of its loop with any larger fuel. *)
Lemma rmatch_star_any_fuel {A} (greedy : bool) (r : regex) (st : mstate)
      (k : mstate -> option A) (n : nat) :
  rmatch (Star greedy r) st k
  = star_loop (rmatch r) greedy k (n + length (rest st)) st.
Proof.
  cbn [rmatch]. induction n as [|n IH]; [reflexivity|].
  cbn [Nat.add].
  rewrite (star_loop_more_fuel r greedy k (n + length (rest st))); [exact IH | lia].
Qed.

(** ** What a match can hold

    Every character of the text after a match, and of every captured
    group, is a character of the text before it. *)

Section MatcherInvariant.

Variable Q : ascii -> Prop.

Lemma Forall_prefix {A} (P : A -> Prop) (n : nat) (l : list A) :
  Forall P l -> Forall P (firstn n l).
Proof.
  revert l; induction n as [|n IH]; intros l H; [constructor|].
  destruct H; simpl; constructor; auto.
Qed.

Lemma or_else_some {A} (a b : option A) (x : A) :
  or_else a b = Some x -> a = Some x \/ b = Some x.
Proof. destruct a; simpl; auto. Qed.

Lemma rmatch_state_ok {A} (r : regex) :
  forall (st : mstate) (k : mstate -> option A) (res : A),
    state_ok Q st -> rmatch r st k = Some res ->
    exists st', state_ok Q st' /\ k st' = Some res.
Proof.
  induction r as [| p | r1 IH1 r2 IH2 | r1 IH1 r2 IH2 | greedy r1 IH1
                 | n r1 IH1 | ml | ml | ]; intros st k res Hok H.
  - exists st. auto.
  - simpl in H. destruct (rest st) as [|c t] eqn:Er; [discriminate|].
    destruct (p c); [|discriminate].
    eexists. split; [|exact H].
    destruct Hok as [Hr Hg]. rewrite Er in Hr. split; [now inversion Hr | exact Hg].
  - simpl in H. apply IH1 in H as (st1 & Hok1 & H1); [|exact Hok].
    apply IH2 in H1; assumption.
  - simpl in H. apply or_else_some in H as [H | H]; eauto.
  - simpl in H. revert H. generalize (length (rest st)) as fuel. intros fuel.
    revert st Hok. induction fuel as [|fuel IHf]; intros st Hok H.
    + exists st. split; [exact Hok|].
      destruct greedy; simpl in H; [exact H|].
      apply or_else_some in H as [H | H]; [exact H | discriminate].
    + assert (Hagain :
        rmatch r1 st
          (fun st' =>
             if length (rest st') <? length (rest st)
             then star_loop (rmatch r1) greedy k fuel st' else None) = Some res ->
        exists st', state_ok Q st' /\ k st' = Some res).
      { intros Hx. apply IH1 in Hx as (st1 & Hok1 & H1); [|exact Hok].
        destruct (length (rest st1) <? length (rest st)); [|discriminate].
        apply IHf in H1; assumption. }
      simpl in H.
      destruct greedy; apply or_else_some in H as [H | H]; eauto.
  - simpl in H. apply IH1 in H as (st1 & Hok1 & H1); [|exact Hok].
    eexists. split; [|exact H1].
    destruct Hok as [Hr Hg], Hok1 as [Hr1 Hg1].
    split; [exact Hr1|]. constructor; [|exact Hg1].
    simpl. now apply Forall_prefix.
  - simpl in H. destruct (at_bol ml st); [eauto | discriminate].
  - simpl in H. destruct (at_eol ml st); [eauto | discriminate].
  - simpl in H. destruct (at_word_boundary st); [eauto | discriminate].
Qed.

Lemma match_at_state_ok (r : regex) (p : option ascii) (s : str) (st : mstate) :
  Forall Q s -> match_at r p s = Some st -> state_ok Q st.
Proof.
  intros Hs H. unfold match_at in H.
  apply rmatch_state_ok in H as (st' & Hok & E).
  - now injection E as <-.
  - split; [exact Hs | constructor].
Qed.

Lemma find_group_ok (n : nat) (gs : list (nat * str)) :
  Forall (fun ng => Forall Q (snd ng)) gs -> Forall Q (find_group n gs).
Proof.
  induction 1 as [|[m g] gs Hg Hgs IH]; [constructor|].
  simpl. destruct (Nat.eqb n m); assumption.
Qed.

Lemma expand_ok (tpl : list titem) (st : mstate) :
  template_ok Q tpl -> state_ok Q st -> Forall Q (expand tpl st).
Proof.
  intros Ht [_ Hg]. unfold expand.
  induction Ht as [|i tpl Hi Ht IH]; [constructor|].
  simpl. apply Forall_app. split; [|exact IH].
  destruct i; [exact Hi | now apply find_group_ok].
Qed.

Lemma sub_loop_ok (tpl : list titem) (r : regex) (fuel : nat) :
  template_ok Q tpl ->
  forall (p : option ascii) (s : str),
    Forall Q s -> Forall Q (sub_loop fuel r (expand tpl) p s).
Proof.
  intros Ht. induction fuel as [|fuel IH]; intros p s Hs; [exact Hs|].
  simpl. destruct (match_at r p s) as [st|] eqn:Em.
  - pose proof (match_at_state_ok _ _ _ _ Hs Em) as Hok.
    apply Forall_app. split; [now apply expand_ok|].
    destruct (length s - length (rest st)).
    + destruct s as [|c t]; [constructor|].
      inversion Hs; subst. constructor; [assumption | now apply IH].
    + apply IH. apply Hok.
  - destruct s as [|c t]; [constructor|].
    inversion Hs; subst. constructor; [assumption | now apply IH].
Qed.

Lemma re_sub_ok (r : regex) (tpl : list titem) (s : str) :
  template_ok Q tpl -> Forall Q s -> Forall Q (re_sub r tpl s).
Proof. intros Ht Hs. now apply sub_loop_ok. Qed.

End MatcherInvariant.

(** ** Substitutions keep a line a line *)

Lemma expand_ink (tpl : list titem) (st : mstate) :
  template_ink tpl = true -> has_ink (expand tpl st) = true.
Proof.
  unfold template_ink, expand. induction tpl as [|i tpl IH]; [discriminate|].
  simpl. intros H. rewrite has_ink_app.
  apply orb_true_iff in H as [H | H].
  - destruct i; [now rewrite H | discriminate].
  - rewrite (IH H). apply orb_true_r.
Qed.

Lemma sub_loop_ink (r : regex) (repl : mstate -> str) (fuel : nat) :
  (forall st, has_ink (repl st) = true) ->
  forall (p : option ascii) (s : str),
    has_ink s = true -> has_ink (sub_loop fuel r repl p s) = true.
Proof.
  intros Hrepl. induction fuel as [|fuel IH]; intros p s Hs; [exact Hs|].
  simpl. destruct (match_at r p s) as [st|].
  - rewrite has_ink_app, Hrepl. reflexivity.
  - destruct s as [|c t]; [discriminate|].
    simpl in Hs |- *. destruct (negb (is_space c)); [reflexivity|]. now apply IH.
Qed.

Lemma is_one_line_spec (s : str) : is_one_line s = true -> one_line s.
Proof.
  unfold is_one_line, one_line. rewrite forallb_forall, Forall_forall.
  intros H c Hc. specialize (H c Hc). now destruct (is_linebreak c).
Qed.

Lemma template_one_line_spec (tpl : list titem) :
  template_one_line tpl = true -> template_ok (fun c => is_linebreak c = false) tpl.
Proof.
  unfold template_one_line, template_ok. rewrite forallb_forall, Forall_forall.
  intros H i Hi. specialize (H i Hi). destruct i; [|exact I].
  now apply is_one_line_spec.
Qed.

(** A substitution whose template is free of line boundaries and has ink
    of its own maps a line with ink to a line with ink. *)
Lemma re_sub_inked_line (r : regex) (tpl : list titem) (s : str) :
  template_one_line tpl = true -> template_ink tpl = true ->
  inked_line s -> inked_line (re_sub r tpl s).
Proof.
  intros H1 H2 [Hl Hi]. split.
  - apply re_sub_ok; [now apply template_one_line_spec | exact Hl].
  - apply sub_loop_ink; [|exact Hi]. intros st. now apply expand_ink.
Qed.

Lemma fold_left_preserves {A B} (P : A -> Prop) (f : A -> B -> A) (l : list B) :
  (forall a b, In b l -> P a -> P (f a b)) ->
  forall a, P a -> P (fold_left f l a).
Proof.
  induction l as [|b l IH]; intros Hf a Ha; [exact Ha|].
  simpl. apply IH.
  - intros a' b' Hb'. apply Hf. now right.
  - apply Hf; [now left | exact Ha].
Qed.

Lemma fix_keyword_inked_line (content : str) (kw : string) :
  keyword_ok kw = true -> inked_line content -> inked_line (fix_keyword content kw).
Proof.
  intros H. apply andb_true_iff in H as [H1 H2].
  apply re_sub_inked_line.
  - unfold template_one_line, is_one_line in *. simpl.
    rewrite forallb_app, H1. reflexivity.
  - unfold template_ink. simpl. rewrite has_ink_app, H2. reflexivity.
Qed.

Lemma fix_operator_inked_line (content : str) (rule : string * ascii * string) :
  operator_ok rule = true -> inked_line content -> inked_line (fix_operator content rule).
Proof.
  destruct rule as [[before op] after]. unfold operator_ok. intros H.
  apply andb_true_iff in H as [H1 H2]. unfold fix_operator.
  apply re_sub_inked_line.
  - unfold template_one_line, is_one_line. simpl. now rewrite H1.
  - unfold template_ink, has_ink. simpl. now rewrite H2.
Qed.

Lemma fix_call_inked_line (content : str) (name : string) :
  inked_line content -> inked_line (fix_call content name).
Proof. apply re_sub_inked_line; reflexivity. Qed.

Lemma fix_chaining_inked_line (content : str) :
  inked_line content -> inked_line (fix_chaining content).
Proof. apply re_sub_inked_line; reflexivity. Qed.

Lemma forallb_In {A} (f : A -> bool) (l : list A) (a : A) :
  forallb f l = true -> In a l -> f a = true.
Proof. intros H Ha. rewrite forallb_forall in H. now apply H. Qed.

Lemma fix_python_inked_line (u : option str) (content : str) :
  inked_line content -> inked_line (fix_python u content).
Proof.
  intros H. unfold fix_python.
  apply fold_left_preserves.
  { intros a b Hb. apply fix_operator_inked_line.
    revert Hb. apply forallb_In. reflexivity. }
  apply fix_chaining_inked_line.
  assert (Hk : inked_line (fold_left fix_keyword python_keywords content)).
  { apply fold_left_preserves; [|exact H].
    intros a b Hb. apply fix_keyword_inked_line.
    revert Hb. apply forallb_In. reflexivity. }
  destruct (is_crawl4ai u); [|exact Hk].
  apply fold_left_preserves; [|exact Hk].
  intros a b _. apply fix_call_inked_line.
Qed.

Lemma fix_js_inked_line (content : str) :
  inked_line content -> inked_line (fix_js content).
Proof.
  intros H. unfold fix_js.
  apply fold_left_preserves.
  { intros a b Hb. apply fix_operator_inked_line.
    revert Hb. apply forallb_In. reflexivity. }
  apply fold_left_preserves; [|exact H].
  intros a b Hb. apply fix_keyword_inked_line.
  revert Hb. apply forallb_In. reflexivity.
Qed.

(** ** The formatting loops keep the non-blank lines *)

Lemma one_line_spaces (n : nat) : one_line (repeat " "%char n).
Proof. induction n; constructor; [reflexivity | assumption]. Qed.

Section FormatLine.

Variable fixup : str -> str.
Hypothesis fixup_inked_line : forall c, inked_line c -> inked_line (fixup c).

Lemma format_line_inked (m : nat) (line : str) :
  one_line line -> has_ink line = true ->
  inked_line (format_line fixup m line).
Proof.
  intros Hl Hi. unfold format_line. rewrite truthy_strip, Hi. cbn [negb].
  destruct (fixup_inked_line (lstrip line)) as [Hl' Hi'].
  { split; [now apply one_line_lstrip | now rewrite has_ink_lstrip]. }
  split.
  - apply Forall_app. split; [|exact Hl'].
    destruct (m <? indent_of line); [apply one_line_spaces | constructor].
  - rewrite has_ink_app, Hi'. apply orb_true_r.
Qed.

Lemma format_line_one_line (m : nat) (line : str) :
  one_line line -> one_line (format_line fixup m line).
Proof.
  intros Hl. destruct (has_ink line) eqn:Hi.
  - now apply format_line_inked.
  - unfold format_line. rewrite truthy_strip, Hi. constructor.
Qed.

Lemma format_line_nonblank (m : nat) (line : str) :
  one_line line ->
  truthy (strip (format_line fixup m line)) = truthy (strip line).
Proof.
  intros Hl. rewrite !truthy_strip. destruct (has_ink line) eqn:Hi.
  - now apply format_line_inked.
  - unfold format_line. rewrite truthy_strip, Hi. reflexivity.
Qed.

Lemma filter_map_length {A} (f : A -> bool) (g : A -> A) (l : list A) :
  Forall (fun a => f (g a) = f a) l ->
  length (filter f (map g l)) = length (filter f l).
Proof.
  induction 1 as [|a l Ha Hl IH]; [reflexivity|].
  simpl. rewrite Ha. destruct (f a); simpl; now rewrite IH.
Qed.

(** The formatted block has as many non-blank lines as the lines it was
    made from. *)
Lemma format_lines_count (m : nat) (lines : list str) :
  Forall one_line lines ->
  count_nonblank_lines (format_lines fixup m lines)
  = length (filter (fun line => truthy (strip line)) lines).
Proof.
  intros H. unfold count_nonblank_lines, format_lines.
  rewrite nonblank_lines_of_join.
  - apply filter_map_length. revert H. apply Forall_impl.
    intros l Hl. now apply format_line_nonblank.
  - apply Forall_map. revert H. apply Forall_impl.
    intros l Hl. now apply format_line_one_line.
Qed.

End FormatLine.

Section LineCount.

Context {PF : PyFloat} {PL : PyLimits}.

Lemma content_fix_inked_line (L : str) (u : option str) (c : str) :
  inked_line c -> inked_line (content_fix L u c).
Proof.
  unfold content_fix. destruct (str_eqb L (txt "python")).
  - apply fix_python_inked_line.
  - destruct (existsb _ _); [apply fix_js_inked_line | auto].
Qed.

End LineCount.

(** C1 as stated fails on the two paths it names: the JSON path prints one
    line as four, and the import patch adds a line. *)
Lemma json_and_import_paths_add_lines :
  (count_nonblank_lines (txtq "{'a':1,'b':2}") = 1
   /\ exists t, @process_code_block literal_floats example_limits (txtq "{'a':1,'b':2}")
                  (txt "json") None = Ok (t, txt "json")
                /\ count_nonblank_lines t = 4)
  /\ (count_nonblank_lines (text_of_lines ["import os"; "AsyncWebCrawler()"]%string) = 2
      /\ exists t, @process_code_block literal_floats example_limits
                     (text_of_lines ["import os"; "AsyncWebCrawler()"]%string)
                     python crawl4ai_docs = Ok (t, python)
                   /\ count_nonblank_lines t = 3).
Proof.
  split; (split; [reflexivity|]); eexists; (split; [vm_compute; reflexivity|]);
    reflexivity.
Qed.

(** ** JSON strings: decoding what the encoder wrote *)

Lemma code_ascii_of_N (n : N) : (n < 256)%N -> code (ascii_of_N n) = n.
Proof. apply N_ascii_embedding. Qed.

Lemma hex_digit_value (n : N) : (n < 16)%N -> hex_value (hex_digit n) = Some n.
Proof.
  intros H.
  assert (Hn : In (N.to_nat n) (seq 0 16)) by (apply in_seq; lia).
  rewrite <- (N2Nat.id n). revert Hn. generalize (N.to_nat n). intros m Hm.
  simpl in Hm. repeat (destruct Hm as [<- | Hm]; [reflexivity|]). contradiction.
Qed.

Lemma hex4_hex4_of (n : N) :
  (n < 65536)%N ->
  hex4 (hex_digit (n / 4096)) (hex_digit ((n / 256) mod 16))
       (hex_digit ((n / 16) mod 16)) (hex_digit (n mod 16)) = Some n.
Proof.
  intros H. unfold hex4.
  assert (H1 : (n / 4096 < 16)%N) by (apply N.Div0.div_lt_upper_bound; lia).
  assert (H2 : ((n / 256) mod 16 < 16)%N) by (apply N.mod_lt; lia).
  assert (H3 : ((n / 16) mod 16 < 16)%N) by (apply N.mod_lt; lia).
  assert (H4 : (n mod 16 < 16)%N) by (apply N.mod_lt; lia).
  rewrite !hex_digit_value by assumption. f_equal.
  zify. Z.to_euclidean_division_equations. lia.
Qed.

Lemma scanstring_escape (e : ascii) (x : N) (X : str) :
  unescape e = Some x ->
  scanstring (BS :: e :: X) = then_cons x (scanstring X).
Proof.
  intros H. cbn [scanstring]. 
  change (ascii_eqb BS DQ) with false. change (ascii_eqb BS BS) with true.
  cbn iota.
  destruct (ascii_eqb e "u") eqn:Eu.
  - apply ascii_eqb_eq in Eu. subst e. discriminate H.
  - rewrite H. reflexivity.
Qed.

Lemma scanstring_raw (c : ascii) (X : str) :
  ascii_eqb c DQ = false -> ascii_eqb c BS = false -> (code c <=? 31)%N = false ->
  scanstring (c :: X) = then_cons (code c) (scanstring X).
Proof. intros H1 H2 H3. cbn [scanstring]. now rewrite H1, H2, H3. Qed.

Lemma scanstring_u (h1 h2 h3 h4 : ascii) (u : N) (X : str) :
  hex4 h1 h2 h3 h4 = Some u ->
  is_high_surrogate u = false \/ no_low_escape X ->
  scanstring (BS :: "u"%char :: h1 :: h2 :: h3 :: h4 :: X)
  = then_cons u (scanstring X).
Proof.
  intros Hh Hx. cbn [scanstring].
  change (ascii_eqb BS DQ) with false. change (ascii_eqb BS BS) with true.
  change (ascii_eqb "u" "u") with true. cbn iota. rewrite Hh.
  destruct X as [|b [|v [|g1 [|g2 [|g3 [|g4 t]]]]]]; try reflexivity.
  destruct Hx as [Hx | Hx]; [now rewrite Hx|].
  destruct (is_high_surrogate u && truthy t && ascii_eqb b BS && ascii_eqb v "u")
    eqn:E; [|reflexivity].
  apply andb_true_iff in E as [E Ev]. apply andb_true_iff in E as [E Eb].
  apply ascii_eqb_eq in Ev, Eb. subst b v.
  destruct (Hx g1 g2 g3 g4 t eq_refl) as (u2 & -> & ->). reflexivity.
Qed.

Lemma scanstring_pair (h1 h2 h3 h4 g1 g2 g3 g4 : ascii) (hi lo : N) (X : str) :
  hex4 h1 h2 h3 h4 = Some hi -> is_high_surrogate hi = true ->
  hex4 g1 g2 g3 g4 = Some lo -> is_low_surrogate lo = true ->
  X <> [] ->
  scanstring (BS :: "u"%char :: h1 :: h2 :: h3 :: h4
              :: BS :: "u"%char :: g1 :: g2 :: g3 :: g4 :: X)
  = then_cons (join_surrogates hi lo) (scanstring X).
Proof.
  intros Hh Hhi Hg Hlo HX. cbn [scanstring].
  change (ascii_eqb BS DQ) with false. change (ascii_eqb BS BS) with true.
  change (ascii_eqb "u" "u") with true. cbn iota.
  rewrite Hh, Hhi, Hg, Hlo. destruct X; [contradiction|]. reflexivity.
Qed.

Lemma lor_surrogate_base (base x : N) :
  base = 55296%N \/ base = 56320%N -> (x < 1024)%N -> N.lor base x = (base + x)%N.
Proof.
  intros Hb Hx.
  assert (Hall : forallb (fun k => (N.lor 55296 (N.of_nat k) =? 55296 + N.of_nat k)%N
                                   && (N.lor 56320 (N.of_nat k) =? 56320 + N.of_nat k)%N)
                         (seq 0 1024) = true) by (vm_compute; reflexivity).
  rewrite forallb_forall in Hall.
  assert (Hin : In (N.to_nat x) (seq 0 1024)) by (apply in_seq; lia).
  apply Hall in Hin. rewrite N2Nat.id in Hin.
  apply andb_true_iff in Hin as [H1 H2].
  apply N.eqb_eq in H1. apply N.eqb_eq in H2.
  destruct Hb as [-> | ->]; assumption.
Qed.

Lemma surrogate_halves (n : N) :
  (65536 <= n < 1114112)%N ->
  high_half n = (55296 + (n - 65536) / 1024)%N
  /\ low_half n = (56320 + (n - 65536) mod 1024)%N.
Proof.
  intros H. unfold high_half, low_half.
  change 1023%N with (N.ones 10). rewrite !N.land_ones, N.shiftr_div_pow2.
  change (2 ^ 10)%N with 1024%N.
  assert (Hd : ((n - 65536) / 1024 < 1024)%N)
    by (apply N.Div0.div_lt_upper_bound; lia).
  rewrite (N.mod_small _ _ Hd).
  split; apply lor_surrogate_base; auto.
  apply N.mod_lt. lia.
Qed.

Lemma surrogate_halves_join (n : N) :
  (65536 <= n < 1114112)%N ->
  (high_half n < 65536)%N /\ (low_half n < 65536)%N
  /\ is_high_surrogate (high_half n) = true
  /\ is_low_surrogate (high_half n) = false
  /\ is_low_surrogate (low_half n) = true
  /\ join_surrogates (high_half n) (low_half n) = n.
Proof.
  intros H. destruct (surrogate_halves n H) as [-> ->].
  assert (Hd : ((n - 65536) / 1024 < 1024)%N)
    by (apply N.Div0.div_lt_upper_bound; lia).
  assert (Hm : ((n - 65536) mod 1024 < 1024)%N) by (apply N.mod_lt; lia).
  unfold is_high_surrogate, is_low_surrogate, join_surrogates, between.
  repeat split.
  - div_lia.
  - div_lia.
  - apply andb_true_iff. split; apply N.leb_le; div_lia.
  - apply andb_false_iff. left. apply N.leb_gt. div_lia.
  - apply andb_true_iff. split; apply N.leb_le; div_lia.
  - div_lia.
Qed.

Lemma ascii_of_N_neq (n : N) (a : ascii) :
  (n < 256)%N -> n <> code a -> ascii_eqb (ascii_of_N n) a = false.
Proof.
  intros Hn Hne. destruct (ascii_eqb (ascii_of_N n) a) eqn:E; [|reflexivity].
  apply ascii_eqb_eq in E. subst a. rewrite code_ascii_of_N in Hne by assumption.
  contradiction.
Qed.

Lemma between_spec (lo hi n : N) : between lo hi n = true <-> (lo <= n <= hi)%N.
Proof.
  unfold between. rewrite andb_true_iff, !N.leb_le. tauto.
Qed.

Lemma escape_char_shape (c : N) : (c < 1114112)%N -> escape_shape c (escape_char c).
Proof.
  intros Hc. unfold escape_char.
  destruct (N.eqb_spec c 34) as [->|H34]; [now apply shape_simple|].
  destruct (N.eqb_spec c 92) as [->|H92]; [now apply shape_simple|].
  destruct (N.eqb_spec c 8) as [->|H8]; [now apply shape_simple|].
  destruct (N.eqb_spec c 12) as [->|H12]; [now apply shape_simple|].
  destruct (N.eqb_spec c 10) as [->|H10]; [now apply shape_simple|].
  destruct (N.eqb_spec c 13) as [->|H13]; [now apply shape_simple|].
  destruct (N.eqb_spec c 9) as [->|H9]; [now apply shape_simple|].
  destruct (between 32 126 c) eqn:Hraw.
  { apply between_spec in Hraw. apply shape_raw.
    - apply code_ascii_of_N. lia.
    - apply ascii_of_N_neq; [lia | exact H34].
    - apply ascii_of_N_neq; [lia | exact H92].
    - rewrite code_ascii_of_N by lia. apply N.leb_gt. lia. }
  destruct (N.ltb_spec c 65536) as [Hbmp|Hsup].
  { unfold hex4_of. apply shape_u. now apply hex4_hex4_of. }
  fold (high_half c). fold (low_half c).
  destruct (surrogate_halves_join c) as (H1 & H2 & H3 & H4 & H5 & H6); [lia|].
  generalize dependent (low_half c). generalize dependent (high_half c).
  intros hi H1 H3 H4 lo H2 H5 H6. unfold hex4_of.
  apply (shape_pair c _ _ _ _ _ _ _ _ hi lo); try assumption;
    now apply hex4_hex4_of.
Qed.

Lemma unescape_not_u (e : ascii) (x : N) : unescape e = Some x -> e <> "u"%char.
Proof. intros H ->. discriminate H. Qed.

(** Reading back one encoded code point. *)
Lemma scanstring_escape_char (c : N) (Y : str) :
  (c < 1114112)%N ->
  (is_high_surrogate c = true -> no_low_escape Y) ->
  Y <> [] ->
  scanstring (escape_char c ++ Y) = then_cons c (scanstring Y).
Proof.
  intros Hc Hhigh HY.
  destruct (escape_char_shape c Hc)
    as [e He | a Ha H1 H2 H3 | h1 h2 h3 h4 Hh
        | h1 h2 h3 h4 g1 g2 g3 g4 hi lo Hh Hg Hhi _ Hlo Hj]; cbn [app].
  - now apply scanstring_escape.
  - rewrite <- Ha. now apply scanstring_raw.
  - apply scanstring_u; [exact Hh|].
    destruct (is_high_surrogate c); [right; now apply Hhigh | now left].
  - rewrite <- Hj. now apply scanstring_pair.
Qed.

Lemma no_low_escape_encoded (t : list N) (rest : str) :
  match t with
  | c :: _ => (c < 1114112)%N /\ is_low_surrogate c = false
  | [] => True
  end ->
  no_low_escape (flat_map escape_char t ++ DQ :: rest).
Proof.
  intros Ht g1 g2 g3 g4 r E. destruct t as [|c t]; [discriminate E|].
  destruct Ht as [Hc Hlow]. cbn [flat_map] in E. rewrite <- app_assoc in E.
  revert E.
  destruct (escape_char_shape c Hc)
    as [e He | a Ha H1 H2 H3 | h1 h2 h3 h4 Hh
        | h1 h2 h3 h4 k1 k2 k3 k4 hi lo Hh Hg Hhi Hnl Hlo Hj];
    cbn [app]; intros E.
  - injection E as E _. now apply unescape_not_u in He.
  - injection E as E _. subst a. discriminate H2.
  - injection E as <- <- <- <- _. now exists c.
  - injection E as <- <- <- <- _. now exists hi.
Qed.

Lemma code_points_ok_cons (c : N) (t : list N) :
  code_points_ok (c :: t)
  = (c <? 1114112)%N && negb (is_high_surrogate c && first_low t) && code_points_ok t.
Proof. reflexivity. Qed.

(** The decoder reads back every string the encoder wrote. *)
Lemma scanstring_encoded (s : list N) (rest : str) :
  code_points_ok s = true ->
  scanstring (flat_map escape_char s ++ DQ :: rest) = Ok (s, rest).
Proof.
  induction s as [|c t IH]; intros H; [reflexivity|].
  rewrite code_points_ok_cons in H.
  apply andb_true_iff in H as [H Ht]. apply andb_true_iff in H as [Hc Hs].
  apply N.ltb_lt in Hc.
  cbn [flat_map]. rewrite <- app_assoc, scanstring_escape_char.
  - now rewrite (IH Ht).
  - exact Hc.
  - intros Hhigh. rewrite Hhigh in Hs. apply no_low_escape_encoded.
    destruct t as [|c' t']; [exact I|].
    rewrite code_points_ok_cons in Ht. apply andb_true_iff in Ht as [Ht _].
    apply andb_true_iff in Ht as [Hc' _]. apply N.ltb_lt in Hc'.
    split; [exact Hc'|]. cbn [first_low andb negb] in Hs.
    now destruct (is_low_surrogate c').
  - intros E. apply (f_equal (@length ascii)) in E.
    rewrite length_app in E. simpl in E. lia.
Qed.

(** ** JSON strings: what the decoder can return *)

Lemma then_cons_ok (x : N) (m : result (list N * str)) (k : list N) (r : str) :
  then_cons x m = Ok (k, r) -> exists k1, m = Ok (k1, r) /\ k = x :: k1.
Proof.
  destruct m as [[k1 r1] | e]; simpl; [|discriminate].
  intros H. injection H as <- <-. now exists k1.
Qed.

Lemma hex_value_bound (c : ascii) (n : N) : hex_value c = Some n -> (n < 16)%N.
Proof.
  unfold hex_value.
  destruct (between 48 57 (code c)) eqn:E1;
    [|destruct (between 97 102 (code c)) eqn:E2;
      [|destruct (between 65 70 (code c)) eqn:E3; [|discriminate]]];
    intros H; injection H as <-;
    match goal with E : between _ _ _ = true |- _ => apply between_spec in E end; lia.
Qed.

Lemma hex4_bound (a b c d : ascii) (n : N) : hex4 a b c d = Some n -> (n < 65536)%N.
Proof.
  unfold hex4.
  destruct (hex_value a) as [x|] eqn:Ea; [|discriminate].
  destruct (hex_value b) as [y|] eqn:Eb; [|discriminate].
  destruct (hex_value c) as [z|] eqn:Ec; [|discriminate].
  destruct (hex_value d) as [w|] eqn:Ed; [|discriminate].
  apply hex_value_bound in Ea, Eb, Ec, Ed. intros H. injection H as <-. lia.
Qed.

Lemma unescape_bound (e : ascii) (x : N) : unescape e = Some x -> (x < 128)%N.
Proof.
  unfold unescape.
  destruct ((code e =? 34)%N || (code e =? 92)%N || (code e =? 47)%N) eqn:E.
  - intros H. injection H as <-.
    apply orb_true_iff in E as [E | E]; [apply orb_true_iff in E as [E | E]|];
      apply N.eqb_eq in E; lia.
  - repeat match goal with
           | |- context [if ?b then _ else _] => destruct b
           end; intros H; try discriminate H; injection H as <-; lia.
Qed.

(** The ways a [\uXXXX] escape can be read. *)
Lemma scanstring_u_ok (h1 h2 h3 h4 : ascii) (t5 : str) (k : list N) (r : str) :
  scanstring (BS :: "u"%char :: h1 :: h2 :: h3 :: h4 :: t5) = Ok (k, r) ->
  exists u, hex4 h1 h2 h3 h4 = Some u /\
    ((exists k1, scanstring t5 = Ok (k1, r) /\ k = u :: k1
                 /\ (is_high_surrogate u = true ->
                     forall g1 g2 g3 g4 t11,
                       t5 = BS :: "u"%char :: g1 :: g2 :: g3 :: g4 :: t11 ->
                       t11 = [] \/
                       exists u2, hex4 g1 g2 g3 g4 = Some u2
                                  /\ is_low_surrogate u2 = false))
     \/ (exists u2 k1 t11,
           is_high_surrogate u = true /\ is_low_surrogate u2 = true
           /\ length t11 < length t5 /\ scanstring t11 = Ok (k1, r)
           /\ k = join_surrogates u u2 :: k1)).
Proof.
  cbn [scanstring].
  change (ascii_eqb BS DQ) with false. change (ascii_eqb BS BS) with true.
  change (ascii_eqb "u" "u") with true. cbn iota.
  destruct (hex4 h1 h2 h3 h4) as [u|]; [|discriminate].
  intros H. exists u. split; [reflexivity|].
  assert (Hshort :
    (forall g1 g2 g3 g4 t11, t5 <> BS :: "u"%char :: g1 :: g2 :: g3 :: g4 :: t11) ->
    then_cons u (scanstring t5) = Ok (k, r) ->
    exists k1, scanstring t5 = Ok (k1, r) /\ k = u :: k1
               /\ (is_high_surrogate u = true ->
                   forall g1 g2 g3 g4 t11,
                     t5 = BS :: "u"%char :: g1 :: g2 :: g3 :: g4 :: t11 ->
                     t11 = [] \/
                     exists u2, hex4 g1 g2 g3 g4 = Some u2
                                /\ is_low_surrogate u2 = false)).
  { intros Hne Hk. apply then_cons_ok in Hk as (k1 & Hk1 & ->).
    exists k1. repeat split; try assumption.
    intros _ g1 g2 g3 g4 t11 E. now apply Hne in E. }
  destruct t5 as [|b [|v [|g1 [|g2 [|g3 [|g4 t11]]]]]];
    try (left; apply Hshort; [intros; discriminate | exact H]).
  destruct (is_high_surrogate u) eqn:Hu; cbn [andb] in H.
  2:{ left. apply then_cons_ok in H as (k1 & Hk1 & ->).
      exists k1. repeat split; try assumption. discriminate. }
  destruct (truthy t11) eqn:Ht; cbn [andb] in H.
  2:{ left. apply then_cons_ok in H as (k1 & Hk1 & ->).
      exists k1. repeat split; try assumption.
      intros _ a1 a2 a3 a4 t E. injection E as _ _ _ _ _ _ <-.
      left. now destruct t11. }
  destruct (ascii_eqb b BS && ascii_eqb v "u") eqn:Ebv.
  2:{ left. apply Hshort; [|exact H].
      intros a1 a2 a3 a4 t E. injection E as -> -> _ _ _ _ _. discriminate Ebv. }
  destruct (hex4 g1 g2 g3 g4) as [u2|] eqn:Eg; [|discriminate].
  destruct (is_low_surrogate u2) eqn:Hl.
  - right. apply then_cons_ok in H as (k1 & Hk1 & ->). exists u2, k1, t11.
    repeat split; try assumption. simpl. lia.
  - left. apply then_cons_ok in H as (k1 & Hk1 & ->).
    exists k1. repeat split; try assumption.
    intros _ a1 a2 a3 a4 t E. injection E as _ _ <- <- <- <- _.
    right. now exists u2.
Qed.

Lemma join_surrogates_bound (u u2 : N) :
  is_high_surrogate u = true -> is_low_surrogate u2 = true ->
  (65536 <= join_surrogates u u2 < 1114112)%N.
Proof.
  intros H1 H2. apply between_spec in H1, H2. unfold join_surrogates. lia.
Qed.

Lemma not_surrogate_small (n : N) :
  (n < 55296)%N \/ (65536 <= n)%N ->
  is_high_surrogate n = false /\ is_low_surrogate n = false.
Proof.
  intros H. unfold is_high_surrogate, is_low_surrogate, between.
  split; apply andb_false_iff; rewrite !N.leb_gt; lia.
Qed.

(** What [scanstring] returns is a well-formed list of code points; when it
    starts with a low surrogate, the text started with its escape. *)
Lemma scanstring_ok_gen (n : nat) :
  forall (s : str) (k : list N) (r : str),
    length s <= n ->
    scanstring s = Ok (k, r) ->
    code_points_ok k = true
    /\ (first_low k = true ->
        exists g1 g2 g3 g4 t,
          s = BS :: "u"%char :: g1 :: g2 :: g3 :: g4 :: t
          /\ hex4 g1 g2 g3 g4 = Some (hd 0%N k)).
Proof.
  induction n as [|n IH]; intros s k r Hn H.
  { destruct s; [discriminate H | simpl in Hn; lia]. }
  destruct s as [|c t]; [discriminate H|]. simpl in Hn.
  destruct (ascii_eqb c DQ) eqn:Eq.
  { cbn [scanstring] in H. rewrite Eq in H. injection H as <- <-.
    split; [reflexivity | discriminate]. }
  destruct (ascii_eqb c BS) eqn:Eb.
  - apply ascii_eqb_eq in Eb. subst c.
    destruct t as [|e t1]; [discriminate H|].
    destruct (ascii_eqb e "u") eqn:Eu.
    + apply ascii_eqb_eq in Eu. subst e.
      destruct t1 as [|h1 [|h2 [|h3 [|h4 t5]]]]; try discriminate H.
      apply scanstring_u_ok in H as (u & Hu & [Hone | Hpair]).
      * destruct Hone as (k1 & Hk1 & -> & Hnext).
        pose proof (hex4_bound _ _ _ _ _ Hu) as Hub.
        destruct (IH t5 k1 r) as [Hok Hlow]; [simpl in Hn; lia | exact Hk1 |].
        split.
        -- rewrite code_points_ok_cons, Hok.
           replace (u <? 1114112)%N with true by (symmetry; apply N.ltb_lt; lia).
           destruct (is_high_surrogate u) eqn:Hh; [|reflexivity].
           destruct (first_low k1) eqn:Hf; [|reflexivity].
           exfalso. destruct (Hlow eq_refl) as (g1 & g2 & g3 & g4 & t11 & -> & Hg).
           destruct (Hnext eq_refl g1 g2 g3 g4 t11 eq_refl) as [-> | (u2 & Hg2 & Hl2)].
           ++ cbn [scanstring] in Hk1.
              change (ascii_eqb BS DQ) with false in Hk1.
              change (ascii_eqb BS BS) with true in Hk1.
              change (ascii_eqb "u" "u") with true in Hk1. cbn iota in Hk1.
              rewrite Hg in Hk1. discriminate Hk1.
           ++ rewrite Hg in Hg2. injection Hg2 as <-.
              destruct k1 as [|c1 k1]; [discriminate Hf|]. simpl in Hf, Hl2.
              congruence.
        -- intros _. exists h1, h2, h3, h4, t5. now split.
      * destruct Hpair as (u2 & k1 & t11 & Hh & Hl & Hlen & Hk1 & ->).
        destruct (join_surrogates_bound u u2 Hh Hl) as [Hj1 Hj2].
        destruct (not_surrogate_small (join_surrogates u u2)) as [Hnh Hnl];
          [now right|].
        destruct (IH t11 k1 r) as [Hok _]; [simpl in Hn; lia | exact Hk1 |].
        split.
        -- rewrite code_points_ok_cons, Hok, Hnh.
           replace (join_surrogates u u2 <? 1114112)%N with true
             by (symmetry; apply N.ltb_lt; lia).
           reflexivity.
        -- simpl. rewrite Hnl. discriminate.
    + destruct (unescape e) as [x|] eqn:Ex.
      2:{ cbn [scanstring] in H.
          change (ascii_eqb BS DQ) with false in H.
          change (ascii_eqb BS BS) with true in H. cbn iota in H.
          rewrite Eu, Ex in H. discriminate H. }
      rewrite (scanstring_escape e x t1 Ex) in H.
      apply then_cons_ok in H as (k1 & Hk1 & ->).
      pose proof (unescape_bound _ _ Ex) as Hx.
      destruct (not_surrogate_small x) as [Hnh Hnl]; [left; lia|].
      destruct (IH t1 k1 r) as [Hok _]; [simpl in Hn; lia | exact Hk1 |].
      split.
      * rewrite code_points_ok_cons, Hok, Hnh.
        replace (x <? 1114112)%N with true by (symmetry; apply N.ltb_lt; lia).
        reflexivity.
      * simpl. rewrite Hnl. discriminate.
  - destruct (code c <=? 31)%N eqn:Ec.
    { cbn [scanstring] in H. rewrite Eq, Eb, Ec in H. discriminate H. }
    rewrite (scanstring_raw c t Eq Eb Ec) in H.
    apply then_cons_ok in H as (k1 & Hk1 & ->).
    assert (Hx : (code c < 256)%N) by apply N_ascii_bounded.
    destruct (not_surrogate_small (code c)) as [Hnh Hnl]; [left; lia|].
    destruct (IH t k1 r) as [Hok _]; [lia | exact Hk1 |].
    split.
    + rewrite code_points_ok_cons, Hok, Hnh.
      replace (code c <? 1114112)%N with true by (symmetry; apply N.ltb_lt; lia).
      reflexivity.
    + simpl. rewrite Hnl. discriminate.
Qed.

Lemma scanstring_ok (s : str) (k : list N) (r : str) :
  scanstring s = Ok (k, r) -> code_points_ok k = true.
Proof. intros H. now apply (scanstring_ok_gen (length s) s k r (le_n _)). Qed.

(** ** JSON integers *)

Lemma value_end_head (c : ascii) (t : str) :
  value_end (c :: t) = true ->
  is_digit c = false /\ ascii_eqb c "." = false /\ ascii_eqb c "e" = false
  /\ ascii_eqb c "E" = false.
Proof.
  simpl. intros H. apply orb_true_iff in H as [H | H];
    apply ascii_eqb_eq in H; subst c; repeat split; reflexivity.
Qed.

Lemma span_digits_app (ds rest : str) :
  all_digits ds -> value_end rest = true -> span_digits (ds ++ rest) = (ds, rest).
Proof.
  intros Hd Hr. induction Hd as [|c ds Hc Hds IH].
  - destruct rest as [|c t]; [reflexivity|].
    apply value_end_head in Hr as (Hr & _). simpl. now rewrite Hr.
  - simpl. now rewrite Hc, IH.
Qed.

Lemma digits_of_uint_all_digits (u : Decimal.uint) : all_digits (digits_of_uint u).
Proof. induction u; constructor; auto. Qed.

Lemma uint_of_digits_of_uint (u : Decimal.uint) : uint_of_digits (digits_of_uint u) = u.
Proof. induction u; simpl; [reflexivity | now rewrite IHu ..]. Qed.

Lemma scan_frac_none (rest : str) : value_end rest = true -> scan_frac rest = ([], rest).
Proof.
  destruct rest as [|c [|d t]]; try reflexivity.
  intros H. apply value_end_head in H as (_ & H & _). simpl. now rewrite H.
Qed.

Lemma scan_exp_none (rest : str) : value_end rest = true -> scan_exp rest = ([], rest).
Proof.
  destruct rest as [|c t]; [reflexivity|].
  intros H. apply value_end_head in H as (_ & _ & H1 & H2). simpl. now rewrite H1, H2.
Qed.

(** The digits of a positive number start with a non-zero digit. *)
Lemma pos_digits (p : positive) :
  exists c ds, digits_of_uint (Pos.to_uint p) = c :: ds
               /\ ascii_eqb c "0" = false /\ ascii_eqb c "-" = false
               /\ is_digit c = true /\ all_digits ds.
Proof.
  assert (Hnorm : Decimal.unorm (Pos.to_uint p) = Pos.to_uint p).
  { rewrite <- (DecimalPos.Unsigned.to_of (Pos.to_uint p)).
    now rewrite DecimalPos.Unsigned.of_to. }
  pose proof (DecimalPos.Unsigned.to_uint_nonzero p) as Hnz.
  pose proof (digits_of_uint_all_digits (Pos.to_uint p)) as Hall.
  destruct (Pos.to_uint p) as [|u|u|u|u|u|u|u|u|u|u] eqn:E;
    try (eexists; eexists; split; [reflexivity|]; inversion Hall; subst;
         repeat split; try reflexivity; assumption).
  - now apply DecimalPos.Unsigned.to_uint_nonnil in E.
  - exfalso. rewrite DecimalFacts.unorm_D0 in Hnorm.
    destruct u as [|u|u|u|u|u|u|u|u|u|u]; [now apply Hnz | | | | | | | | | |];
      match type of Hnorm with
      | Decimal.unorm ?d = _ =>
          assert (Hd : d <> Decimal.Nil) by discriminate;
          pose proof (DecimalFacts.nb_digits_unorm d Hd) as Hle;
          rewrite Hnorm in Hle; simpl in Hle; lia
      end.
Qed.

Lemma int_repr_cases (z : Z) :
  (int_repr z = ["0"%char])
  \/ (exists c ds, int_repr z = c :: ds /\ ascii_eqb c "0" = false
                   /\ ascii_eqb c "-" = false /\ is_digit c = true /\ all_digits ds)
  \/ (exists c ds, int_repr z = "-"%char :: c :: ds /\ ascii_eqb c "0" = false
                   /\ is_digit c = true /\ all_digits ds).
Proof.
  destruct z as [|p|p]; unfold int_repr; simpl Z.to_int.
  - now left.
  - right. left. exact (pos_digits p).
  - right. right. destruct (pos_digits p) as (c & ds & -> & H0 & _ & Hd & Hds).
    now exists c, ds.
Qed.

Lemma int_of_literal_int_repr (z : Z) : int_of_literal (int_repr z) = z.
Proof.
  rewrite <- (DecimalZ.of_to z) at 2.
  unfold int_repr, int_of_literal. destruct (Z.to_int z) as [u|u] eqn:E.
  - destruct (digits_of_uint u) as [|c t] eqn:Eu.
    + destruct u; try discriminate Eu. destruct z; try discriminate E.
      simpl in E. injection E as E. now apply DecimalPos.Unsigned.to_uint_nonnil in E.
    + destruct (ascii_eqb c "-") eqn:Ec.
      * apply ascii_eqb_eq in Ec. subst c.
        pose proof (digits_of_uint_all_digits u) as Hall. rewrite Eu in Hall.
        inversion Hall; subst. discriminate.
      * now rewrite <- Eu, uint_of_digits_of_uint.
  - change (ascii_eqb "-" "-") with true. cbn iota.
    now rewrite uint_of_digits_of_uint.
Qed.

(** The number matcher reads back an integer the encoder wrote. *)
Lemma match_number_int_repr (z : Z) (rest : str) :
  value_end rest = true ->
  match_number (int_repr z ++ rest) = Some (false, int_repr z, rest).
Proof.
  intros Hr. unfold match_number.
  destruct (int_repr_cases z) as [E | [(c & ds & E & H0 & Hm & Hd & Hds)
                                     | (c & ds & E & H0 & Hd & Hds)]];
    rewrite E; simpl app; unfold scan_sign.
  - change (ascii_eqb "0" "-") with false. cbn iota. unfold scan_int.
    change (ascii_eqb "0" "0") with true. cbn iota.
    now rewrite scan_frac_none, scan_exp_none.
  - rewrite Hm. unfold scan_int. rewrite H0, Hd, span_digits_app by assumption.
    rewrite scan_frac_none, scan_exp_none by assumption.
    simpl. now rewrite app_nil_r.
  - change (ascii_eqb "-" "-") with true. cbn iota. unfold scan_int.
    rewrite H0, Hd, span_digits_app by assumption.
    rewrite scan_frac_none, scan_exp_none by assumption.
    simpl. now rewrite app_nil_r.
Qed.

(** ** JSON documents: decoding what the encoder wrote *)

Lemma value_start_facts (c : ascii) :
  value_start c = true ->
  is_json_ws c = false /\ is_space c = false
  /\ ascii_eqb c "]" = false /\ ascii_eqb c "}" = false.
Proof.
  destruct c as [[] [] [] [] [] [] [] []]; vm_compute; intros H;
    first [discriminate H | repeat split].
Qed.

Section JsonRoundTrip.

Context {PF : PyFloat} {PL : PyLimits}.

Lemma startswith_head (x c : ascii) (p t : str) :
  startswith (x :: p) (c :: t) = true -> c = x.
Proof.
  simpl. intros H. apply andb_true_iff in H as [H _].
  apply ascii_eqb_eq in H. now subst.
Qed.

Lemma match_number_head (c : ascii) (t : str) (res : bool * str * str) :
  match_number (c :: t) = Some res -> is_digit c || ascii_eqb c "-" = true.
Proof.
  unfold match_number, scan_sign.
  destruct (ascii_eqb c "-"); [intros _; apply orb_true_r|].
  unfold scan_int. destruct (ascii_eqb c "0") eqn:E0.
  - apply ascii_eqb_eq in E0. now subst c.
  - destruct (is_digit c); [reflexivity | discriminate].
Qed.

Lemma number_start (c : ascii) :
  is_digit c || ascii_eqb c "-" = true -> value_start c = true.
Proof.
  destruct c as [[] [] [] [] [] [] [] []]; vm_compute; intros H;
    first [discriminate H | reflexivity].
Qed.

(** One step of [scan_once] on a non-empty text. *)
Lemma scan_once_step (fuel depth : nat) (c : ascii) (t : str) :
  scan_once (S fuel) depth (c :: t)
  = if ascii_eqb c DQ then ' (k, r) <- scanstring t ;; Ok (JStr k, r)
    else if ascii_eqb c "{" then
      match depth with
      | 0 => Raise RecursionError
      | S depth' =>
          match skip_ws t with
          | c' :: t' =>
              if ascii_eqb c' "}" then Ok (JDict [], t')
              else if ascii_eqb c' DQ then
                ' (pairs, r) <- object_items fuel depth' t' ;;
                Ok (JDict (dict_of_pairs pairs), r)
              else Raise JSONDecodeError
          | [] => Raise JSONDecodeError
          end
      end
    else if ascii_eqb c "[" then
      match depth with
      | 0 => Raise RecursionError
      | S depth' =>
          match skip_ws t with
          | c' :: t' =>
              if ascii_eqb c' "]" then Ok (JList [], t')
              else ' (vs, r) <- array_items fuel depth' (c' :: t') ;;
                   Ok (JList vs, r)
          | [] => Raise JSONDecodeError
          end
      end
    else if startswith (txt "null") (c :: t) then Ok (JNull, skipn 4 (c :: t))
    else if startswith (txt "true") (c :: t) then Ok (JBool true, skipn 4 (c :: t))
    else if startswith (txt "false") (c :: t) then Ok (JBool false, skipn 5 (c :: t))
    else
      match match_number (c :: t) with
      | Some (is_float, numstr, r) =>
          if is_float then Ok (JFloat (float_of_literal numstr), r)
          else z <- py_int numstr ;; Ok (JInt z, r)
      | None =>
          if startswith (txt "NaN") (c :: t)
          then Ok (JFloat (float_of_literal (txt "nan")), skipn 3 (c :: t))
          else if startswith (txt "Infinity") (c :: t)
          then Ok (JFloat (float_of_literal (txt "inf")), skipn 8 (c :: t))
          else if startswith (txt "-Infinity") (c :: t)
          then Ok (JFloat (float_of_literal (txt "-inf")), skipn 9 (c :: t))
          else Raise JSONDecodeError
      end.
Proof. reflexivity. Qed.

Lemma scan_once_start (fuel depth : nat) (s : str) (v : json) (r : str) :
  scan_once fuel depth s = Ok (v, r) ->
  exists c t, s = c :: t /\ value_start c = true.
Proof.
  destruct fuel as [|fuel]; [discriminate|].
  destruct s as [|c t]; [discriminate|].
  rewrite scan_once_step. intros H. exists c, t. split; [reflexivity|].
  destruct (ascii_eqb c DQ) eqn:E1; [apply ascii_eqb_eq in E1; now subst c|].
  destruct (ascii_eqb c "{") eqn:E2; [apply ascii_eqb_eq in E2; now subst c|].
  destruct (ascii_eqb c "[") eqn:E3; [apply ascii_eqb_eq in E3; now subst c|].
  destruct (startswith (txt "null") (c :: t)) eqn:E4;
    [apply startswith_head in E4; now subst c|].
  destruct (startswith (txt "true") (c :: t)) eqn:E5;
    [apply startswith_head in E5; now subst c|].
  destruct (startswith (txt "false") (c :: t)) eqn:E6;
    [apply startswith_head in E6; now subst c|].
  destruct (match_number (c :: t)) as [res|] eqn:E7;
    [apply match_number_head in E7; now apply number_start|].
  destruct (startswith (txt "NaN") (c :: t)) eqn:E8;
    [apply startswith_head in E8; now subst c|].
  destruct (startswith (txt "Infinity") (c :: t)) eqn:E9;
    [apply startswith_head in E9; now subst c|].
  destruct (startswith (txt "-Infinity") (c :: t)) eqn:E10;
    [apply startswith_head in E10; now subst c|].
  discriminate H.
Qed.

Section JsonInduction.

Variable P : json -> Prop.
Hypothesis P_null : P JNull.
Hypothesis P_bool : forall b, P (JBool b).
Hypothesis P_int : forall z, P (JInt z).
Hypothesis P_float : forall f, P (JFloat f).
Hypothesis P_str : forall s, P (JStr s).
Hypothesis P_list : forall l, Forall P l -> P (JList l).
Hypothesis P_dict : forall d, Forall (fun kv => P (snd kv)) d -> P (JDict d).

Fixpoint json_induction (v : json) : P v :=
  match v with
  | JNull => P_null
  | JBool b => P_bool b
  | JInt z => P_int z
  | JFloat f => P_float f
  | JStr s => P_str s
  | JList l =>
      P_list l
        ((fix go (l : list json) : Forall P l :=
            match l with
            | [] => Forall_nil P
            | x :: t => Forall_cons x (json_induction x) (go t)
            end) l)
  | JDict d =>
      P_dict d
        ((fix go (d : list (list N * json)) : Forall (fun kv => P (snd kv)) d :=
            match d with
            | [] => Forall_nil _
            | kv :: t => Forall_cons kv (json_induction (snd kv)) (go t)
            end) d)
  end.

End JsonInduction.

Lemma skip_ws_start (c : ascii) (t : str) :
  is_json_ws c = false -> skip_ws (c :: t) = c :: t.
Proof. intros H. simpl. now rewrite H. Qed.

Lemma skip_ws_spaces (n : nat) (X : str) : skip_ws (repeat " "%char n ++ X) = skip_ws X.
Proof. induction n; [reflexivity | exact IHn]. Qed.

Lemma skip_ws_newline_indent (level : nat) (X : str) :
  skip_ws (newline_indent level ++ X) = skip_ws X.
Proof. unfold newline_indent. simpl. apply skip_ws_spaces. Qed.

Lemma value_end_newline_indent (level : nat) (X : str) :
  value_end (newline_indent level ++ X) = true.
Proof. reflexivity. Qed.

Lemma number_start_facts (c : ascii) :
  is_digit c || ascii_eqb c "-" = true ->
  ascii_eqb c DQ = false /\ ascii_eqb c "{" = false /\ ascii_eqb c "[" = false
  /\ ascii_eqb "n" c = false /\ ascii_eqb "t" c = false /\ ascii_eqb "f" c = false
  /\ value_start c = true.
Proof.
  destruct c as [[] [] [] [] [] [] [] []]; vm_compute; intros H;
    first [discriminate H | repeat split].
Qed.

Lemma scan_once_int (fuel depth : nat) (z : Z) (rest : str) :
  value_end rest = true -> int_too_long (int_repr z) = false ->
  scan_once (S fuel) depth (int_repr z ++ rest) = Ok (JInt z, rest).
Proof.
  intros Hr Hz.
  pose proof (match_number_int_repr z rest Hr) as Hm.
  assert (Hc : exists c t, int_repr z = c :: t /\ is_digit c || ascii_eqb c "-" = true).
  { destruct (int_repr_cases z) as [E | [(c & ds & E & _ & _ & Hd & _)
                                        | (c & ds & E & _)]]; rewrite E.
    - now exists "0"%char, [].
    - exists c, ds. now rewrite Hd.
    - now exists "-"%char, (c :: ds). }
  destruct Hc as (c & t & E & Hc). rewrite E in Hm |- *. cbn [app] in Hm |- *.
  destruct (number_start_facts c Hc) as (H1 & H2 & H3 & H4 & H5 & H6 & _).
  rewrite scan_once_step, H1, H2, H3.
  cbn [startswith txt list_ascii_of_string].
  rewrite H4, H5, H6. cbn [andb]. rewrite Hm. cbn iota.
  unfold py_int. rewrite <- E, Hz. cbn [bind].
  now rewrite int_of_literal_int_repr.
Qed.

Lemma encode_start (level : nat) (v : json) :
  Forall float_roundtrip (floats_of v) ->
  exists c t, encode level v = c :: t /\ value_start c = true.
Proof.
  intros Hf. destruct v as [|[]|z|f|s|[|x l]|[|kv d]];
    try (eexists; eexists; split; [reflexivity | reflexivity]).
  - simpl encode.
    destruct (int_repr_cases z) as [E | [(c & ds & E & _ & _ & Hd & _)
                                        | (c & ds & E & _)]]; rewrite E.
    + now exists "0"%char, [].
    + exists c, ds. split; [reflexivity|]. unfold value_start. now rewrite Hd.
    + now exists "-"%char, (c :: ds).
  - simpl in Hf. inversion Hf as [|f' l' Hrt _]; subst.
    specialize (Hrt 0 0 [] eq_refl). rewrite app_nil_r in Hrt.
    apply scan_once_start in Hrt. exact Hrt.
Qed.

Lemma skip_ws_encode (level : nat) (v : json) (X : str) :
  Forall float_roundtrip (floats_of v) ->
  skip_ws (encode level v ++ X) = encode level v ++ X.
Proof.
  intros Hf. destruct (encode_start level v Hf) as (c & t & -> & Hc).
  apply value_start_facts in Hc as (Hc & _). now apply skip_ws_start.
Qed.

Lemma array_items_step (fuel depth : nat) (s : str) :
  array_items (S fuel) depth s
  = ' (v, r) <- scan_once fuel depth s ;;
    match skip_ws r with
    | c :: t =>
        if ascii_eqb c "]" then Ok ([v], t)
        else if ascii_eqb c "," then
          ' (vs, r') <- array_items fuel depth (skip_ws t) ;; Ok (v :: vs, r')
        else Raise JSONDecodeError
    | [] => Raise JSONDecodeError
    end.
Proof. reflexivity. Qed.

Lemma object_items_step (fuel depth : nat) (s : str) :
  object_items (S fuel) depth s
  = ' (key, r) <- scanstring s ;;
    match skip_ws r with
    | c :: t =>
        if ascii_eqb c ":" then
          ' (v, r') <- scan_once fuel depth (skip_ws t) ;;
          match skip_ws r' with
          | c' :: t' =>
              if ascii_eqb c' "}" then Ok ([(key, v)], t')
              else if ascii_eqb c' "," then
                match skip_ws t' with
                | q :: t'' =>
                    if ascii_eqb q DQ then
                      ' (kvs, r'') <- object_items fuel depth t'' ;;
                      Ok ((key, v) :: kvs, r'')
                    else Raise JSONDecodeError
                | [] => Raise JSONDecodeError
                end
              else Raise JSONDecodeError
          | [] => Raise JSONDecodeError
          end
        else Raise JSONDecodeError
    | [] => Raise JSONDecodeError
    end.
Proof. reflexivity. Qed.

Lemma join_cons (sep a : str) (ls : list str) :
  join sep (a :: ls) = a ++ join_tail sep ls.
Proof. destruct ls; simpl; [now rewrite app_nil_r | reflexivity]. Qed.

Lemma array_items_last (fuel depth level : nat) (Y rest : str) (v : json) :
  scan_once fuel depth Y = Ok (v, newline_indent level ++ "]"%char :: rest) ->
  array_items (S fuel) depth Y = Ok ([v], rest).
Proof.
  intros H. rewrite array_items_step, H. cbn [bind].
  rewrite skip_ws_newline_indent. reflexivity.
Qed.

Lemma array_items_more (fuel depth level : nat) (Y next rest : str) (v : json)
      (vs : list json) :
  scan_once fuel depth Y = Ok (v, item_sep level ++ next) ->
  skip_ws next = next ->
  array_items fuel depth next = Ok (vs, rest) ->
  array_items (S fuel) depth Y = Ok (v :: vs, rest).
Proof.
  intros H HZ Hvs. rewrite array_items_step, H. cbn [bind].
  unfold item_sep. cbn [txt list_ascii_of_string app].
  rewrite skip_ws_start by reflexivity.
  change (ascii_eqb "," "]") with false. change (ascii_eqb "," ",") with true.
  cbn iota. rewrite skip_ws_newline_indent, HZ, Hvs. reflexivity.
Qed.

Lemma array_items_encode (l : list json) (level : nat) (rest : str) :
  l <> [] ->
  Forall reads_back l -> Forall wf_json l ->
  Forall float_roundtrip (flat_map floats_of l) ->
  forall fuel depth,
    items_weight l <= fuel -> Forall (fits depth) l ->
    array_items fuel depth
      (join (item_sep level) (map (encode (S level)) l)
       ++ newline_indent level ++ "]"%char :: rest)
    = Ok (l, rest).
Proof.
  intros Hne Hrb. induction Hrb as [|x l Hx Hl IH]; [contradiction|].
  intros Hwf Hfl fuel depth Hfuel Hfit. clear Hne.
  inversion Hwf as [|x' l' Hwx Hwl]; subst.
  inversion Hfit as [|x' l' Hfx' Hfl']; subst.
  cbn [flat_map] in Hfl. apply Forall_app in Hfl as [Hfx Hfl].
  cbn [items_weight fold_right] in Hfuel. fold (items_weight l) in Hfuel.
  destruct fuel as [|fuel]; [lia|].
  cbn [map]. rewrite join_cons, <- app_assoc.
  destruct l as [|y l].
  - cbn [map join_tail app]. apply (array_items_last fuel depth level).
    apply Hx; try assumption; [reflexivity | lia].
  - assert (Hfy : Forall float_roundtrip (floats_of y)).
    { cbn [flat_map] in Hfl. now apply Forall_app in Hfl as [Hfy _]. }
    cbn [map join_tail]. rewrite <- app_assoc.
    eapply (array_items_more fuel depth level).
    + apply Hx; try assumption; [reflexivity | lia].
    + rewrite join_cons, <- app_assoc. now apply skip_ws_encode.
    + apply IH; try assumption; [discriminate | lia].
Qed.

Lemma pair_text_app (level : nat) (k : list N) (v : json) (X : str) :
  pair_text level (k, v) ++ X
  = DQ :: flat_map escape_char k ++ DQ :: txt ": " ++ encode (S level) v ++ X.
Proof.
  unfold pair_text, encode_basestring_ascii. cbn [fst snd].
  rewrite <- !app_assoc. cbn [app]. rewrite <- !app_assoc. reflexivity.
Qed.

Lemma object_items_last (fuel depth level : nat) (k : list N) (v : json)
      (Y rest : str) :
  code_points_ok k = true -> skip_ws Y = Y ->
  scan_once fuel depth Y = Ok (v, newline_indent level ++ "}"%char :: rest) ->
  object_items (S fuel) depth (flat_map escape_char k ++ DQ :: txt ": " ++ Y)
  = Ok ([(k, v)], rest).
Proof.
  intros Hk HY H. rewrite object_items_step, scanstring_encoded by assumption.
  cbn [bind txt list_ascii_of_string app].
  rewrite skip_ws_start by reflexivity.
  change (ascii_eqb ":" ":") with true. cbn iota.
  change (skip_ws (" "%char :: Y)) with (skip_ws Y). rewrite HY, H. cbn [bind].
  rewrite skip_ws_newline_indent. reflexivity.
Qed.

Lemma object_items_more (fuel depth level : nat) (k : list N) (v : json)
      (Y next rest : str) (kvs : list (list N * json)) :
  code_points_ok k = true -> skip_ws Y = Y ->
  scan_once fuel depth Y = Ok (v, item_sep level ++ DQ :: next) ->
  object_items fuel depth next = Ok (kvs, rest) ->
  object_items (S fuel) depth (flat_map escape_char k ++ DQ :: txt ": " ++ Y)
  = Ok ((k, v) :: kvs, rest).
Proof.
  intros Hk HY H Hn. rewrite object_items_step, scanstring_encoded by assumption.
  cbn [bind txt list_ascii_of_string app].
  rewrite skip_ws_start by reflexivity.
  change (ascii_eqb ":" ":") with true. cbn iota.
  change (skip_ws (" "%char :: Y)) with (skip_ws Y). rewrite HY, H. cbn [bind].
  unfold item_sep. cbn [txt list_ascii_of_string app].
  rewrite skip_ws_start by reflexivity.
  change (ascii_eqb "," "}") with false. change (ascii_eqb "," ",") with true.
  cbn iota. rewrite skip_ws_newline_indent, skip_ws_start by reflexivity.
  change (ascii_eqb DQ DQ) with true. cbn iota. rewrite Hn. reflexivity.
Qed.

Lemma object_items_encode (d : list (list N * json)) (level : nat) (rest : str) :
  d <> [] ->
  Forall (fun kv => reads_back (snd kv)) d ->
  Forall (fun kv => code_points_ok (fst kv) = true /\ wf_json (snd kv)) d ->
  Forall float_roundtrip (flat_map (fun kv => floats_of (snd kv)) d) ->
  forall fuel depth text,
    pairs_weight d <= fuel -> Forall (fun kv => fits depth (snd kv)) d ->
    DQ :: text = join (item_sep level) (map (pair_text level) d)
                 ++ newline_indent level ++ "}"%char :: rest ->
    object_items fuel depth text = Ok (d, rest).
Proof.
  intros Hne Hrb. induction Hrb as [|[k v] d Hx Hd IH]; [contradiction|].
  intros Hwf Hfl fuel depth text Hfuel Hfit Htext. clear Hne.
  inversion Hwf as [|x' l' [Hk Hwx] Hwl]; subst.
  inversion Hfit as [|x' l' Hfx' Hfl']; subst. cbn [fst snd] in *.
  cbn [flat_map] in Hfl. apply Forall_app in Hfl as [Hfx Hfl].
  cbn [pairs_weight fold_right snd] in Hfuel. fold (pairs_weight d) in Hfuel.
  destruct fuel as [|fuel]; [lia|].
  cbn [map] in Htext. rewrite join_cons, <- app_assoc, pair_text_app in Htext.
  injection Htext as ->.
  destruct d as [|[k2 v2] d].
  - cbn [map join_tail app]. apply (object_items_last fuel depth level); try assumption.
    + now apply skip_ws_encode.
    + apply Hx; try assumption; [reflexivity | lia].
  - cbn [map join_tail]. rewrite <- app_assoc, join_cons, <- app_assoc, pair_text_app.
    eapply (object_items_more fuel depth level); try assumption.
    + now apply skip_ws_encode.
    + apply Hx; try assumption; [reflexivity | lia].
    + apply IH; try assumption; [discriminate | lia |].
      cbn [map]. now rewrite join_cons, <- app_assoc, pair_text_app.
Qed.

Lemma dict_set_fresh (k : list N) (v : json) (acc : list (list N * json)) :
  ~ In k (map fst acc) -> dict_set k v acc = acc ++ [(k, v)].
Proof.
  induction acc as [|[k' v'] acc IH]; intros H; [reflexivity|].
  cbn [dict_set]. destruct (list_eq_dec N.eq_dec k k') as [-> | Hne].
  - exfalso. apply H. now left.
  - cbn [app]. rewrite IH; [reflexivity|]. intros Hin. apply H. now right.
Qed.

Lemma dict_of_pairs_acc (d acc : list (list N * json)) :
  NoDup (map fst (acc ++ d)) ->
  fold_left (fun d kv => dict_set (fst kv) (snd kv) d) d acc = acc ++ d.
Proof.
  revert acc; induction d as [|[k v] d IH]; intros acc H.
  - now rewrite app_nil_r.
  - cbn [fold_left fst snd]. rewrite dict_set_fresh.
    + rewrite IH; rewrite <- app_assoc; [reflexivity | exact H].
    + rewrite map_app in H. cbn [map fst] in H.
      apply NoDup_remove_2 in H. intros Hin. apply H.
      apply in_or_app. now left.
Qed.

(** A [dict] without a repeated key is built from its own items. *)
Lemma dict_of_pairs_nodup (d : list (list N * json)) :
  NoDup (map fst d) -> dict_of_pairs d = d.
Proof. intros H. unfold dict_of_pairs. now rewrite dict_of_pairs_acc. Qed.

(** Every well-formed document is read back from its encoding. *)
Lemma encode_reads_back (v : json) : reads_back v.
Proof.
  induction v as [| b | z | f | s | l IH | d IH] using json_induction;
    intros Hwf Hfl level rest fuel depth Hrest Hfuel Hfit;
    (destruct fuel as [|fuel]; [cbn [weight] in Hfuel; lia|]).
  - reflexivity.
  - destruct b; reflexivity.
  - inversion Hfit as [| | depth' z' Hz | | | |]; subst. now apply scan_once_int.
  - cbn [floats_of] in Hfl. inversion Hfl as [|f' l' Hrt _]; subst.
    now apply Hrt.
  - inversion Hwf as [| | | | s' Hs | |]; subst.
    cbn [encode]. unfold encode_basestring_ascii. cbn [app].
    rewrite scan_once_step. change (ascii_eqb DQ DQ) with true. cbn iota.
    rewrite <- app_assoc. cbn [app]. now rewrite scanstring_encoded.
  - inversion Hwf as [| | | | | l' Hl |]; subst.
    inversion Hfit as [| | | | | depth' l' Hfl' |]; subst.
    destruct l as [|x l]; [reflexivity|].
    cbn [weight] in Hfuel. fold (items_weight (x :: l)) in Hfuel.
    change (encode level (JList (x :: l)))
      with (txt "[" ++ newline_indent (S level)
            ++ join (item_sep level) (map (encode (S level)) (x :: l))
            ++ newline_indent level ++ txt "]").
    cbn [txt list_ascii_of_string app]. rewrite scan_once_step.
    change (ascii_eqb "[" DQ) with false. change (ascii_eqb "[" "{") with false.
    change (ascii_eqb "[" "[") with true. cbn iota.
    rewrite <- !app_assoc, skip_ws_newline_indent. cbn [app].
    assert (Hfx : Forall float_roundtrip (floats_of x)).
    { cbn [floats_of flat_map] in Hfl. now apply Forall_app in Hfl as [Hfx _]. }
    cbn [map]. rewrite join_cons, <- app_assoc, skip_ws_encode by assumption.
    destruct (encode_start (S level) x Hfx) as (c & t & Ec & Hc).
    apply value_start_facts in Hc as (_ & _ & Hc & _).
    rewrite Ec. cbn [app]. rewrite Hc.
    match goal with
    | |- context [c :: t ++ ?X] => change (c :: t ++ X) with ((c :: t) ++ X)
    end.
    rewrite <- Ec.
    rewrite app_assoc, <- join_cons.
    change (encode (S level) x :: map (encode (S level)) l)
      with (map (encode (S level)) (x :: l)).
    rewrite (array_items_encode (x :: l) level rest); try assumption;
      [reflexivity | discriminate | lia].
  - inversion Hwf as [| | | | | | d' Hnd Hd]; subst.
    inversion Hfit as [| | | | | | depth' d' Hfd']; subst.
    destruct d as [|[k x] d]; [reflexivity|].
    cbn [weight] in Hfuel. fold (pairs_weight ((k, x) :: d)) in Hfuel.
    change (encode level (JDict ((k, x) :: d)))
      with (txt "{" ++ newline_indent (S level)
            ++ join (item_sep level) (map (pair_text level) ((k, x) :: d))
            ++ newline_indent level ++ txt "}").
    cbn [txt list_ascii_of_string app]. rewrite scan_once_step.
    change (ascii_eqb "{" DQ) with false. change (ascii_eqb "{" "{") with true.
    cbn iota. rewrite <- !app_assoc, skip_ws_newline_indent. cbn [app].
    cbn [map]. rewrite join_cons, <- app_assoc, pair_text_app.
    rewrite skip_ws_start by reflexivity.
    change (ascii_eqb DQ "}") with false. change (ascii_eqb DQ DQ) with true.
    cbn iota.
    rewrite (object_items_encode ((k, x) :: d) level rest); try assumption.
    + cbn [bind]. now rewrite dict_of_pairs_nodup.
    + discriminate.
    + lia.
    + cbn [map]. now rewrite join_cons, <- app_assoc, pair_text_app.
Qed.

(** ** What the decoder returns is well formed *)

Lemma dict_set_keys (k x : list N) (v : json) (d : list (list N * json)) :
  In x (map fst (dict_set k v d)) -> x = k \/ In x (map fst d).
Proof.
  induction d as [|[k' v'] d IH]; cbn [dict_set map fst].
  - intros [<- | []]. now left.
  - destruct (list_eq_dec N.eq_dec k k') as [-> | Hne]; cbn [map fst In].
    + intros [<- | H]; right; [now left | now right].
    + intros [<- | H]; [right; now left|].
      destruct (IH H) as [-> | H']; [now left | right; now right].
Qed.

Lemma dict_set_nodup (k : list N) (v : json) (d : list (list N * json)) :
  NoDup (map fst d) -> NoDup (map fst (dict_set k v d)).
Proof.
  induction d as [|[k' v'] d IH]; cbn [dict_set map fst]; intros H.
  - constructor; [intros [] | constructor].
  - inversion H as [|a l Hnin Hnd]; subst.
    destruct (list_eq_dec N.eq_dec k k') as [-> | Hne]; cbn [map fst].
    + now constructor.
    + constructor; [|now apply IH].
      intros Hin. apply dict_set_keys in Hin as [-> | Hin]; [now apply Hne | now apply Hnin].
Qed.

Lemma dict_set_ok (k : list N) (v : json) (d : list (list N * json)) :
  pair_ok (k, v) -> Forall pair_ok d -> Forall pair_ok (dict_set k v d).
Proof.
  intros Hkv Hd. induction Hd as [|[k' v'] d Hx Hd IH]; cbn [dict_set].
  - constructor; [exact Hkv | constructor].
  - destruct (list_eq_dec N.eq_dec k k') as [-> | Hne].
    + constructor; [|exact Hd]. split; [apply Hx | apply Hkv].
    + now constructor.
Qed.

Lemma dict_of_pairs_wf (pairs : list (list N * json)) :
  Forall pair_ok pairs -> wf_json (JDict (dict_of_pairs pairs)).
Proof.
  intros H. unfold dict_of_pairs.
  assert (Hgen : forall acc,
             NoDup (map fst acc) -> Forall pair_ok acc ->
             NoDup (map fst (fold_left (fun d kv => dict_set (fst kv) (snd kv) d)
                                       pairs acc))
             /\ Forall pair_ok (fold_left (fun d kv => dict_set (fst kv) (snd kv) d)
                                          pairs acc)).
  { induction H as [|[k v] pairs Hkv Hp IH]; intros acc Hnd Hok; [now split|].
    cbn [fold_left fst snd]. apply IH.
    - now apply dict_set_nodup.
    - now apply dict_set_ok. }
  destruct (Hgen []) as [Hnd Hok]; [constructor | constructor |].
  now constructor.
Qed.

Lemma scan_wf (fuel : nat) :
  (forall depth s v r, scan_once fuel depth s = Ok (v, r) -> wf_json v)
  /\ (forall depth s vs r, array_items fuel depth s = Ok (vs, r) ->
                           Forall wf_json vs)
  /\ (forall depth s kvs r, object_items fuel depth s = Ok (kvs, r) ->
                            Forall pair_ok kvs).
Proof.
  induction fuel as [|fuel (IHv & IHa & IHo)]; [repeat split; discriminate|].
  repeat split.
  - intros depth s v r H. destruct s as [|c t]; [discriminate H|].
    rewrite scan_once_step in H.
    destruct (ascii_eqb c DQ).
    { bind_ok H k r' E. injection H as <- <-. constructor.
      now apply scanstring_ok in E. }
    destruct (ascii_eqb c "{").
    { destruct depth as [|depth]; [discriminate H|].
      destruct (skip_ws t) as [|c' t']; [discriminate H|].
      destruct (ascii_eqb c' "}").
      { injection H as <- <-. constructor; constructor. }
      destruct (ascii_eqb c' DQ); [|discriminate H].
      bind_ok H pairs r' E. injection H as <- <-.
      apply dict_of_pairs_wf. now apply IHo in E. }
    destruct (ascii_eqb c "[").
    { destruct depth as [|depth]; [discriminate H|].
      destruct (skip_ws t) as [|c' t']; [discriminate H|].
      destruct (ascii_eqb c' "]").
      { injection H as <- <-. constructor. constructor. }
      bind_ok H vs r' E. injection H as <- <-. constructor. now apply IHa in E. }
    destruct (startswith (txt "null") (c :: t)); [injection H as <- <-; constructor|].
    destruct (startswith (txt "true") (c :: t)); [injection H as <- <-; constructor|].
    destruct (startswith (txt "false") (c :: t)); [injection H as <- <-; constructor|].
    destruct (match_number (c :: t)) as [[[fl lit] r']|].
    { destruct fl; [injection H as <- <-; constructor|].
      destruct (py_int lit) as [z|]; [|discriminate H].
      injection H as <- <-. constructor. }
    destruct (startswith (txt "NaN") (c :: t)); [injection H as <- <-; constructor|].
    destruct (startswith (txt "Infinity") (c :: t));
      [injection H as <- <-; constructor|].
    destruct (startswith (txt "-Infinity") (c :: t));
      [injection H as <- <-; constructor | discriminate H].
  - intros depth s vs r H. rewrite array_items_step in H.
    bind_ok H v r' E. apply IHv in E.
    destruct (skip_ws r') as [|c t]; [discriminate H|].
    destruct (ascii_eqb c "]"); [injection H as <- <-; now repeat constructor|].
    destruct (ascii_eqb c ","); [|discriminate H].
    bind_ok H vs' r'' E'. injection H as <- <-. constructor; [exact E|].
    now apply IHa in E'.
  - intros depth s kvs r H. rewrite object_items_step in H.
    bind_ok H key r' Ek. apply scanstring_ok in Ek.
    destruct (skip_ws r') as [|c t]; [discriminate H|].
    destruct (ascii_eqb c ":"); [|discriminate H].
    bind_ok H v r'' Ev. apply IHv in Ev.
    destruct (skip_ws r'') as [|c' t']; [discriminate H|].
    destruct (ascii_eqb c' "}");
      [injection H as <- <-; constructor; [now split | constructor]|].
    destruct (ascii_eqb c' ","); [|discriminate H].
    destruct (skip_ws t') as [|q t'']; [discriminate H|].
    destruct (ascii_eqb q DQ); [|discriminate H].
    bind_ok H kvs' r3 Eo. injection H as <- <-.
    constructor; [now split | now apply IHo in Eo].
Qed.

Lemma json_loads_wf (x : str) (v : json) : json_loads x = Ok v -> wf_json v.
Proof.
  unfold json_loads. intros H. bind_ok H v' r E.
  destruct (skip_ws r); [|discriminate H]. injection H as <-.
  now apply (scan_wf _) in E.
Qed.

(** ** What the decoder returns is within its limits *)

Lemma length_digits_of_uint (u : Decimal.uint) :
  length (digits_of_uint u) = Decimal.nb_digits u.
Proof. induction u; simpl; [reflexivity | now rewrite IHu ..]. Qed.

Lemma nb_digits_uint_of_digits (ds : str) :
  Decimal.nb_digits (uint_of_digits ds) = length ds.
Proof.
  induction ds as [|c t IH]; [reflexivity|].
  cbn [uint_of_digits length]. unfold digit_of_char.
  destruct (code c - 48)%N as [|p]; [simpl; now rewrite IH|].
  repeat (destruct p as [p|p|]; try (simpl; now rewrite IH)).
Qed.

Lemma filter_all_digits (ds : str) : all_digits ds -> filter is_digit ds = ds.
Proof.
  induction 1 as [|c t Hc Ht IH]; [reflexivity|].
  cbn [filter]. now rewrite Hc, IH.
Qed.

Lemma span_digits_all_digits (s ds r : str) :
  span_digits s = (ds, r) -> all_digits ds.
Proof.
  revert ds r; induction s as [|c t IH]; intros ds r H.
  - injection H as <- <-. constructor.
  - cbn [span_digits] in H. destruct (is_digit c) eqn:Ec.
    + destruct (span_digits t) as [d r'] eqn:E. injection H as <- <-.
      constructor; [exact Ec | now apply (IH d r')].
    + injection H as <- <-. constructor.
Qed.

(** The text of a number without a fraction and without an exponent: an
    optional sign and digits. *)
Lemma match_number_int (s numstr r : str) :
  match_number s = Some (false, numstr, r) ->
  exists sg ds, numstr = sg ++ ds /\ (sg = [] \/ sg = ["-"%char])
                /\ all_digits ds /\ ds <> [].
Proof.
  unfold match_number, scan_sign.
  assert (Hsg : forall sg s1, (sg = [] \/ sg = ["-"%char]) ->
            match scan_int s1 with
            | Some (ds, s2) =>
                let (frac, s3) := scan_frac s2 in
                let (exp, s4) := scan_exp s3 in
                Some (truthy frac || truthy exp, sg ++ ds ++ frac ++ exp, s4)
            | None => None
            end = Some (false, numstr, r) ->
            exists sg ds, numstr = sg ++ ds /\ (sg = [] \/ sg = ["-"%char])
                          /\ all_digits ds /\ ds <> []).
  { intros sg s1 Hs H.
    destruct (scan_int s1) as [[ds s2]|] eqn:Ei; [|discriminate H].
    destruct (scan_frac s2) as [frac s3]. destruct (scan_exp s3) as [ex s4].
    injection H as Hf <- <-.
    apply orb_false_iff in Hf as [Hf He].
    destruct frac; [|discriminate Hf]. destruct ex; [|discriminate He].
    exists sg, ds. rewrite !app_nil_r. split; [reflexivity|]. split; [exact Hs|].
    unfold scan_int in Ei. destruct s1 as [|c t]; [discriminate Ei|].
    destruct (ascii_eqb c "0") eqn:E0.
    - injection Ei as <- <-. apply ascii_eqb_eq in E0. subst c.
      split; [now repeat constructor | discriminate].
    - destruct (is_digit c) eqn:Ec; [|discriminate Ei].
      destruct (span_digits t) as [d r'] eqn:E. injection Ei as <- <-.
      split; [|discriminate]. constructor; [exact Ec|].
      now apply (span_digits_all_digits t d r'). }
  destruct s as [|c t].
  - apply (Hsg [] []). now left.
  - destruct (ascii_eqb c "-") eqn:Ec.
    + apply ascii_eqb_eq in Ec. subst c. apply (Hsg ["-"%char] t). now right.
    + apply (Hsg [] (c :: t)). now left.
Qed.

Lemma all_digits_not_nil (ds : str) :
  all_digits ds -> ds <> [] -> uint_of_digits ds <> Decimal.Nil.
Proof.
  intros _ Hne E. apply (f_equal Decimal.nb_digits) in E.
  rewrite nb_digits_uint_of_digits in E. destruct ds; [now apply Hne | discriminate E].
Qed.

(** [int.__repr__] writes no more digits than the literal had. *)
Lemma int_repr_digits (sg ds : str) :
  (sg = [] \/ sg = ["-"%char]) -> all_digits ds -> ds <> [] ->
  length (filter is_digit (int_repr (int_of_literal (sg ++ ds)))) <= length ds.
Proof.
  intros Hsg Hds Hne.
  pose proof (all_digits_not_nil ds Hds Hne) as Hnil.
  pose proof (nb_digits_uint_of_digits ds) as Hlen.
  assert (Hpos : int_of_literal ds = Z.of_int (Decimal.Pos (uint_of_digits ds))).
  { destruct ds as [|c t]; [now contradiction Hne|].
    inversion Hds as [|c' t' Hc _]; subst. unfold int_of_literal.
    destruct (ascii_eqb c "-") eqn:E; [|reflexivity].
    apply ascii_eqb_eq in E. subst c. discriminate Hc. }
  unfold int_repr. destruct Hsg as [-> | ->]; cbn [app].
  - rewrite Hpos, DecimalZ.to_of. cbn [Decimal.norm].
    rewrite filter_all_digits by apply digits_of_uint_all_digits.
    rewrite length_digits_of_uint, <- Hlen.
    now apply DecimalFacts.nb_digits_unorm.
  - unfold int_of_literal. change (ascii_eqb "-" "-") with true. cbn iota.
    rewrite DecimalZ.to_of. cbn [Decimal.norm].
    pose proof (DecimalFacts.nb_digits_nzhead (uint_of_digits ds)) as Hnz.
    destruct (Decimal.nzhead (uint_of_digits ds)) as [|u|u|u|u|u|u|u|u|u|u] eqn:En;
      [destruct ds; [now contradiction Hne | simpl; lia] | ..];
      cbn [filter is_digit]; change (is_digit "-") with false; cbn iota;
      rewrite filter_all_digits by apply digits_of_uint_all_digits;
      rewrite length_digits_of_uint, <- Hlen; exact Hnz.
Qed.

Lemma int_too_long_le (a b : str) :
  length (filter is_digit a) <= length (filter is_digit b) ->
  int_too_long b = false -> int_too_long a = false.
Proof.
  unfold int_too_long. intros Hle H.
  destruct (Nat.ltb_spec 0 int_max_str_digits) as [H0 | H0];
    [|now rewrite andb_false_r].
  rewrite andb_true_r in H |- *.
  apply andb_false_iff in H. apply andb_false_iff.
  destruct H as [H | H]; apply Nat.ltb_ge in H; [left | right];
    apply Nat.ltb_ge; lia.
Qed.

(** An [int] the scanner accepted is written within the limit on digits. *)
Lemma py_int_fits (s numstr r : str) (z : Z) :
  match_number s = Some (false, numstr, r) -> py_int numstr = Ok z ->
  int_too_long (int_repr z) = false.
Proof.
  intros Hm Hz. unfold py_int in Hz.
  destruct (int_too_long numstr) eqn:Hl; [discriminate Hz|]. injection Hz as <-.
  apply match_number_int in Hm as (sg & ds & -> & Hsg & Hds & Hne).
  apply (int_too_long_le _ (sg ++ ds)); [|exact Hl].
  etransitivity; [now apply int_repr_digits|].
  rewrite filter_app, length_app, (filter_all_digits ds Hds). lia.
Qed.

Lemma dict_set_values (Q : json -> Prop) (k : list N) (v : json)
      (d : list (list N * json)) :
  Q v -> Forall (fun kv => Q (snd kv)) d ->
  Forall (fun kv => Q (snd kv)) (dict_set k v d).
Proof.
  intros Hv Hd. induction Hd as [|[k' v'] d Hx Hd IH]; cbn [dict_set].
  - constructor; [exact Hv | constructor].
  - destruct (list_eq_dec N.eq_dec k k'); now constructor.
Qed.

Lemma dict_of_pairs_values (Q : json -> Prop) (pairs : list (list N * json)) :
  Forall (fun kv => Q (snd kv)) pairs ->
  Forall (fun kv => Q (snd kv)) (dict_of_pairs pairs).
Proof.
  intros H. unfold dict_of_pairs.
  assert (Hgen : forall acc,
             Forall (fun kv => Q (snd kv)) acc ->
             Forall (fun kv => Q (snd kv))
                    (fold_left (fun d kv => dict_set (fst kv) (snd kv) d) pairs acc)).
  { induction H as [|[k v] pairs Hkv Hp IH]; intros acc Hacc; [exact Hacc|].
    cbn [fold_left fst snd]. apply IH. now apply dict_set_values. }
  apply Hgen. constructor.
Qed.

Lemma scan_fits (fuel : nat) :
  (forall depth s v r, scan_once fuel depth s = Ok (v, r) -> fits depth v)
  /\ (forall depth s vs r, array_items fuel depth s = Ok (vs, r) ->
                           Forall (fits depth) vs)
  /\ (forall depth s kvs r, object_items fuel depth s = Ok (kvs, r) ->
                            Forall (fun kv => fits depth (snd kv)) kvs).
Proof.
  induction fuel as [|fuel (IHv & IHa & IHo)]; [repeat split; discriminate|].
  repeat split.
  - intros depth s v r H. destruct s as [|c t]; [discriminate H|].
    rewrite scan_once_step in H.
    destruct (ascii_eqb c DQ).
    { bind_ok H k r' E. injection H as <- <-. constructor. }
    destruct (ascii_eqb c "{").
    { destruct depth as [|depth]; [discriminate H|].
      destruct (skip_ws t) as [|c' t']; [discriminate H|].
      destruct (ascii_eqb c' "}").
      { injection H as <- <-. constructor; constructor. }
      destruct (ascii_eqb c' DQ); [|discriminate H].
      bind_ok H pairs r' E. injection H as <- <-. constructor.
      apply (dict_of_pairs_values (fits depth)). now apply IHo in E. }
    destruct (ascii_eqb c "[").
    { destruct depth as [|depth]; [discriminate H|].
      destruct (skip_ws t) as [|c' t']; [discriminate H|].
      destruct (ascii_eqb c' "]").
      { injection H as <- <-. constructor. constructor. }
      bind_ok H vs r' E. injection H as <- <-. constructor. now apply IHa in E. }
    destruct (startswith (txt "null") (c :: t)); [injection H as <- <-; constructor|].
    destruct (startswith (txt "true") (c :: t)); [injection H as <- <-; constructor|].
    destruct (startswith (txt "false") (c :: t)); [injection H as <- <-; constructor|].
    destruct (match_number (c :: t)) as [[[fl lit] r']|] eqn:Em.
    { destruct fl; [injection H as <- <-; constructor|].
      destruct (py_int lit) as [z|] eqn:Ez; [|discriminate H].
      injection H as <- <-. constructor. now apply (py_int_fits (c :: t) lit r'). }
    destruct (startswith (txt "NaN") (c :: t)); [injection H as <- <-; constructor|].
    destruct (startswith (txt "Infinity") (c :: t));
      [injection H as <- <-; constructor|].
    destruct (startswith (txt "-Infinity") (c :: t));
      [injection H as <- <-; constructor | discriminate H].
  - intros depth s vs r H. rewrite array_items_step in H.
    bind_ok H v r' E. apply IHv in E.
    destruct (skip_ws r') as [|c t]; [discriminate H|].
    destruct (ascii_eqb c "]"); [injection H as <- <-; now repeat constructor|].
    destruct (ascii_eqb c ","); [|discriminate H].
    bind_ok H vs' r'' E'. injection H as <- <-. constructor; [exact E|].
    now apply IHa in E'.
  - intros depth s kvs r H. rewrite object_items_step in H.
    bind_ok H key r' Ek.
    destruct (skip_ws r') as [|c t]; [discriminate H|].
    destruct (ascii_eqb c ":"); [|discriminate H].
    bind_ok H v r'' Ev. apply IHv in Ev.
    destruct (skip_ws r'') as [|c' t']; [discriminate H|].
    destruct (ascii_eqb c' "}");
      [injection H as <- <-; constructor; [exact Ev | constructor]|].
    destruct (ascii_eqb c' ","); [|discriminate H].
    destruct (skip_ws t') as [|q t'']; [discriminate H|].
    destruct (ascii_eqb q DQ); [|discriminate H].
    bind_ok H kvs' r3 Eo. injection H as <- <-.
    constructor; [exact Ev | now apply IHo in Eo].
Qed.

Lemma json_loads_fits (x : str) (v : json) :
  json_loads x = Ok v -> fits decoder_depth v.
Proof.
  unfold json_loads. intros H. bind_ok H v' r E.
  destruct (skip_ws r); [|discriminate H]. injection H as <-.
  now apply (scan_fits _) in E.
Qed.

(** ** Enough fuel *)

Lemma length_newline_indent (level : nat) : length (newline_indent level) = S (2 * level).
Proof. unfold newline_indent. cbn [length]. now rewrite repeat_length. Qed.

Lemma join_weight_bound {A} (w : A -> nat) (enc : A -> str) (sep : str) (l : list A) :
  sep <> [] ->
  Forall (fun a => w a <= length (enc a)) l ->
  fold_right (fun a n => S (w a + n)) 0 l <= S (length (join sep (map enc l))).
Proof.
  intros Hsep H. induction H as [|a l Ha Hl IH]; [simpl; lia|].
  cbn [fold_right map]. rewrite join_cons, length_app.
  destruct l as [|b l].
  - simpl. lia.
  - cbn [join_tail map]. rewrite length_app.
    cbn [fold_right map] in IH |- *.
    destruct sep; [contradiction|]. cbn [length]. lia.
Qed.

Lemma weight_le_length (v : json) :
  Forall float_roundtrip (floats_of v) ->
  forall level, weight v <= length (encode level v).
Proof.
  induction v as [| b | z | f | s | l IH | d IH] using json_induction;
    intros Hfl level.
  - simpl. lia.
  - destruct b; simpl; lia.
  - destruct (encode_start level (JInt z) Hfl) as (c & t & -> & _). simpl. lia.
  - destruct (encode_start level (JFloat f) Hfl) as (c & t & -> & _). simpl. lia.
  - simpl. lia.
  - destruct l as [|x l]; [simpl; lia|].
    change (encode level (JList (x :: l)))
      with (txt "[" ++ newline_indent (S level)
            ++ join (item_sep level) (map (encode (S level)) (x :: l))
            ++ newline_indent level ++ txt "]").
    rewrite !length_app, !length_newline_indent. cbn [weight].
    assert (Hb : fold_right (fun a n => S (weight a + n)) 0 (x :: l)
                 <= S (length (join (item_sep level)
                                    (map (encode (S level)) (x :: l))))).
    { apply join_weight_bound; [discriminate|].
      cbn [floats_of] in Hfl. revert Hfl. generalize (x :: l) IH.
      intros l0 IH0. induction IH0 as [|a l0 Ha Hl0 IHl0]; intros Hfl; constructor.
      - apply Ha. cbn [flat_map] in Hfl. now apply Forall_app in Hfl as [Hfl _].
      - apply IHl0. cbn [flat_map] in Hfl. now apply Forall_app in Hfl as [_ Hfl]. }
    change (length (txt "[")) with 1. change (length (txt "]")) with 1. lia.
  - destruct d as [|kv d]; [simpl; lia|].
    change (encode level (JDict (kv :: d)))
      with (txt "{" ++ newline_indent (S level)
            ++ join (item_sep level) (map (pair_text level) (kv :: d))
            ++ newline_indent level ++ txt "}").
    rewrite !length_app, !length_newline_indent. cbn [weight].
    assert (Hb : fold_right (fun a n => S (weight (snd a) + n)) 0 (kv :: d)
                 <= S (length (join (item_sep level)
                                    (map (pair_text level) (kv :: d))))).
    { apply (join_weight_bound (fun a => weight (snd a))); [discriminate|].
      cbn [floats_of] in Hfl. revert Hfl. generalize (kv :: d) IH.
      intros l0 IH0. induction IH0 as [|a l0 Ha Hl0 IHl0]; intros Hfl; constructor.
      - unfold pair_text. rewrite !length_app.
        cbn [flat_map] in Hfl. apply Forall_app in Hfl as [Hfl _].
        specialize (Ha Hfl (S level)). lia.
      - apply IHl0. cbn [flat_map] in Hfl. now apply Forall_app in Hfl as [_ Hfl]. }
    change (length (txt "{")) with 1. change (length (txt "}")) with 1. lia.
Qed.

(** The encoding of what was decoded decodes to the same document: the
    limits that let the text through let its encoding through. *)
Lemma json_loads_encode (x : str) (v : json) :
  json_loads x = Ok v ->
  Forall float_roundtrip (floats_of v) ->
  json_loads (encode 0 v) = Ok v.
Proof.
  intros Hx Hfl. pose proof (json_loads_wf x v Hx) as Hwf.
  pose proof (json_loads_fits x v Hx) as Hfit.
  unfold json_loads.
  rewrite <- (app_nil_r (encode 0 v)) at 2.
  rewrite skip_ws_encode by assumption.
  rewrite (encode_reads_back v Hwf Hfl 0 []); [reflexivity | reflexivity | | exact Hfit].
  pose proof (weight_le_length v Hfl 0). lia.
Qed.

End JsonRoundTrip.

(** ** The decoder always has fuel

    The fuel of [scan_once] only makes its recursion structural: the
    amount [json_loads] gives is never used up, and any larger amount
    gives the same result.  The recursion limit of the interpreter is the
    [depth] of the scanner, not its fuel. *)

Lemma skip_ws_length (s : str) : length (skip_ws s) <= length s.
Proof.
  induction s as [|c t IH]; [reflexivity|].
  cbn [skip_ws]. destruct (is_json_ws c); simpl; lia.
Qed.

Lemma then_cons_raise (x : N) (m : result (list N * str)) (e : exn) :
  then_cons x m = Raise e -> m = Raise e.
Proof.
  unfold then_cons. destruct m as [[k r]|e']; [discriminate|].
  cbn [bind]. congruence.
Qed.

Lemma scanstring_length_gen (n : nat) :
  forall (s : str) (k : list N) (r : str),
    length s <= n -> scanstring s = Ok (k, r) -> length r < length s.
Proof.
  induction n as [|n IH]; intros s k r Hn H.
  { destruct s; [discriminate H | simpl in Hn; lia]. }
  destruct s as [|c t]; [discriminate H|]. simpl in Hn.
  destruct (ascii_eqb c DQ) eqn:Eq.
  { cbn [scanstring] in H. rewrite Eq in H. injection H as <- <-. simpl. lia. }
  destruct (ascii_eqb c BS) eqn:Eb.
  - apply ascii_eqb_eq in Eb. subst c.
    destruct t as [|e t1]; [discriminate H|].
    destruct (ascii_eqb e "u") eqn:Eu.
    + apply ascii_eqb_eq in Eu. subst e.
      destruct t1 as [|h1 [|h2 [|h3 [|h4 t5]]]]; try discriminate H.
      apply scanstring_u_ok in H as (u & Hu & [Hone | Hpair]).
      * destruct Hone as (k1 & Hk1 & _).
        apply IH in Hk1; [|simpl in Hn; lia]. simpl. lia.
      * destruct Hpair as (u2 & k1 & t11 & _ & _ & Hlen & Hk1 & _).
        apply IH in Hk1; [|simpl in Hn; lia]. simpl. lia.
    + destruct (unescape e) as [x|] eqn:Ex.
      2:{ cbn [scanstring] in H.
          change (ascii_eqb BS DQ) with false in H.
          change (ascii_eqb BS BS) with true in H. cbn iota in H.
          rewrite Eu, Ex in H. discriminate H. }
      rewrite (scanstring_escape e x t1 Ex) in H.
      apply then_cons_ok in H as (k1 & Hk1 & _).
      apply IH in Hk1; [|simpl in Hn; lia]. simpl. lia.
  - destruct (code c <=? 31)%N eqn:Ec.
    { cbn [scanstring] in H. rewrite Eq, Eb, Ec in H. discriminate H. }
    rewrite (scanstring_raw c t Eq Eb Ec) in H.
    apply then_cons_ok in H as (k1 & Hk1 & _).
    apply IH in Hk1; [|lia]. simpl. lia.
Qed.

Lemma scanstring_length (s : str) (k : list N) (r : str) :
  scanstring s = Ok (k, r) -> length r < length s.
Proof. apply (scanstring_length_gen (length s)). lia. Qed.

Lemma span_digits_length (s ds r : str) :
  span_digits s = (ds, r) -> length r <= length s.
Proof.
  revert ds r; induction s as [|c t IH]; intros ds r H.
  - injection H as <- <-. reflexivity.
  - cbn [span_digits] in H. destruct (is_digit c).
    + destruct (span_digits t) as [d r'] eqn:E. injection H as <- <-.
      specialize (IH d r' eq_refl). simpl. lia.
    + injection H as <- <-. reflexivity.
Qed.

Lemma scan_frac_length (s f r : str) : scan_frac s = (f, r) -> length r <= length s.
Proof.
  unfold scan_frac.
  destruct s as [|p [|d t]]; try (intros H; injection H as <- <-; lia).
  destruct (ascii_eqb p "." && is_digit d).
  - destruct (span_digits t) as [ds r'] eqn:E. intros H. injection H as <- <-.
    apply span_digits_length in E. simpl. lia.
  - intros H. injection H as <- <-. lia.
Qed.

Lemma scan_exp_length (s f r : str) : scan_exp s = (f, r) -> length r <= length s.
Proof.
  unfold scan_exp. destruct s as [|e t]; [intros H; injection H as <- <-; lia|].
  destruct (ascii_eqb e "e" || ascii_eqb e "E");
    [|intros H; injection H as <- <-; lia].
  destruct (match t with
            | x :: y :: r0 =>
                if ascii_eqb x "-" || ascii_eqb x "+" then ([x], y :: r0) else ([], t)
            | _ => ([], t)
            end) as [sg t'] eqn:Esg.
  assert (Hsg : length t' <= length t).
  { destruct t as [|x [|y r0]]; try (injection Esg as <- <-; lia).
    destruct (ascii_eqb x "-" || ascii_eqb x "+"); injection Esg as <- <-;
      simpl; lia. }
  destruct (span_digits t') as [ds r'] eqn:E. apply span_digits_length in E.
  destruct ds; intros H; injection H as <- <-; simpl; lia.
Qed.

Lemma match_number_length (s : str) (fl : bool) (lit r : str) :
  match_number s = Some (fl, lit, r) -> length r < length s.
Proof.
  unfold match_number.
  destruct (scan_sign s) as [sg s1] eqn:Es.
  assert (H1 : length s1 <= length s).
  { unfold scan_sign in Es. destruct s as [|c t]; [injection Es as <- <-; lia|].
    destruct (ascii_eqb c "-"); injection Es as <- <-; simpl; lia. }
  destruct (scan_int s1) as [[ds s2]|] eqn:Ei; [|discriminate].
  assert (H2 : length s2 < length s1).
  { unfold scan_int in Ei. destruct s1 as [|c t]; [discriminate Ei|].
    destruct (ascii_eqb c "0"); [injection Ei as <- <-; simpl; lia|].
    destruct (is_digit c); [|discriminate Ei].
    destruct (span_digits t) as [d r'] eqn:E. injection Ei as <- <-.
    apply span_digits_length in E. simpl. lia. }
  destruct (scan_frac s2) as [frac s3] eqn:Ef. apply scan_frac_length in Ef.
  destruct (scan_exp s3) as [ex s4] eqn:Ee. apply scan_exp_length in Ee.
  intros H. injection H as _ _ <-. lia.
Qed.

Lemma skipn_shorter (n : nat) (c : ascii) (t : str) :
  length (skipn (S n) (c :: t)) < length (c :: t).
Proof. rewrite length_skipn. simpl. lia. Qed.

Lemma scanstring_has_fuel (s : str) : scanstring s <> Raise OutOfFuel.
Proof.
  remember (length s) as n eqn:En.
  assert (Hn : length s <= n) by lia. clear En.
  revert s Hn; induction n as [|n IH]; intros s Hn.
  { destruct s; [discriminate | simpl in Hn; lia]. }
  assert (Hc : forall x t, length t <= n ->
                           then_cons x (scanstring t) <> Raise OutOfFuel).
  { intros x t Ht H. apply then_cons_raise in H. now apply (IH t Ht). }
  destruct s as [|c t]; [discriminate|]. simpl in Hn. cbn [scanstring].
  destruct (ascii_eqb c DQ); [discriminate|].
  destruct (ascii_eqb c BS).
  - destruct t as [|e t1]; [discriminate|].
    destruct (ascii_eqb e "u").
    + destruct t1 as [|h1 [|h2 [|h3 [|h4 t5]]]]; try discriminate.
      destruct (hex4 h1 h2 h3 h4) as [u|]; [|discriminate].
      assert (H5 : then_cons u (scanstring t5) <> Raise OutOfFuel)
        by (apply Hc; simpl in Hn; lia).
      destruct t5 as [|b [|v [|g1 [|g2 [|g3 [|g4 t11]]]]]]; try exact H5.
      destruct (is_high_surrogate u && truthy t11 && ascii_eqb b BS
                && ascii_eqb v "u"); [|exact H5].
      destruct (hex4 g1 g2 g3 g4) as [u2|]; [|discriminate].
      destruct (is_low_surrogate u2); [|exact H5].
      apply (Hc (join_surrogates u u2)). simpl in Hn. lia.
    + destruct (unescape e) as [x|]; [|discriminate].
      apply (Hc x). simpl in Hn. lia.
  - destruct (code c <=? 31)%N; [discriminate|]. apply (Hc (code c)). lia.
Qed.

Lemma bind_raise {A B : Type} (m : result A) (k : A -> result B) (e : exn) :
  m <> Raise e -> (forall a, m = Ok a -> k a <> Raise e) -> bind m k <> Raise e.
Proof.
  intros Hm Hk. destruct m as [a|e']; cbn [bind]; [now apply Hk|].
  intros H. apply Hm. congruence.
Qed.

Lemma bind_more {A B : Type} (m m' : result A) (k k' : A -> result B) (e : exn) :
  (m <> Raise e -> m' = m) ->
  (forall a, m = Ok a -> k a <> Raise e -> k' a = k a) ->
  bind m k <> Raise e -> bind m' k' = bind m k.
Proof.
  intros Hm Hk H. destruct m as [a|e0]; cbn [bind] in *.
  - rewrite Hm by discriminate. cbn [bind]. now apply Hk.
  - rewrite Hm; [reflexivity|]. intros E. apply H. congruence.
Qed.

Section Fuel.

Context {PF : PyFloat} {PL : PyLimits}.

Lemma scan_length (fuel : nat) :
  (forall depth s v r, scan_once fuel depth s = Ok (v, r) -> length r < length s)
  /\ (forall depth s vs r, array_items fuel depth s = Ok (vs, r) ->
                           length r < length s)
  /\ (forall depth s kvs r, object_items fuel depth s = Ok (kvs, r) ->
                            length r < length s).
Proof.
  induction fuel as [|fuel (IHv & IHa & IHo)]; [repeat split; discriminate|].
  repeat split.
  - intros depth s v r H. destruct s as [|c t]; [discriminate H|].
    rewrite scan_once_step in H.
    destruct (ascii_eqb c DQ).
    { bind_ok H k r' E. injection H as <- <-.
      apply scanstring_length in E. simpl. lia. }
    destruct (ascii_eqb c "{").
    { destruct depth as [|depth]; [discriminate H|].
      pose proof (skip_ws_length t) as Hs.
      destruct (skip_ws t) as [|c' t']; [discriminate H|].
      destruct (ascii_eqb c' "}"); [injection H as <- <-; simpl in *; lia|].
      destruct (ascii_eqb c' DQ); [|discriminate H].
      bind_ok H pairs r' E. injection H as <- <-.
      apply IHo in E. simpl in *. lia. }
    destruct (ascii_eqb c "[").
    { destruct depth as [|depth]; [discriminate H|].
      pose proof (skip_ws_length t) as Hs.
      destruct (skip_ws t) as [|c' t']; [discriminate H|].
      destruct (ascii_eqb c' "]"); [injection H as <- <-; simpl in *; lia|].
      bind_ok H vs r' E. injection H as <- <-. apply IHa in E. simpl in *. lia. }
    destruct (startswith (txt "null") (c :: t));
      [injection H as <- <-; apply (skipn_shorter 3 c t)|].
    destruct (startswith (txt "true") (c :: t));
      [injection H as <- <-; apply (skipn_shorter 3 c t)|].
    destruct (startswith (txt "false") (c :: t));
      [injection H as <- <-; apply (skipn_shorter 4 c t)|].
    destruct (match_number (c :: t)) as [[[fl lit] r']|] eqn:Em.
    { apply match_number_length in Em.
      destruct fl; [now injection H as <- <-|].
      destruct (py_int lit) as [z|]; [|discriminate H]. now injection H as <- <-. }
    destruct (startswith (txt "NaN") (c :: t));
      [injection H as <- <-; apply (skipn_shorter 2 c t)|].
    destruct (startswith (txt "Infinity") (c :: t));
      [injection H as <- <-; apply (skipn_shorter 7 c t)|].
    destruct (startswith (txt "-Infinity") (c :: t));
      [injection H as <- <-; apply (skipn_shorter 8 c t) | discriminate H].
  - intros depth s vs r H. rewrite array_items_step in H.
    bind_ok H v r' E. apply IHv in E.
    pose proof (skip_ws_length r') as Hs.
    destruct (skip_ws r') as [|c t]; [discriminate H|].
    destruct (ascii_eqb c "]"); [injection H as <- <-; simpl in *; lia|].
    destruct (ascii_eqb c ","); [|discriminate H].
    pose proof (skip_ws_length t).
    bind_ok H vs' r'' E'. injection H as <- <-. apply IHa in E'.
    simpl in *. lia.
  - intros depth s kvs r H. rewrite object_items_step in H.
    bind_ok H key r' Ek. apply scanstring_length in Ek.
    pose proof (skip_ws_length r') as Hs.
    destruct (skip_ws r') as [|c t]; [discriminate H|].
    destruct (ascii_eqb c ":"); [|discriminate H].
    pose proof (skip_ws_length t) as Hs2.
    bind_ok H v r'' Ev. apply IHv in Ev. 
    pose proof (skip_ws_length r'') as Hs3.
    destruct (skip_ws r'') as [|c' t']; [discriminate H|].
    destruct (ascii_eqb c' "}"); [injection H as <- <-; simpl in *; lia|].
    destruct (ascii_eqb c' ","); [|discriminate H].
    pose proof (skip_ws_length t') as Hs4.
    destruct (skip_ws t') as [|q t'']; [discriminate H|].
    destruct (ascii_eqb q DQ); [|discriminate H].
    bind_ok H kvs' r3 Eo. injection H as <- <-. apply IHo in Eo.
    simpl in *. lia.
Qed.

(** With twice the length of the text as fuel, no call runs out. *)
Lemma scan_fuel (fuel : nat) :
  (forall depth s, 2 * length s + 1 <= fuel ->
                   scan_once fuel depth s <> Raise OutOfFuel)
  /\ (forall depth s, 2 * length s + 2 <= fuel ->
                      array_items fuel depth s <> Raise OutOfFuel)
  /\ (forall depth s, 2 * length s + 2 <= fuel ->
                      object_items fuel depth s <> Raise OutOfFuel).
Proof.
  induction fuel as [|fuel (IHv & IHa & IHo)]; [repeat split; intros; lia|].
  pose proof (scan_length fuel) as (Lv & La & Lo).
  repeat split.
  - intros depth s Hf. destruct s as [|c t]; [discriminate|].
    rewrite scan_once_step. cbn [length] in Hf.
    destruct (ascii_eqb c DQ).
    { apply bind_raise; [apply scanstring_has_fuel|].
      intros [k r] _. discriminate. }
    destruct (ascii_eqb c "{").
    { destruct depth as [|depth]; [discriminate|].
      pose proof (skip_ws_length t) as Hs.
      destruct (skip_ws t) as [|c' t']; [discriminate|].
      destruct (ascii_eqb c' "}"); [discriminate|].
      destruct (ascii_eqb c' DQ); [|discriminate].
      apply bind_raise; [apply IHo; simpl in *; lia|].
      intros [k r] _. discriminate. }
    destruct (ascii_eqb c "[").
    { destruct depth as [|depth]; [discriminate|].
      pose proof (skip_ws_length t) as Hs.
      destruct (skip_ws t) as [|c' t']; [discriminate|].
      destruct (ascii_eqb c' "]"); [discriminate|].
      apply bind_raise; [apply IHa; simpl in *; lia|].
      intros [k r] _. discriminate. }
    destruct (startswith (txt "null") (c :: t)); [discriminate|].
    destruct (startswith (txt "true") (c :: t)); [discriminate|].
    destruct (startswith (txt "false") (c :: t)); [discriminate|].
    destruct (match_number (c :: t)) as [[[fl lit] r']|].
    { destruct fl; [discriminate|]. unfold py_int.
      destruct (int_too_long lit); discriminate. }
    destruct (startswith (txt "NaN") (c :: t)); [discriminate|].
    destruct (startswith (txt "Infinity") (c :: t)); [discriminate|].
    destruct (startswith (txt "-Infinity") (c :: t)); discriminate.
  - intros depth s Hf. rewrite array_items_step.
    apply bind_raise; [apply IHv; lia|].
    intros [v r'] E. apply Lv in E.
    pose proof (skip_ws_length r') as Hs.
    destruct (skip_ws r') as [|c t]; [discriminate|].
    destruct (ascii_eqb c "]"); [discriminate|].
    destruct (ascii_eqb c ","); [|discriminate].
    pose proof (skip_ws_length t) as Hs2.
    apply bind_raise; [apply IHa; simpl in *; lia|].
    intros [k r] _. discriminate.
  - intros depth s Hf. rewrite object_items_step.
    apply bind_raise; [apply scanstring_has_fuel|].
    intros [key r'] Ek. apply scanstring_length in Ek.
    pose proof (skip_ws_length r') as Hs.
    destruct (skip_ws r') as [|c t]; [discriminate|].
    destruct (ascii_eqb c ":"); [|discriminate].
    pose proof (skip_ws_length t) as Hs2.
    apply bind_raise; [apply IHv; simpl in *; lia|].
    intros [v r''] Ev. apply Lv in Ev.
    pose proof (skip_ws_length r'') as Hs3.
    destruct (skip_ws r'') as [|c' t']; [discriminate|].
    destruct (ascii_eqb c' "}"); [discriminate|].
    destruct (ascii_eqb c' ","); [|discriminate].
    pose proof (skip_ws_length t') as Hs4.
    destruct (skip_ws t') as [|q t'']; [discriminate|].
    destruct (ascii_eqb q DQ); [|discriminate].
    apply bind_raise; [apply IHo; simpl in *; lia|].
    intros [k r] _. discriminate.
Qed.

(** The fuel [json_loads] gives is enough for every text: it never fails
    for lack of fuel. *)
Lemma json_loads_fuel (x : str) : json_loads x <> Raise OutOfFuel.
Proof.
  unfold json_loads. pose proof (skip_ws_length x) as Hs.
  destruct (scan_fuel (2 * length x + 2)) as (Hv & _).
  apply bind_raise; [apply Hv; lia|].
  intros [v r] _. destruct (skip_ws r); discriminate.
Qed.


(** More fuel does not change a result obtained without running out. *)
Lemma scan_more_fuel (fuel : nat) :
  (forall depth s, scan_once fuel depth s <> Raise OutOfFuel ->
                   scan_once (S fuel) depth s = scan_once fuel depth s)
  /\ (forall depth s, array_items fuel depth s <> Raise OutOfFuel ->
                      array_items (S fuel) depth s = array_items fuel depth s)
  /\ (forall depth s, object_items fuel depth s <> Raise OutOfFuel ->
                      object_items (S fuel) depth s = object_items fuel depth s).
Proof.
  induction fuel as [|fuel (IHv & IHa & IHo)];
    [repeat split; intros depth s H; now contradiction H|].
  repeat split.
  - intros depth s. destruct s as [|c t]; [reflexivity|].
    rewrite !scan_once_step.
    destruct (ascii_eqb c DQ); [reflexivity|].
    destruct (ascii_eqb c "{").
    { destruct depth as [|depth]; [reflexivity|].
      destruct (skip_ws t) as [|c' t']; [reflexivity|].
      destruct (ascii_eqb c' "}"); [reflexivity|].
      destruct (ascii_eqb c' DQ); [|reflexivity].
      apply bind_more; [apply IHo | reflexivity]. }
    destruct (ascii_eqb c "["); [|reflexivity].
    destruct depth as [|depth]; [reflexivity|].
    destruct (skip_ws t) as [|c' t']; [reflexivity|].
    destruct (ascii_eqb c' "]"); [reflexivity|].
    apply bind_more; [apply IHa | reflexivity].
  - intros depth s. rewrite !array_items_step.
    apply bind_more; [apply IHv|].
    intros [v r] _. destruct (skip_ws r) as [|c t]; [reflexivity|].
    destruct (ascii_eqb c "]"); [reflexivity|].
    destruct (ascii_eqb c ","); [|reflexivity].
    apply bind_more; [apply IHa | reflexivity].
  - intros depth s. rewrite !object_items_step.
    apply bind_more; [reflexivity|].
    intros [key r] _. destruct (skip_ws r) as [|c t]; [reflexivity|].
    destruct (ascii_eqb c ":"); [|reflexivity].
    apply bind_more; [apply IHv|].
    intros [v r'] _. destruct (skip_ws r') as [|c' t']; [reflexivity|].
    destruct (ascii_eqb c' "}"); [reflexivity|].
    destruct (ascii_eqb c' ","); [|reflexivity].
    destruct (skip_ws t') as [|q t'']; [reflexivity|].
    destruct (ascii_eqb q DQ); [|reflexivity].
    apply bind_more; [apply IHo | reflexivity].
Qed.

(** [json_loads] gives the result of the decoder with any larger fuel:
    the fuel only makes the recursion structural. *)
Lemma json_loads_any_fuel (x : str) (n : nat) :
  json_loads x
  = ' (v, r) <- scan_once (n + (2 * length x + 2)) decoder_depth (skip_ws x) ;;
    match skip_ws r with
    | [] => Ok v
    | _ :: _ => Raise JSONDecodeError
    end.
Proof.
  unfold json_loads. f_equal.
  pose proof (skip_ws_length x) as Hs.
  induction n as [|n IH]; [reflexivity|].
  cbn [Nat.add]. destruct (scan_more_fuel (n + (2 * length x + 2))) as (Hv & _).
  rewrite Hv; [exact IH|]. rewrite <- IH.
  destruct (scan_fuel (2 * length x + 2)) as (Hf & _). apply Hf. lia.
Qed.

End Fuel.

(** ** A block that parses as JSON has a non-blank line *)

Lemma has_ink_nonblank_line (x : str) :
  has_ink x = true -> filter (fun line => truthy (strip line)) (splitlines x) <> [].
Proof.
  remember (length x) as n eqn:En.
  assert (Hn : length x <= n) by lia. clear En.
  revert x Hn; induction n as [|n IH]; intros x Hn Hx.
  { destruct x; [discriminate Hx | simpl in Hn; lia]. }
  destruct x as [|c t]; [discriminate Hx|]. simpl in Hn.
  cbn [has_ink existsb] in Hx. fold (has_ink t) in Hx.
  destruct (is_linebreak c) eqn:Ec.
  - rewrite (linebreak_is_space c Ec) in Hx. cbn [negb orb] in Hx.
    cbn [splitlines]. rewrite Ec. cbn [filter strip lstrip rstrip rev truthy].
    destruct t as [|d t']; [discriminate Hx|].
    destruct (ascii_eqb c CR && ascii_eqb d LF) eqn:Ecr.
    + apply andb_true_iff in Ecr as [_ Ed]. apply ascii_eqb_eq in Ed. subst d.
      cbn [has_ink existsb] in Hx. change (negb (is_space LF)) with false in Hx.
      apply IH; [simpl in Hn; lia | exact Hx].
    + apply IH; [simpl in *; lia | exact Hx].
  - rewrite splitlines_cons_plain by assumption.
    destruct (negb (is_space c)) eqn:Es.
    + destruct (splitlines t) as [|l ls]; cbn [filter]; rewrite truthy_strip;
        cbn [has_ink existsb]; rewrite Es; discriminate.
    + cbn [orb] in Hx. specialize (IH t ltac:(lia) Hx).
      destruct (splitlines t) as [|l ls]; [now contradiction IH|].
      cbn [filter] in IH |- *. rewrite truthy_strip in IH |- *.
      cbn [has_ink existsb]. rewrite Es. cbn [orb]. fold (has_ink l).
      destruct (has_ink l); [discriminate | exact IH].
Qed.

Lemma has_ink_skip_ws (x : str) : has_ink (skip_ws x) = true -> has_ink x = true.
Proof.
  induction x as [|c t IH]; [discriminate|].
  cbn [skip_ws]. destruct (is_json_ws c); [|auto].
  intros H. cbn [has_ink existsb]. fold (has_ink t). rewrite (IH H). apply orb_true_r.
Qed.

Section JsonBlock.

Context {PF : PyFloat} {PL : PyLimits}.

Lemma json_loads_has_ink (x : str) (v : json) : json_loads x = Ok v -> has_ink x = true.
Proof.
  unfold json_loads. intros H. bind_ok H v' r E.
  apply scan_once_start in E as (c & t & E & Hc).
  apply has_ink_skip_ws. rewrite E.
  apply value_start_facts in Hc as (_ & Hc & _).
  cbn [has_ink existsb]. now rewrite Hc.
Qed.

(** The JSON branch: a block of five characters or more that [json] reads
    and writes is returned as [json] writes it. *)
Lemma process_code_block_json (x : str) (u : option str) (t : str) :
  5 <= length x -> reserialized x = Some t ->
  process_code_block x (txt "json") u = Ok (t, txt "json").
Proof.
  intros Hlen Ht.
  assert (Hv : exists v, json_loads x = Ok v).
  { unfold reserialized in Ht. destruct (json_loads x) as [v|]; [|discriminate Ht].
    now exists v. }
  destruct Hv as [v Hv]. unfold process_code_block.
  destruct (Nat.ltb_spec (length x) 5) as [Hlt | _]; [lia|].
  fold (block_lines x). rewrite existsb_true_nonempty.
  pose proof (has_ink_nonblank_line x (json_loads_has_ink x v Hv)) as Hne.
  rewrite <- filter_block_lines in Hne.
  destruct (block_lines x) eqn:Eb.
  { unfold non_empty_lines in Hne. rewrite Eb in Hne. now contradiction Hne. }
  cbn [negb]. rewrite <- Eb. clear Eb. fold (non_empty_lines x).
  rewrite existsb_true_nonempty.
  destruct (non_empty_lines x) as [|l0 ls0]; [now contradiction Hne|].
  cbn [negb map py_min bind].
  change (str_eqb (txt "json") (txt "python")) with false.
  change (existsb (str_eqb (txt "json"))
            [txt "javascript"; txt "typescript"; txt "jsx"; txt "tsx"]) with false.
  change (existsb (str_eqb (txt "json")) [txt "json"; txt "yaml"]) with true.
  cbn iota. rewrite try_json, Ht. reflexivity.
Qed.

End JsonBlock.

Section JsonBlockTheorem.

Context {PF : PyFloat} {PL : PyLimits}.


End JsonBlockTheorem.



(** * Further properties *)

Lemma or_else_not_none {A} (a b : option A) :
  a <> None \/ b <> None -> or_else a b <> None.
Proof. destruct a; simpl; [discriminate | tauto]. Qed.

(** What the matcher returns is the value of its continuation at the end of
    a match. *)
Lemma rmatch_sound {A} (r : regex) :
  forall (st : mstate) (k : mstate -> option A) (res : A),
    rmatch r st k = Some res ->
    exists st', matches r st st' /\ k st' = Some res.
Proof.
  induction r as [| p | r1 IH1 r2 IH2 | r1 IH1 r2 IH2 | greedy r1 IH1
                 | n r1 IH1 | ml | ml | ]; intros st k res H; cbn [rmatch] in H.
  - exists st. split; [constructor | exact H].
  - destruct (rest st) as [|c t] eqn:Er; [discriminate|].
    destruct (p c) eqn:Ep; [|discriminate].
    eexists. split; [|exact H]. now apply matches_chr.
  - apply IH1 in H as (st1 & M1 & H). apply IH2 in H as (st2 & M2 & H).
    exists st2. split; [econstructor; eassumption | exact H].
  - apply or_else_some in H as [H | H].
    + apply IH1 in H as (st' & M & H). exists st'. split; [now apply matches_alt_l | exact H].
    + apply IH2 in H as (st' & M & H). exists st'. split; [now apply matches_alt_r | exact H].
  - revert H. generalize (length (rest st)) as fuel. intros fuel. revert st.
    induction fuel as [|fuel IHf]; intros st H.
    + exists st. split; [constructor|].
      destruct greedy; cbn [star_loop or_else] in H; [exact H|].
      apply or_else_some in H as [H | H]; [exact H | discriminate].
    + rewrite star_loop_step in H. cbv zeta in H.
      assert (Hagain :
                rmatch r1 st
                  (fun st' => if length (rest st') <? length (rest st)
                              then star_loop (rmatch r1) greedy k fuel st' else None)
                = Some res ->
                exists st', matches (Star greedy r1) st st' /\ k st' = Some res).
      { intros Ha. apply IH1 in Ha as (st1 & M1 & Ha).
        destruct (length (rest st1) <? length (rest st)) eqn:El; [|discriminate].
        apply Nat.ltb_lt in El. apply IHf in Ha as (st2 & M2 & Ha).
        exists st2. split; [eapply matches_star_more; eassumption | exact Ha]. }
      assert (Hdone : k st = Some res ->
                      exists st', matches (Star greedy r1) st st' /\ k st' = Some res).
      { intros Hk. exists st. split; [constructor | exact Hk]. }
      destruct greedy; apply or_else_some in H as [H | H]; auto.
  - apply IH1 in H as (st1 & M1 & H). eexists. split; [|exact H].
    now apply matches_group.
  - destruct (at_bol ml st) eqn:E; [|discriminate].
    exists st. split; [now constructor | exact H].
  - destruct (at_eol ml st) eqn:E; [|discriminate].
    exists st. split; [now constructor | exact H].
  - destruct (at_word_boundary st) eqn:E; [|discriminate].
    exists st. split; [now constructor | exact H].
Qed.

(** The matcher finds a match whenever there is one the continuation
    accepts. *)
Lemma rmatch_complete {A} (r : regex) (st st' : mstate) :
  matches r st st' ->
  forall k : mstate -> option A, k st' <> None -> rmatch r st k <> None.
Proof.
  induction 1 as [ st | p st c t Er Ep | r1 r2 st st1 st2 M1 IH1 M2 IH2
                 | r1 r2 st st' M IH | r1 r2 st st' M IH
                 | greedy r st | greedy r st st1 st2 M1 IH1 Hlt M2 IH2
                 | n r st st1 M IH | ml st E | ml st E | st E ];
    intros k Hk; cbn [rmatch].
  - exact Hk.
  - rewrite Er, Ep. exact Hk.
  - apply IH1. now apply IH2.
  - apply or_else_not_none. left. now apply IH.
  - apply or_else_not_none. right. now apply IH.
  - destruct (length (rest st)); [cbn [star_loop]|rewrite star_loop_step; cbv zeta];
      destruct greedy; apply or_else_not_none; auto.
  - assert (El : exists fuel, length (rest st) = S fuel)
      by (exists (pred (length (rest st))); lia).
    destruct El as [fuel El]. rewrite El, star_loop_step. cbv zeta.
    assert (Hagain :
              rmatch r st
                (fun st' => if length (rest st') <? length (rest st)
                            then star_loop (rmatch r) greedy k fuel st' else None)
              <> None).
    { apply IH1. apply Nat.ltb_lt in Hlt as Hb. rewrite Hb.
      specialize (IH2 k Hk).
      rewrite (rmatch_star_any_fuel greedy r st1 k (fuel - length (rest st1))) in IH2.
      replace (fuel - length (rest st1) + length (rest st1)) with fuel in IH2
        by lia.
      exact IH2. }
    destruct greedy; apply or_else_not_none; auto.
  - apply IH. exact Hk.
  - rewrite E. exact Hk.
  - rewrite E. exact Hk.
  - rewrite E. exact Hk.
Qed.

Lemma match_at_matches (r : regex) (p : option ascii) (s : str) (st : mstate) :
  match_at r p s = Some st -> matches r (MState p s []) st.
Proof.
  unfold match_at. intros H. apply rmatch_sound in H as (st' & M & H).
  now injection H as <-.
Qed.

Lemma match_at_complete (r : regex) (p : option ascii) (s : str) (st : mstate) :
  matches r (MState p s []) st -> match_at r p s <> None.
Proof. intros M. unfold match_at. now apply (rmatch_complete r _ _ M). Qed.

(** A match consumes a prefix of the text. *)
Lemma matches_rest (r : regex) (st st' : mstate) :
  matches r st st' -> exists a, rest st = a ++ rest st'.
Proof.
  induction 1 as [ st | p st c t Er Ep | r1 r2 st st1 st2 M1 IH1 M2 IH2
                 | r1 r2 st st' M IH | r1 r2 st st' M IH
                 | greedy r st | greedy r st st1 st2 M1 IH1 Hlt M2 IH2
                 | n r st st1 M IH | ml st E | ml st E | st E ];
    try (now exists []).
  - exists [c]. exact Er.
  - destruct IH1 as [a Ha], IH2 as [b Hb]. exists (a ++ b).
    now rewrite Ha, Hb, app_assoc.
  - exact IH.
  - exact IH.
  - destruct IH1 as [a Ha], IH2 as [b Hb]. exists (a ++ b).
    now rewrite Ha, Hb, app_assoc.
  - exact IH.
Qed.

Lemma firstn_consumed {A} (a b : list A) :
  firstn (length (a ++ b) - length b) (a ++ b) = a.
Proof.
  rewrite length_app, Nat.add_sub, firstn_app, Nat.sub_diag, firstn_all.
  simpl. apply app_nil_r.
Qed.

Lemma matches_seq_inv (r1 r2 : regex) (st st' : mstate) :
  matches (Seq r1 r2) st st' ->
  exists st1, matches r1 st st1 /\ matches r2 st1 st'.
Proof.
  intros M. inversion M as [| | r1' r2' st0 st1 st2 M1 M2 | | | | | | | |]; subst.
  eauto.
Qed.

Lemma matches_seqs_inv (r : regex) (rs : list regex) (st st' : mstate) :
  matches (seqs (r :: rs)) st st' ->
  exists st1, matches r st st1 /\ matches (seqs rs) st1 st'.
Proof.
  destruct rs as [|r' rs].
  - intros M. exists st'. split; [exact M | constructor].
  - apply matches_seq_inv.
Qed.

Lemma matches_eps_inv (st st' : mstate) : matches Eps st st' -> st' = st.
Proof. intros M. now inversion M. Qed.

Lemma matches_chr_inv (p : ascii -> bool) (st st' : mstate) :
  matches (Chr p) st st' ->
  exists c, p c = true /\ rest st = c :: rest st' /\ groups st' = groups st
            /\ prev st' = Some c.
Proof.
  intros M. inversion M as [| p0 st0 c t Er Ep | | | | | | | | |]; subst.
  exists c. simpl. auto.
Qed.

Lemma matches_group_inv (n : nat) (r : regex) (st st' : mstate) :
  matches (Group n r) st st' ->
  exists st1 a, matches r st st1 /\ rest st = a ++ rest st1
                /\ st' = set_group n a st1.
Proof.
  intros M. inversion M as [| | | | | | | n0 r0 st0 st1 M1 | | |]; subst.
  destruct (matches_rest _ _ _ M1) as [a Ha].
  exists st1, a. split; [assumption | split; [assumption|]].
  now rewrite Ha, firstn_consumed.
Qed.

(** A literal word consumes itself. *)
Lemma matches_word (w : str) (st st' : mstate) :
  matches (seqs (map chr w)) st st' ->
  rest st = w ++ rest st' /\ groups st' = groups st.
Proof.
  revert st; induction w as [|c w IH]; intros st M.
  - apply matches_eps_inv in M. now subst.
  - change (map chr (c :: w)) with (chr c :: map chr w) in M.
    apply matches_seqs_inv in M as (st1 & M1 & M2).
    apply matches_chr_inv in M1 as (c' & Hc & Hr & Hg & _).
    apply ascii_eqb_eq in Hc. subst c'.
    apply IH in M2 as [Hr2 Hg2]. split.
    + now rewrite Hr, Hr2.
    + congruence.
Qed.

(** A repetition of a character class consumes characters of the class. *)
Lemma matches_star_class (greedy : bool) (p : ascii -> bool) (st st' : mstate) :
  matches (Star greedy (Chr p)) st st' ->
  exists a, rest st = a ++ rest st' /\ forallb p a = true
            /\ groups st' = groups st.
Proof.
  intros M. remember (Star greedy (Chr p)) as r eqn:Er.
  induction M as [ st | p0 st c t Er0 Ep | r1 r2 st st1 st2 M1 IH1 M2 IH2
                 | r1 r2 st st' M IH | r1 r2 st st' M IH
                 | g r0 st | g r0 st st1 st2 M1 IH1 Hlt M2 IH2
                 | n r0 st st1 M IH | ml st E | ml st E | st E ];
    try discriminate Er.
  - now exists [].
  - injection Er as -> ->.
    apply matches_chr_inv in M1 as (c & Hc & Hr & Hg & _).
    destruct (IH2 eq_refl) as (a & Ha & Hp & Hg2).
    exists (c :: a). split; [now rewrite Hr, Ha | split].
    + simpl. now rewrite Hc, Hp.
    + congruence.
Qed.

Lemma matches_plus_class (p : ascii -> bool) (st st' : mstate) :
  matches (plus (Chr p)) st st' ->
  exists a, a <> [] /\ rest st = a ++ rest st' /\ forallb p a = true
            /\ groups st' = groups st.
Proof.
  intros M. apply matches_seq_inv in M as (st1 & M1 & M2).
  apply matches_chr_inv in M1 as (c & Hc & Hr & Hg & _).
  apply matches_star_class in M2 as (a & Ha & Hp & Hg2).
  exists (c :: a). split; [discriminate | split; [now rewrite Hr, Ha | split]].
  - simpl. now rewrite Hc, Hp.
  - congruence.
Qed.

(** ** Ink *)

Lemma ink_app (a b : str) : ink (a ++ b) = ink a ++ ink b.
Proof. apply filter_app. Qed.

Lemma ink_spaces (a : str) : forallb is_space a = true -> ink a = [].
Proof.
  induction a as [|c a IH]; [reflexivity|]. simpl.
  intros H. apply andb_true_iff in H as [Hc Ha]. rewrite Hc. simpl. now apply IH.
Qed.

Lemma ink_repeat_space (n : nat) : ink (repeat " "%char n) = [].
Proof. induction n; [reflexivity | exact IHn]. Qed.

Lemma ink_no_ink (s : str) : has_ink s = false -> ink s = [].
Proof.
  induction s as [|c s IH]; [reflexivity|]. simpl.
  destruct (is_space c); simpl; [exact IH | discriminate].
Qed.

Lemma ink_lstrip (s : str) : ink (lstrip s) = ink s.
Proof.
  induction s as [|c s IH]; [reflexivity|]. simpl lstrip.
  destruct (is_space c) eqn:E; [|reflexivity]. simpl. now rewrite E.
Qed.

(** A substitution whose replacement has the ink of the text it replaces
    keeps the ink of the whole text. *)
Lemma sub_loop_keeps_ink (r : regex) (repl : mstate -> str) :
  (forall p s st, match_at r p s = Some st ->
                  exists a, s = a ++ rest st /\ ink (repl st) = ink a) ->
  forall fuel p s, ink (sub_loop fuel r repl p s) = ink s.
Proof.
  intros Hr. induction fuel as [|fuel IH]; intros p s; [reflexivity|].
  cbn [sub_loop].
  assert (Hstep : ink match s with
                      | [] => []
                      | c :: t => c :: sub_loop fuel r repl (Some c) t
                      end = ink s).
  { destruct s as [|c t]; [reflexivity|]. simpl. now rewrite IH. }
  destruct (match_at r p s) as [st|] eqn:Em; [|exact Hstep].
  destruct (Hr p s st Em) as (a & Hs & Hi).
  rewrite ink_app, Hi.
  destruct (length s - length (rest st)) eqn:En.
  - assert (a = []).
    { apply length_zero_iff_nil. rewrite Hs, length_app in En. lia. }
    subst a. simpl. exact Hstep.
  - rewrite IH. transitivity (ink (a ++ rest st)); [now rewrite ink_app|].
    now rewrite <- Hs.
Qed.

Lemma re_sub_keeps_ink (r : regex) (tpl : list titem) (s : str) :
  (forall p s st, match_at r p s = Some st ->
                  exists a, s = a ++ rest st /\ ink (expand tpl st) = ink a) ->
  ink (re_sub r tpl s) = ink s.
Proof. intros H. now apply sub_loop_keeps_ink. Qed.

Section KeepsInk.

Context {PF : PyFloat} {PL : PyLimits}.

Lemma fix_keyword_keeps_ink (content : str) (kw : string) :
  ink (fix_keyword content kw) = ink content.
Proof.
  apply re_sub_keeps_ink. intros p s st Em.
  apply match_at_matches in Em.
  apply matches_seq_inv in Em as (st1 & M1 & M2).
  apply matches_word in M1 as [Hr1 Hg1]. cbn [rest groups] in Hr1, Hg1.
  apply matches_group_inv in M2 as (st2 & g & M2 & Hr2 & ->).
  apply matches_plus_class in M2 as (a & _ & Ha & _ & Hg2).
  exists (txt kw ++ g). split.
  - cbn [rest set_group]. now rewrite Hr1, Hr2, app_assoc.
  - unfold expand, group. cbn [flat_map set_group groups find_group Nat.eqb].
    rewrite app_nil_r, !ink_app. f_equal. simpl. apply app_nil_r.
Qed.

Lemma fix_operator_keeps_ink (content : str) (rule : string * ascii * string) :
  ink (fix_operator content rule) = ink content.
Proof.
  destruct rule as [[before op] after]. cbn [fix_operator].
  apply re_sub_keeps_ink. intros p s st Em.
  apply match_at_matches in Em.
  apply matches_seqs_inv in Em as (st1 & M1 & M2).
  apply matches_seqs_inv in M2 as (st2 & M2 & M3).
  apply matches_group_inv in M1 as (st1' & a & M1 & Hr1 & ->).
  apply matches_chr_inv in M1 as (x & _ & Hx & Hg1 & _).
  apply matches_chr_inv in M2 as (o & Ho & Hr2 & Hg2 & _).
  apply ascii_eqb_eq in Ho. subst o.
  apply matches_group_inv in M3 as (st3 & b & M3 & Hr3 & ->).
  apply matches_chr_inv in M3 as (y & _ & Hy & Hg3 & _).
  cbn [rest set_group groups] in *.
  exists (a ++ op :: b). split.
  - rewrite Hr1, Hr2, Hr3, <- app_assoc. reflexivity.
  - unfold expand, group. cbn [flat_map set_group groups find_group Nat.eqb].
    rewrite Hg3. cbn [find_group Nat.eqb]. rewrite Hg2. cbn [find_group Nat.eqb].
    rewrite app_nil_r, !ink_app. f_equal.
    change (op :: b) with ([op] ++ b). rewrite ink_app.
    simpl. destruct (is_space op); reflexivity.
Qed.

Lemma fix_call_keeps_ink (content : str) (name : string) :
  ink (fix_call content name) = ink content.
Proof.
  apply re_sub_keeps_ink. intros p s st Em.
  apply match_at_matches in Em.
  apply matches_seqs_inv in Em as (st1 & M1 & M2).
  apply matches_seqs_inv in M2 as (st2 & M2 & M3).
  apply matches_group_inv in M1 as (st1' & a & M1 & Hr1 & ->).
  apply matches_word in M1 as [_ Hg1].
  apply matches_star_class in M2 as (sp & Hsp & Hspace & Hg2).
  apply matches_chr_inv in M3 as (o & Ho & Hr3 & Hg3 & _).
  apply ascii_eqb_eq in Ho. subst o.
  cbn [rest set_group groups] in *.
  exists (a ++ sp ++ txt "("). split.
  - rewrite Hr1, Hsp, Hr3, <- !app_assoc. reflexivity.
  - unfold expand, group. cbn [flat_map]. rewrite Hg3, Hg2.
    cbn [find_group Nat.eqb]. rewrite app_nil_r, !ink_app.
    now rewrite (ink_spaces sp Hspace).
Qed.

Lemma fix_chaining_keeps_ink (content : str) :
  ink (fix_chaining content) = ink content.
Proof.
  apply re_sub_keeps_ink. intros p s st Em.
  apply match_at_matches in Em.
  apply matches_seqs_inv in Em as (st1 & M1 & M2).
  apply matches_seqs_inv in M2 as (st2 & M2 & M3).
  apply matches_chr_inv in M1 as (d & Hd & Hr1 & Hg1 & _).
  apply ascii_eqb_eq in Hd. subst d.
  apply matches_group_inv in M2 as (st2' & g & M2 & Hr2 & ->).
  apply matches_plus_class in M2 as (a & _ & Ha & _ & Hg2).
  apply matches_chr_inv in M3 as (o & Ho & Hr3 & Hg3 & _).
  apply ascii_eqb_eq in Ho. subst o.
  cbn [rest set_group groups] in *.
  exists ("."%char :: g ++ txt "("). split.
  - rewrite Hr1, Hr2, Hr3. simpl. now rewrite <- app_assoc.
  - unfold expand, group. cbn [flat_map]. rewrite Hg3.
    cbn [find_group Nat.eqb]. rewrite app_nil_r. reflexivity.
Qed.

Lemma fold_keeps_ink {A} (f : str -> A -> str) (l : list A) (content : str) :
  (forall c a, ink (f c a) = ink c) -> ink (fold_left f l content) = ink content.
Proof.
  intros Hf. revert content; induction l as [|a l IH]; intros content;
    [reflexivity|]. simpl. now rewrite IH, Hf.
Qed.

Lemma fix_python_keeps_ink (url : option str) (content : str) :
  ink (fix_python url content) = ink content.
Proof.
  unfold fix_python.
  rewrite (fold_keeps_ink fix_operator) by apply fix_operator_keeps_ink.
  rewrite fix_chaining_keeps_ink.
  destruct (is_crawl4ai url).
  - rewrite (fold_keeps_ink fix_call) by apply fix_call_keeps_ink.
    apply fold_keeps_ink, fix_keyword_keeps_ink.
  - apply fold_keeps_ink, fix_keyword_keeps_ink.
Qed.

Lemma fix_js_keeps_ink (content : str) : ink (fix_js content) = ink content.
Proof.
  unfold fix_js.
  rewrite (fold_keeps_ink fix_operator) by apply fix_operator_keeps_ink.
  apply fold_keeps_ink, fix_keyword_keeps_ink.
Qed.

End KeepsInk.

Lemma ink_linebreak (c : ascii) (s : str) :
  is_linebreak c = true -> ink (c :: s) = ink s.
Proof. intros H. simpl. now rewrite (linebreak_is_space c H). Qed.

(** Splitting into lines drops line boundaries only. *)
Lemma ink_splitlines (x : str) : flat_map ink (splitlines x) = ink x.
Proof.
  remember (length x) as n eqn:En.
  assert (Hn : length x <= n) by lia. clear En.
  revert x Hn; induction n as [|n IH]; intros x Hn.
  - destruct x; [reflexivity | simpl in Hn; lia].
  - destruct x as [|c t]; [reflexivity|]. simpl in Hn.
    cbn [splitlines]. destruct (is_linebreak c) eqn:Ec.
    + rewrite (ink_linebreak c t Ec). cbn [flat_map ink filter app].
      destruct t as [|d t']; [reflexivity|].
      destruct (ascii_eqb c CR && ascii_eqb d LF) eqn:E.
      * apply andb_true_iff in E as [_ Ed]. apply ascii_eqb_eq in Ed. subst d.
        rewrite IH by (simpl in *; lia). reflexivity.
      * apply IH. simpl in *. lia.
    + specialize (IH t ltac:(lia)).
      change (c :: t) with ([c] ++ t). rewrite ink_app, <- IH.
      destruct (splitlines t) as [|l ls]; cbn [flat_map].
      * reflexivity.
      * change (c :: l) with ([c] ++ l). now rewrite ink_app, app_assoc.
Qed.

Lemma ink_join (ls : list str) : ink (join [LF] ls) = flat_map ink ls.
Proof.
  induction ls as [|l ls IH]; [reflexivity|].
  destruct ls as [|l' ls'].
  - simpl. now rewrite app_nil_r.
  - change (join [LF] (l :: l' :: ls')) with (l ++ [LF] ++ join [LF] (l' :: ls')).
    rewrite !ink_app, IH. reflexivity.
Qed.

Lemma ink_blank (l : str) : truthy (strip l) = false -> ink l = [].
Proof. rewrite truthy_strip. apply ink_no_ink. Qed.

Lemma ink_drop_blank_head (ls : list str) :
  flat_map ink (drop_blank_head ls) = flat_map ink ls.
Proof.
  induction ls as [|l ls IH]; [reflexivity|].
  cbn [drop_blank_head]. destruct (truthy (strip l)) eqn:E; [reflexivity|].
  cbn [negb flat_map]. now rewrite (ink_blank l E), IH.
Qed.

Lemma flat_map_ink_rev_nil (ls : list str) :
  flat_map ink ls = [] -> flat_map ink (rev ls) = [].
Proof.
  induction ls as [|l ls IH]; [reflexivity|].
  cbn [flat_map rev]. intros H. apply app_eq_nil in H as [Hl Hls].
  rewrite flat_map_app, (IH Hls). simpl. now rewrite Hl.
Qed.

(** The blank lines dropped at the head of a list of lines. *)
Lemma drop_blank_head_split (ls : list str) :
  exists b, ls = b ++ drop_blank_head ls /\ flat_map ink b = [].
Proof.
  induction ls as [|l ls (b & Hb & Hi)]; [now exists []|].
  cbn [drop_blank_head]. destruct (truthy (strip l)) eqn:E; cbn [negb].
  - now exists [].
  - exists (l :: b). split; [simpl; now rewrite <- Hb|].
    cbn [flat_map]. now rewrite (ink_blank l E), Hi.
Qed.

Lemma ink_drop_blank_tail (ls : list str) :
  flat_map ink (drop_blank_tail ls) = flat_map ink ls.
Proof.
  unfold drop_blank_tail.
  destruct (drop_blank_head_split (rev ls)) as (b & Hb & Hi).
  assert (Hls : ls = rev (drop_blank_head (rev ls)) ++ rev b).
  { rewrite <- rev_app_distr, <- Hb. symmetry. apply rev_involutive. }
  rewrite Hls at 2. rewrite flat_map_app, (flat_map_ink_rev_nil b Hi).
  now rewrite app_nil_r.
Qed.

Lemma ink_block_lines (x : str) : flat_map ink (block_lines x) = ink x.
Proof.
  unfold block_lines.
  now rewrite ink_drop_blank_tail, ink_drop_blank_head, ink_splitlines.
Qed.

Section InkOfBlocks.

Context {PF : PyFloat} {PL : PyLimits}.

Lemma ink_format_line (fixup : str -> str) (m : nat) (line : str) :
  (forall c, ink (fixup c) = ink c) ->
  ink (format_line fixup m line) = ink line.
Proof.
  intros Hf. unfold format_line.
  destruct (truthy (strip line)) eqn:E; cbn [negb].
  - rewrite ink_app, Hf, ink_lstrip.
    destruct (m <? indent_of line); [now rewrite ink_repeat_space | reflexivity].
  - symmetry. now apply ink_blank.
Qed.

Lemma ink_format_lines (fixup : str -> str) (m : nat) (lines : list str) :
  (forall c, ink (fixup c) = ink c) ->
  ink (format_lines fixup m lines) = flat_map ink lines.
Proof.
  intros Hf. unfold format_lines. rewrite ink_join.
  induction lines as [|l ls IH]; [reflexivity|].
  cbn [map flat_map]. now rewrite ink_format_line, IH.
Qed.

Lemma content_fix_keeps_ink (L : str) (u : option str) (c : str) :
  ink (content_fix L u c) = ink c.
Proof.
  unfold content_fix. destruct (str_eqb L (txt "python")).
  - apply fix_python_keeps_ink.
  - destruct (existsb _ _); [apply fix_js_keeps_ink | reflexivity].
Qed.

(** The import patch leaves the block as it is or puts the import line
    somewhere in it. *)
Lemma add_crawl4ai_import_shape (body : str) :
  add_crawl4ai_import body = body
  \/ exists a b, body = a ++ b /\ add_crawl4ai_import body = a ++ import_line ++ b.
Proof.
  unfold add_crawl4ai_import.
  destruct (_ && _); [|now left].
  destruct (search_from _ _ _ _) as [[i st]|]; [|now left].
  right. exists (firstn i body), (skipn i body).
  split; [symmetry; apply firstn_skipn | reflexivity].
Qed.

(** A text without ink has no non-blank line. *)
Lemma no_ink_no_lines (x : str) : has_ink x = false -> non_empty_lines x = [].
Proof.
  intros H. rewrite filter_block_lines.
  pose proof (ink_splitlines x) as Hs. rewrite (ink_no_ink x H) in Hs.
  induction (splitlines x) as [|l ls IH]; [reflexivity|].
  cbn [flat_map] in Hs. apply app_eq_nil in Hs as [Hl Hls].
  cbn [filter]. rewrite truthy_strip.
  assert (Hi : has_ink l = false).
  { clear -Hl. induction l as [|c l IH]; [reflexivity|].
    simpl in Hl |- *. destruct (is_space c); [now apply IH | discriminate Hl]. }
  rewrite Hi. now apply IH.
Qed.

Lemma ink_lines_nonempty (x : str) : has_ink x = true -> non_empty_lines x <> [].
Proof. intros H. rewrite filter_block_lines. now apply has_ink_nonblank_line. Qed.

(** The paths of [process_code_block] when no JSON document is written:
    the text unchanged when it is short or has no ink, and otherwise the
    block formatted line by line, with the import patch on a Python block
    of a crawl4ai page. *)
Lemma process_code_block_paths (x L : str) (u : option str) :
  (L = txt "json" -> 5 <= length x -> reserialized x = None) ->
  process_code_block x L u
  = Ok (if (length x <? 5) || negb (has_ink x) then x
        else if str_eqb L (txt "python") && is_crawl4ai u
             then add_crawl4ai_import (formatted_block L u x)
             else formatted_block L u x, L).
Proof.
  intros Hjson. unfold process_code_block, formatted_block, min_indent, content_fix.
  destruct (Nat.ltb_spec (length x) 5) as [Hlt | Hge]; [reflexivity|]. cbn [orb].
  fold (block_lines x). rewrite existsb_true_nonempty.
  destruct (has_ink x) eqn:Hi; cbn [negb].
  2:{ pose proof (no_ink_no_lines x Hi) as Hn.
      destruct (block_lines x) eqn:Eb; [reflexivity|]. cbn [negb].
      rewrite <- Eb. fold (non_empty_lines x). rewrite Hn. reflexivity. }
  pose proof (ink_lines_nonempty x Hi) as Hn.
  destruct (block_lines x) eqn:Eb.
  { exfalso. apply Hn. unfold non_empty_lines. now rewrite Eb. }
  cbn [negb]. rewrite <- Eb. clear Eb. fold (non_empty_lines x).
  rewrite existsb_true_nonempty.
  destruct (non_empty_lines x) as [|l0 ls0]; [contradiction|].
  cbn [negb map py_min bind].
  destruct (str_eqb L (txt "python")) eqn:Ep.
  { apply str_eqb_eq in Ep. subst L. cbn [andb]. reflexivity. }
  cbn [andb].
  destruct (existsb (str_eqb L)
              [txt "javascript"; txt "typescript"; txt "jsx"; txt "tsx"]);
    [reflexivity|].
  destruct (existsb (str_eqb L) [txt "json"; txt "yaml"]); [|reflexivity].
  rewrite try_json. cbn [bind].
  destruct (str_eqb L (txt "json")) eqn:Ej; [|reflexivity].
  apply str_eqb_eq in Ej. now rewrite (Hjson Ej Hge).
Qed.

Lemma process_code_block_formatted (x L : str) (u : option str) :
  (L = txt "json" -> reserialized x = None) ->
  process_code_block x L u
  = Ok (if (length x <? 5) || negb (has_ink x) then x
        else if str_eqb L (txt "python") && is_crawl4ai u
             then add_crawl4ai_import (formatted_block L u x)
             else formatted_block L u x, L).
Proof.
  intros Hjson. apply process_code_block_paths. intros Ej _. now apply Hjson.
Qed.

Lemma ink_formatted_block (L : str) (u : option str) (x : str) :
  ink (formatted_block L u x) = ink x.
Proof.
  unfold formatted_block.
  rewrite ink_format_lines by apply content_fix_keeps_ink.
  apply ink_block_lines.
Qed.

(** X1. Unless it writes a JSON document, [process_code_block] changes
    white space only: the characters of the result other than white space
    are those of the block, in the same order.  The one exception is the
    import line put into a Python block of a crawl4ai page. *)
Theorem reformat_changes_white_space_only (x L : str) (u : option str) :
  (L = txt "json" -> reserialized x = None) ->
  exists t,
    process_code_block x L u = Ok (t, L)
    /\ (ink t = ink x
        \/ (L = txt "python" /\ is_crawl4ai u = true
            /\ exists a b, t = a ++ import_line ++ b /\ ink (a ++ b) = ink x)).
Proof.
  intros Hjson. rewrite (process_code_block_formatted x L u Hjson).
  eexists. split; [reflexivity|].
  destruct ((length x <? 5) || negb (has_ink x)); [now left|].
  pose proof (ink_formatted_block L u x) as Hbody.
  destruct (str_eqb L (txt "python")) eqn:Ep; [|now left].
  destruct (is_crawl4ai u) eqn:Eu; [|now left]. cbn [andb].
  destruct (add_crawl4ai_import_shape (formatted_block L u x))
    as [-> | (a & b & Hab & ->)]; [now left|].
  right. apply str_eqb_eq in Ep. split; [exact Ep | split; [reflexivity|]].
  exists a, b. split; [reflexivity|]. now rewrite <- Hab.
Qed.

End InkOfBlocks.

Lemma reformat_changes_white_space_only_broken_json :
  let x := text_of_lines ["   {oops: 1,"; "     b=2}"]%string in
  (txt "json" = txt "json" ->
   @reserialized literal_floats example_limits x = None)
  /\ exists t,
       @process_code_block literal_floats example_limits x (txt "json") None
       = Ok (t, txt "json")
       /\ (ink t = ink x
           \/ (txt "json" = txt "python" /\ is_crawl4ai None = true
               /\ exists a b, t = a ++ import_line ++ b /\ ink (a ++ b) = ink x)).
Proof.
  intros x.
  assert (H : txt "json" = txt "json" ->
              @reserialized literal_floats example_limits x = None)
    by (intros _; vm_compute; reflexivity).
  split; [exact H|].
  exact (@reformat_changes_white_space_only literal_floats example_limits
           x (txt "json") None H).
Defined.

Lemma one_line_line_feeds_only (s : str) : one_line s -> line_feeds_only s.
Proof.
  apply Forall_impl. intros c Hc H. rewrite Hc in H. discriminate H.
Qed.

Lemma line_feeds_only_join (ls : list str) :
  Forall one_line ls -> line_feeds_only (join [LF] ls).
Proof.
  induction 1 as [|l ls Hl Hls IH]; [constructor|].
  destruct ls as [|l' ls'].
  - now apply one_line_line_feeds_only.
  - change (join [LF] (l :: l' :: ls')) with (l ++ [LF] ++ join [LF] (l' :: ls')).
    apply Forall_app. split; [now apply one_line_line_feeds_only|].
    apply Forall_app. split; [|exact IH]. now constructor.
Qed.

Lemma Forall_suffix {A} (P : A -> Prop) (n : nat) (l : list A) :
  Forall P l -> Forall P (skipn n l).
Proof.
  revert l; induction n as [|n IH]; intros l H; [exact H|].
  destruct H; simpl; [constructor | auto].
Qed.

Section LineFeeds.

Context {PF : PyFloat} {PL : PyLimits}.

Lemma line_feeds_only_import_line : line_feeds_only import_line.
Proof.
  unfold line_feeds_only. apply Forall_forall. intros c Hc H.
  unfold import_line in Hc. cbn in Hc.
  repeat (destruct Hc as [<- | Hc]; [first [reflexivity | discriminate H]|]).
  contradiction.
Qed.

Lemma line_feeds_only_add_crawl4ai_import (body : str) :
  line_feeds_only body -> line_feeds_only (add_crawl4ai_import body).
Proof.
  intros H. unfold add_crawl4ai_import.
  destruct (_ && _); [|exact H].
  destruct (search_from _ _ _ _) as [[i st]|]; [|exact H].
  apply Forall_app. split; [now apply Forall_prefix|].
  apply Forall_app. split; [apply line_feeds_only_import_line|].
  now apply Forall_suffix.
Qed.

Lemma line_feeds_only_format_lines (L : str) (u : option str) (m : nat) (x : str) :
  line_feeds_only (format_lines (content_fix L u) m (block_lines x)).
Proof.
  unfold format_lines. apply line_feeds_only_join, Forall_map.
  generalize (block_lines_one_line x). apply Forall_impl.
  intros l Hl. apply format_line_one_line; [|exact Hl].
  apply content_fix_inked_line.
Qed.

(** X2. When [process_code_block] formats a block (five characters at
    least, not all of them white space) without writing a JSON document,
    every line boundary of the result is a line feed: carriage returns and
    the other boundaries of [splitlines] do not reach the result. *)
Theorem reformat_line_feeds_only (x L : str) (u : option str) :
  5 <= length x -> has_ink x = true ->
  (L = txt "json" -> reserialized x = None) ->
  exists t, process_code_block x L u = Ok (t, L) /\ line_feeds_only t.
Proof.
  intros Hlen Hink Hjson. rewrite (process_code_block_formatted x L u Hjson).
  eexists. split; [reflexivity|].
  apply Nat.ltb_ge in Hlen. rewrite Hlen, Hink. cbn [orb negb].
  destruct (str_eqb L (txt "python") && is_crawl4ai u).
  - apply line_feeds_only_add_crawl4ai_import, line_feeds_only_format_lines.
  - apply line_feeds_only_format_lines.
Qed.

End LineFeeds.

Lemma reformat_line_feeds_only_crlf :
  let x := txt "a=1" ++ [CR; LF] ++ txt "b=2" ++ [CR] in
  5 <= length x /\ has_ink x = true
  /\ exists t, @process_code_block literal_floats example_limits x python None = Ok (t, python)
               /\ line_feeds_only t.
Proof.
  intros x.
  assert (H1 : 5 <= length x) by (vm_compute; lia).
  assert (H2 : has_ink x = true) by reflexivity.
  split; [exact H1 | split; [exact H2|]].
  apply (@reformat_line_feeds_only literal_floats example_limits x python None H1 H2).
  discriminate.
Defined.

(** ** Formatting a formatted block *)

(** Lines joined with line feeds are split into the same lines, when the
    last one is not empty. *)
Lemma splitlines_join (ls : list str) :
  Forall one_line ls -> last ls [] <> [] -> splitlines (join [LF] ls) = ls.
Proof.
  induction 1 as [|l ls Hl Hls IH]; [reflexivity|]. intros Hlast.
  destruct ls as [|l' ls'].
  - cbn [join last] in *. rewrite splitlines_single by assumption.
    destruct l; [contradiction | reflexivity].
  - change (join [LF] (l :: l' :: ls')) with (l ++ LF :: join [LF] (l' :: ls')).
    rewrite splitlines_line_feed by assumption. f_equal. apply IH. exact Hlast.
Qed.

Lemma drop_blank_head_app_nonblank (a : list str) (l : str) :
  truthy (strip l) = true -> drop_blank_head (a ++ [l]) = drop_blank_head a ++ [l].
Proof.
  intros Hl. induction a as [|x a IH]; cbn [app drop_blank_head].
  - now rewrite Hl.
  - destruct (truthy (strip x)); [reflexivity | exact IH].
Qed.

Lemma drop_blank_tail_cons (l : str) (t : list str) :
  truthy (strip l) = true -> drop_blank_tail (l :: t) = l :: drop_blank_tail t.
Proof.
  intros Hl. unfold drop_blank_tail. cbn [rev].
  rewrite (drop_blank_head_app_nonblank _ _ Hl), rev_app_distr. reflexivity.
Qed.

Lemma drop_blank_head_idempotent (ls : list str) :
  drop_blank_head (drop_blank_head ls) = drop_blank_head ls.
Proof.
  induction ls as [|l ls IH]; [reflexivity|]. cbn [drop_blank_head].
  destruct (truthy (strip l)) eqn:E; cbn [negb]; [|exact IH].
  cbn [drop_blank_head]. now rewrite E.
Qed.

Lemma drop_blank_tail_idempotent (ls : list str) :
  drop_blank_tail (drop_blank_tail ls) = drop_blank_tail ls.
Proof.
  unfold drop_blank_tail. now rewrite rev_involutive, drop_blank_head_idempotent.
Qed.

(** The lines of a block are trimmed: no blank line at either end. *)
Lemma block_lines_trimmed (x : str) :
  drop_blank_head (block_lines x) = block_lines x
  /\ drop_blank_tail (block_lines x) = block_lines x.
Proof.
  unfold block_lines. split; [|apply drop_blank_tail_idempotent].
  pose proof (drop_blank_head_idempotent (splitlines x)) as Hh.
  destruct (drop_blank_head (splitlines x)) as [|l t]; [reflexivity|].
  cbn [drop_blank_head] in Hh.
  destruct (truthy (strip l)) eqn:E; cbn [negb] in Hh.
  - rewrite (drop_blank_tail_cons l t E). cbn [drop_blank_head]. now rewrite E.
  - exfalso. assert (Hlen : length (drop_blank_head t) <= length t).
    { clear. induction t as [|a t IH]; [constructor|]. cbn [drop_blank_head].
      destruct (negb (truthy (strip a))); simpl; lia. }
    rewrite Hh in Hlen. simpl in Hlen. lia.
Qed.

Lemma drop_blank_head_map (f : str -> str) (ls : list str) :
  Forall (fun l => truthy (strip (f l)) = truthy (strip l)) ls ->
  drop_blank_head (map f ls) = map f (drop_blank_head ls).
Proof.
  induction 1 as [|l ls Hl Hls IH]; [reflexivity|].
  cbn [map drop_blank_head]. rewrite Hl.
  destruct (negb (truthy (strip l))); [exact IH | reflexivity].
Qed.

Lemma drop_blank_tail_map (f : str -> str) (ls : list str) :
  Forall (fun l => truthy (strip (f l)) = truthy (strip l)) ls ->
  drop_blank_tail (map f ls) = map f (drop_blank_tail ls).
Proof.
  intros H. unfold drop_blank_tail.
  rewrite <- map_rev, drop_blank_head_map, map_rev; [reflexivity|].
  now apply Forall_rev.
Qed.

Lemma drop_blank_tail_last (ls : list str) :
  drop_blank_tail ls = ls -> ls <> [] -> truthy (strip (last ls [])) = true.
Proof.
  unfold drop_blank_tail. intros H Hne.
  assert (Hr : drop_blank_head (rev ls) = rev ls).
  { rewrite <- H at 2. now rewrite rev_involutive. }
  destruct (rev ls) as [|l t] eqn:Er.
  { exfalso. apply Hne. apply (f_equal (@rev str)) in Er.
    now rewrite rev_involutive in Er. }
  assert (Hl : ls = rev t ++ [l]).
  { apply (f_equal (@rev str)) in Er. now rewrite rev_involutive in Er. }
  rewrite Hl, last_last.
  cbn [drop_blank_head] in Hr. destruct (truthy (strip l)) eqn:E; [reflexivity|].
  cbn [negb] in Hr. exfalso.
  assert (Hlen : length (drop_blank_head t) <= length t).
  { clear. induction t as [|a t IH]; [constructor|]. cbn [drop_blank_head].
    destruct (negb (truthy (strip a))); simpl; lia. }
  rewrite Hr in Hlen. simpl in Hlen. lia.
Qed.

Lemma fold_min_le (l : list nat) (x : nat) :
  fold_left Nat.min l x <= x /\ Forall (fun i => fold_left Nat.min l x <= i) l.
Proof.
  revert x; induction l as [|a l IH]; intros x;
    [split; [reflexivity | constructor]|].
  cbn [fold_left]. destruct (IH (Nat.min x a)) as [H1 H2].
  pose proof (Nat.le_min_l x a). pose proof (Nat.le_min_r x a).
  split; [lia|]. constructor; [lia | exact H2].
Qed.

(** [min] returns a lower bound of the sequence. *)
Lemma py_min_le (l : list nat) (m : nat) :
  py_min l = Ok m -> Forall (fun i => m <= i) l.
Proof.
  destruct l as [|x l]; [discriminate|]. intros H. injection H as <-.
  destruct (fold_min_le l x) as [H1 H2]. now constructor.
Qed.

Lemma fold_min_in (l : list nat) (x : nat) :
  fold_left Nat.min l x = x \/ In (fold_left Nat.min l x) l.
Proof.
  revert x; induction l as [|a l IH]; intros x; [now left|].
  cbn [fold_left]. destruct (IH (Nat.min x a)) as [H | H].
  - rewrite H. destruct (Nat.min_spec x a) as [[_ ->] | [_ ->]];
      [now left | right; now left].
  - right. now right.
Qed.

(** [min] returns an element of the sequence. *)
Lemma py_min_in (l : list nat) (m : nat) : py_min l = Ok m -> In m l.
Proof.
  destruct l as [|x l]; [discriminate|]. intros H. injection H as <-.
  destruct (fold_min_in l x) as [-> | H]; [now left | now right].
Qed.

Lemma lstrip_spaces (n : nat) (s : str) : lstrip (repeat " "%char n ++ s) = lstrip s.
Proof. induction n as [|n IH]; [reflexivity | exact IH]. Qed.

Lemma lstrip_idempotent (s : str) : lstrip (lstrip s) = lstrip s.
Proof.
  induction s as [|c s IH]; [reflexivity|]. cbn [lstrip].
  destruct (is_space c) eqn:E; [exact IH|]. cbn [lstrip]. now rewrite E.
Qed.

Lemma length_lstrip (s : str) : length (lstrip s) <= length s.
Proof.
  induction s as [|c s IH]; [constructor|]. cbn [lstrip].
  destruct (is_space c); simpl; lia.
Qed.

Section Idempotence.

Context {PF : PyFloat} {PL : PyLimits}.

(** The line the indentation-only loop writes for a line with ink. *)
Lemma format_line_plain (m : nat) (line : str) :
  has_ink line = true ->
  format_line (fun c => c) m line
  = repeat " "%char (indent_of line - m) ++ lstrip line.
Proof.
  intros H. unfold format_line. rewrite truthy_strip, H. cbn [negb].
  destruct (Nat.ltb_spec m (indent_of line)) as [Hlt | Hge]; [reflexivity|].
  replace (indent_of line - m) with 0 by lia. reflexivity.
Qed.

Lemma format_line_blank (fixup : str -> str) (m : nat) (line : str) :
  has_ink line = false -> format_line fixup m line = [].
Proof. intros H. unfold format_line. now rewrite truthy_strip, H. Qed.

Lemma format_line_plain_ink (m : nat) (line : str) :
  has_ink (format_line (fun c => c) m line) = has_ink line.
Proof.
  destruct (has_ink line) eqn:H.
  - rewrite (format_line_plain m line H), has_ink_app, has_ink_lstrip, H.
    apply orb_true_r.
  - now rewrite (format_line_blank _ m line H).
Qed.

Lemma indent_of_format_line (m : nat) (line : str) :
  has_ink line = true ->
  indent_of (format_line (fun c => c) m line) = indent_of line - m.
Proof.
  intros H. rewrite (format_line_plain m line H). unfold indent_of at 1.
  rewrite lstrip_spaces, lstrip_idempotent, length_app, repeat_length. lia.
Qed.

(** A line written by the loop is written again as it is, at indentation
    zero. *)
Lemma format_line_again (m : nat) (line : str) :
  format_line (fun c => c) 0 (format_line (fun c => c) m line)
  = format_line (fun c => c) m line.
Proof.
  destruct (has_ink line) eqn:H.
  - rewrite (format_line_plain 0) by now rewrite format_line_plain_ink.
    rewrite (indent_of_format_line m line H), Nat.sub_0_r.
    rewrite (format_line_plain m line H) at 1.
    rewrite lstrip_spaces, lstrip_idempotent. symmetry.
    now apply format_line_plain.
  - rewrite (format_line_blank _ m line H). reflexivity.
Qed.

Lemma filter_map_commute {A} (f : A -> bool) (g : A -> A) (l : list A) :
  (forall a, f (g a) = f a) -> filter f (map g l) = map g (filter f l).
Proof.
  intros H. induction l as [|a l IH]; [reflexivity|].
  cbn [map filter]. rewrite H. destruct (f a); cbn [map]; now rewrite IH.
Qed.

(** The indentation-only text of a block is its own indentation-only
    text. *)
Lemma indentation_only_idempotent (x : str) :
  indentation_only (indentation_only x) = indentation_only x.
Proof.
  unfold indentation_only at 2.
  destruct (py_min (map indent_of (non_empty_lines x))) as [m|e] eqn:Em;
    [|unfold indentation_only; now rewrite Em].
  set (f := format_line (fun c => c) m).
  assert (Hf : forall l, truthy (strip (f l)) = truthy (strip l)).
  { intros l. unfold f. rewrite !truthy_strip. apply format_line_plain_ink. }
  assert (Hne : non_empty_lines x <> []).
  { intros E. rewrite E in Em. discriminate Em. }
  assert (Hb : block_lines x <> []).
  { intros E. apply Hne. unfold non_empty_lines. now rewrite E. }
  destruct (block_lines_trimmed x) as [Hh Ht].
  assert (Hone : Forall one_line (map f (block_lines x))).
  { apply Forall_map. generalize (block_lines_one_line x). apply Forall_impl.
    intros l Hl. apply format_line_one_line; auto. }
  assert (Htrim : forall ls, Forall (fun l => truthy (strip (f l)) = truthy (strip l)) ls).
  { intros ls. apply Forall_forall. intros l _. apply Hf. }
  assert (Ht' : drop_blank_tail (map f (block_lines x)) = map f (block_lines x)).
  { rewrite drop_blank_tail_map by apply Htrim. now rewrite Ht. }
  assert (Hh' : drop_blank_head (map f (block_lines x)) = map f (block_lines x)).
  { rewrite drop_blank_head_map by apply Htrim. now rewrite Hh. }
  assert (Hlast : last (map f (block_lines x)) [] <> []).
  { assert (Hl : truthy (strip (last (map f (block_lines x)) [])) = true).
    { apply drop_blank_tail_last; [exact Ht'|].
      intros E. apply map_eq_nil in E. contradiction. }
    intros E. rewrite E in Hl. discriminate Hl. }
  assert (Hlines : block_lines (format_lines (fun c => c) m (block_lines x))
                   = map f (block_lines x)).
  { unfold format_lines. fold f. unfold block_lines at 1.
    rewrite (splitlines_join _ Hone Hlast), Hh'. exact Ht'. }
  assert (Hmin : py_min (map indent_of
                   (non_empty_lines (format_lines (fun c => c) m (block_lines x))))
                 = Ok 0).
  { unfold non_empty_lines at 1. rewrite Hlines.
    rewrite (filter_map_commute (fun line => truthy (strip line)) f) by apply Hf.
    fold (non_empty_lines x). rewrite map_map.
    assert (Hmap : map (fun l => indent_of (f l)) (non_empty_lines x)
                   = map (fun i => i - m) (map indent_of (non_empty_lines x))).
    { rewrite map_map. apply map_ext_in. intros l Hl. unfold f.
      apply indent_of_format_line.
      unfold non_empty_lines in Hl. apply filter_In in Hl as [_ Hl].
      now rewrite truthy_strip in Hl. }
    rewrite Hmap.
    destruct (py_min (map (fun i => i - m) (map indent_of (non_empty_lines x))))
      as [m'|e] eqn:Em'.
    - f_equal. apply py_min_le in Em'. apply py_min_in in Em.
      rewrite Forall_forall in Em'.
      specialize (Em' (m - m)). rewrite Nat.sub_diag in Em'.
      assert (H0 : m' <= 0); [|lia].
      apply Em'. apply in_map_iff. exists m. split; [lia | exact Em].
    - exfalso. destruct (map indent_of (non_empty_lines x)); discriminate. }
  unfold indentation_only. rewrite Hmin, Hlines, Em.
  unfold format_lines. fold f. rewrite map_map. f_equal.
  apply map_ext. intros l. apply format_line_again.
Qed.

(** X3. For a language that only has its indentation normalised (any
    language outside the Python and JavaScript families and json),
    [process_code_block] is idempotent: formatting a formatted block gives
    the same block. *)
Theorem plain_reformat_idempotent (x L t : str) (u : option str) :
  L <> txt "python" ->
  existsb (str_eqb L) [txt "javascript"; txt "typescript"; txt "jsx"; txt "tsx"]
  = false ->
  L <> txt "json" ->
  process_code_block x L u = Ok (t, L) ->
  process_code_block t L u = Ok (t, L).
Proof.
  intros Hpy Hjs Hjson H.
  rewrite process_code_block_plain in H by (assumption || contradiction).
  injection H as <-.
  rewrite process_code_block_plain by (assumption || contradiction).
  destruct (length x <? 5) eqn:Ex; [now rewrite Ex|].
  rewrite indentation_only_idempotent.
  now destruct (length (indentation_only x) <? 5).
Qed.

End Idempotence.

Lemma plain_reformat_idempotent_bash :
  let x := text_of_lines [""; "    if [ -f x ]; then"; "        echo hi  "; "    fi"; ""]%string in
  let t := text_of_lines ["if [ -f x ]; then"; "    echo hi  "; "fi"]%string in
  txt "bash" <> txt "python"
  /\ existsb (str_eqb (txt "bash"))
       [txt "javascript"; txt "typescript"; txt "jsx"; txt "tsx"] = false
  /\ txt "bash" <> txt "json"
  /\ @process_code_block literal_floats example_limits x (txt "bash") None = Ok (t, txt "bash")
  /\ @process_code_block literal_floats example_limits t (txt "bash") None = Ok (t, txt "bash").
Proof.
  intros x t.
  assert (H1 : txt "bash" <> txt "python") by discriminate.
  assert (H2 : existsb (str_eqb (txt "bash"))
                 [txt "javascript"; txt "typescript"; txt "jsx"; txt "tsx"] = false)
    by reflexivity.
  assert (H3 : txt "bash" <> txt "json") by discriminate.
  assert (H4 : @process_code_block literal_floats example_limits x (txt "bash") None
               = Ok (t, txt "bash")) by (vm_compute; reflexivity).
  repeat (split; [assumption|]).
  exact (@plain_reformat_idempotent literal_floats example_limits x (txt "bash") t None H1 H2 H3 H4).
Defined.

(** ** post_process_markdown never raises *)

Lemma split_on_nonempty (sep : ascii) (s : str) : split_on sep s <> [].
Proof.
  destruct s as [|c t]; [discriminate|]. cbn [split_on].
  destruct (ascii_eqb c sep); [discriminate|].
  destruct (split_on sep t); discriminate.
Qed.

(** [split] gives one part more than there are separators. *)
Lemma length_split_on (sep : ascii) (s : str) :
  length (split_on sep s) = S (count_char sep s).
Proof.
  unfold count_char. induction s as [|c t IH]; [reflexivity|].
  cbn [split_on filter]. unfold ascii_eqb in *. rewrite (Ascii.eqb_sym sep c).
  destruct (Ascii.eqb c sep).
  - simpl. now rewrite IH.
  - destruct (split_on sep t) as [|l ls] eqn:E; [discriminate IH|]. exact IH.
Qed.

Lemma count_char_app (c : ascii) (a b : str) :
  count_char c (a ++ b) = count_char c a + count_char c b.
Proof. unfold count_char. now rewrite filter_app, length_app. Qed.

(** A url that contains [://] has three parts at least. *)
Lemma split_on_scheme (url : str) :
  str_in (txt "://") url = true -> 3 <= length (split_on "/" url).
Proof.
  intros H. apply str_in_split in H as (pre & post & ->).
  rewrite length_split_on, !count_char_app.
  change (count_char "/" (txt "://")) with 2. lia.
Qed.

Lemma py_index_nth {A} (l : list A) (i : nat) (d : A) :
  i < length l -> py_index l i = Ok (nth i l d).
Proof.
  intros H. unfold py_index.
  destruct (nth_error l i) as [a|] eqn:E.
  - now rewrite (nth_error_nth l i d E).
  - apply nth_error_None in E. lia.
Qed.

(** The domain is always there: no [IndexError]. *)
Lemma domain_of_ok (url : str) :
  (if str_in (txt "://") url then py_index (split_on "/" url) 2
   else py_index (split_on "/" url) 0) = Ok (domain_of url).
Proof.
  unfold domain_of. destruct (str_in (txt "://") url) eqn:E.
  - apply py_index_nth. apply split_on_scheme in E. lia.
  - apply py_index_nth. pose proof (split_on_nonempty "/" url).
    destruct (split_on "/" url); [contradiction | simpl; lia].
Qed.

Lemma sub_loop_call_returns (r : regex) (f : mstate -> result str) :
  (forall st, exists out, f st = Ok out) ->
  forall fuel p s, exists out, sub_loop_call fuel r f p s = Ok out.
Proof.
  intros Hf. induction fuel as [|fuel IH]; intros p s; [now eexists|].
  cbn [sub_loop_call].
  assert (Hstep : exists out,
             match s with
             | [] => Ok []
             | c :: t => out <- sub_loop_call fuel r f (Some c) t ;; Ok (c :: out)
             end = Ok out).
  { destruct s as [|c t]; [now eexists|].
    destruct (IH (Some c) t) as [out ->]. now eexists. }
  destruct (match_at r p s) as [st|]; [|exact Hstep].
  destruct (Hf st) as [new ->]. cbn [bind].
  destruct (length s - length (rest st)).
  - destruct Hstep as [out ->]. now eexists.
  - destruct (IH (prev st) (rest st)) as [out ->]. now eexists.
Qed.

Section PostProcess.

Context {PF : PyFloat} {PL : PyLimits}.

(** [process_code_block] returns, with the language it was given. *)
Lemma process_code_block_returns (x L : str) (u : option str) :
  exists t, process_code_block x L u = Ok (t, L).
Proof.
  unfold process_code_block.
  destruct (length x <? 5); [now eexists|].
  destruct (negb (existsb _ (drop_blank_tail _))); [now eexists|].
  rewrite existsb_true_nonempty.
  destruct (filter _ _) as [|l0 ls0]; [now eexists|].
  cbn [negb map py_min bind].
  destruct (str_eqb L (txt "python")) eqn:Ep.
  { apply str_eqb_eq in Ep. subst L. now eexists. }
  destruct (existsb (str_eqb L)
              [txt "javascript"; txt "typescript"; txt "jsx"; txt "tsx"]);
    [now eexists|].
  destruct (existsb (str_eqb L) [txt "json"; txt "yaml"]); [|now eexists].
  rewrite try_json. cbn [bind].
  destruct (str_eqb L (txt "json")); [|now eexists].
  destruct (reserialized x); now eexists.
Qed.

(** The language written on a fence is the hint, trimmed and in lower
    case, or [text] when there is none; the block is formatted in that
    language. *)
Lemma replace_code_block_ok (url : str) (m : mstate) :
  let lang := if truthy (lower (strip (group 1 m))) then lower (strip (group 1 m))
              else txt "text" in
  exists t,
    process_code_block (group 2 m) lang (Some url) = Ok (t, lang)
    /\ replace_code_block url m
       = Ok (fence ++ lang ++ [LF] ++ t ++ [LF] ++ fence).
Proof.
  intros lang. unfold replace_code_block. fold lang.
  destruct (process_code_block_returns (group 2 m) lang (Some url)) as [t Ht].
  exists t. split; [exact Ht|]. rewrite Ht. cbn [bind].
  unfold lang. destruct (lower (strip (group 1 m))) as [|c l] eqn:E;
    cbn [truthy negb orb]; [reflexivity|].
  destruct (str_eqb (c :: l) (txt "text")) eqn:Et; [|reflexivity].
  apply str_eqb_eq in Et. now rewrite Et.
Qed.

Lemma process_code_blocks_returns (md url : str) :
  exists out, process_code_blocks md url = Ok out.
Proof.
  apply sub_loop_call_returns. intros st.
  destruct (replace_code_block_ok url st) as (t & _ & ->). now eexists.
Qed.

(** The page [post_process_markdown] returns. *)
Lemma post_process_markdown_page (timestamp md url : str) :
  post_process_markdown timestamp md url
  = processed <- process_code_blocks md url ;;
    Ok (page_header timestamp url (domain_of url)
          (re_findall_count re_fence_open md) ++ processed).
Proof.
  unfold post_process_markdown.
  destruct (process_code_blocks md url) as [processed|e]; [|reflexivity].
  cbn [bind]. rewrite domain_of_ok. cbn [bind]. unfold page_header.
  destruct (0 <? re_findall_count re_fence_open md);
    cbn [str_of_bool]; repeat rewrite <- app_assoc; reflexivity.
Qed.

(** X4. [post_process_markdown] never raises: every block is formatted
    without an error, and the part of the url taken as the domain is
    always there. *)
Theorem post_process_markdown_total (timestamp md url : str) :
  exists out, post_process_markdown timestamp md url = Ok out.
Proof.
  rewrite post_process_markdown_page.
  destruct (process_code_blocks_returns md url) as [out ->]. now eexists.
Qed.

End PostProcess.

(** ** The domain of a page *)

Lemma split_on_plain (sep : ascii) (a : str) :
  count_char sep a = 0 -> split_on sep a = [a].
Proof.
  unfold count_char. induction a as [|c a IH]; [reflexivity|].
  cbn [filter split_on]. unfold ascii_eqb in *. rewrite (Ascii.eqb_sym sep c).
  destruct (Ascii.eqb c sep); [discriminate|]. intros H. now rewrite IH.
Qed.

Lemma split_on_first (sep : ascii) (a b : str) :
  count_char sep a = 0 -> split_on sep (a ++ sep :: b) = a :: split_on sep b.
Proof.
  unfold count_char. induction a as [|c a IH]; cbn [app filter split_on].
  - intros _. unfold ascii_eqb. now rewrite Ascii.eqb_refl.
  - unfold ascii_eqb in *. rewrite (Ascii.eqb_sym sep c).
    destruct (Ascii.eqb c sep); [discriminate|]. intros H. now rewrite IH.
Qed.

Lemma str_in_app_intro (needle pre post : str) :
  str_in needle (pre ++ needle ++ post) = true.
Proof.
  induction pre as [|c pre IH].
  - destruct (needle ++ post) as [|c t] eqn:E; cbn [app str_in].
    + destruct needle; [reflexivity | discriminate E].
    + rewrite <- E.
      assert (Hs : startswith needle (needle ++ post) = true).
      { clear. induction needle as [|x n IH]; [reflexivity|].
        simpl. unfold ascii_eqb. now rewrite Ascii.eqb_refl. }
      now rewrite Hs.
  - cbn [app str_in]. rewrite IH. apply orb_true_r.
Qed.

(** The domain of [scheme://host] followed by nothing or by a path is
    [host]. *)
Lemma domain_of_full_url (scheme host tail : str) :
  count_char "/" scheme = 0 -> count_char "/" host = 0 ->
  tail = [] \/ startswith (txt "/") tail = true ->
  domain_of (scheme ++ txt "://" ++ host ++ tail) = host.
Proof.
  intros Hs Hh Ht. unfold domain_of. rewrite str_in_app_intro.
  change (scheme ++ txt "://" ++ host ++ tail)
    with (scheme ++ [":"%char] ++ "/"%char :: [] ++ "/"%char :: host ++ tail).
  rewrite app_assoc, split_on_first
    by (rewrite count_char_app, Hs; reflexivity).
  rewrite split_on_first by reflexivity.
  destruct Ht as [-> | Ht].
  - rewrite app_nil_r, split_on_plain by assumption. reflexivity.
  - apply startswith_app in Ht as [path ->].
    change (host ++ txt "/" ++ path) with (host ++ "/"%char :: path).
    rewrite split_on_first by assumption. reflexivity.
Qed.

(** ** Pages without a fence *)

Lemma startswith_self_app (w s : str) : startswith w (w ++ s) = true.
Proof.
  induction w as [|c w IH]; [reflexivity|].
  simpl. unfold ascii_eqb. now rewrite Ascii.eqb_refl.
Qed.

(** A pattern that begins with a literal word matches only where the
    word is. *)
Lemma match_at_word_first (w : string) (rs : list regex) (p : option ascii)
      (s : str) (st : mstate) :
  match_at (seqs (lit w :: rs)) p s = Some st -> startswith (txt w) s = true.
Proof.
  intros H. apply match_at_matches in H.
  apply matches_seqs_inv in H as (st1 & M1 & _).
  apply matches_word in M1 as [Hr _]. cbn [rest] in Hr. rewrite Hr.
  apply startswith_self_app.
Qed.

Lemma no_word_no_match (w : string) (rs : list regex) (p : option ascii) (s : str) :
  startswith (txt w) s = false -> match_at (seqs (lit w :: rs)) p s = None.
Proof.
  intros H. destruct (match_at _ p s) as [st|] eqn:E; [|reflexivity].
  apply match_at_word_first in E. congruence.
Qed.

Lemma str_in_cons_false (needle : str) (c : ascii) (s : str) :
  str_in needle (c :: s) = false ->
  startswith needle (c :: s) = false /\ str_in needle s = false.
Proof. cbn [str_in]. intros H. now apply orb_false_iff in H. Qed.

Lemma str_in_false_start (needle s : str) :
  str_in needle s = false -> startswith needle s = false.
Proof.
  destruct s as [|c s]; cbn [str_in]; intros H; now apply orb_false_iff in H.
Qed.

(** A substitution leaves alone a text in which the first word of its
    pattern does not occur. *)
Lemma sub_loop_call_no_word (w : string) (rs : list regex)
      (f : mstate -> result str) (s : str) :
  str_in (txt w) s = false ->
  forall fuel p, sub_loop_call fuel (seqs (lit w :: rs)) f p s = Ok s.
Proof.
  induction s as [|c s IH]; intros H fuel p.
  - destruct fuel; [reflexivity|]. cbn [sub_loop_call].
    rewrite no_word_no_match by now apply str_in_false_start. reflexivity.
  - destruct fuel; [reflexivity|]. cbn [sub_loop_call].
    rewrite no_word_no_match by now apply str_in_false_start.
    apply str_in_cons_false in H as [_ H]. now rewrite IH.
Qed.

Lemma count_loop_no_word (w : string) (rs : list regex) (s : str) :
  str_in (txt w) s = false ->
  forall fuel p, count_loop fuel (seqs (lit w :: rs)) p s = 0.
Proof.
  induction s as [|c s IH]; intros H fuel p.
  - destruct fuel; [reflexivity|]. cbn [count_loop].
    rewrite no_word_no_match by now apply str_in_false_start. reflexivity.
  - destruct fuel; [reflexivity|]. cbn [count_loop].
    rewrite no_word_no_match by now apply str_in_false_start.
    apply str_in_cons_false in H as [_ H]. now apply IH.
Qed.

Section Pages.

Context {PF : PyFloat} {PL : PyLimits}.

(** X5. The domain written in the header of a page is the host of its
    url: for a url [scheme://host], alone or followed by a path, with no
    slash in [scheme] and [host], the page is the header with [host] as
    domain followed by the processed text. *)
Theorem page_domain_is_host (timestamp md scheme host tail : str) :
  count_char "/" scheme = 0 -> count_char "/" host = 0 ->
  tail = [] \/ startswith (txt "/") tail = true ->
  let url := scheme ++ txt "://" ++ host ++ tail in
  exists processed,
    process_code_blocks md url = Ok processed
    /\ post_process_markdown timestamp md url
       = Ok (page_header timestamp url host (re_findall_count re_fence_open md)
             ++ processed).
Proof.
  intros Hs Hh Ht url. rewrite post_process_markdown_page.
  destruct (process_code_blocks_returns md url) as [processed E].
  exists processed. split; [exact E|]. rewrite E. cbn [bind].
  unfold url. now rewrite domain_of_full_url.
Qed.

(** X6. A page without a code fence comes back unchanged below its header,
    which says that the page contains no code. *)
Theorem fence_free_page_unchanged (timestamp md url : str) :
  str_in fence md = false ->
  post_process_markdown timestamp md url
  = Ok (page_header timestamp url (domain_of url) 0 ++ md).
Proof.
  intros H. rewrite post_process_markdown_page.
  unfold process_code_blocks, re_sub_call, re_findall_count.
  unfold re_code_block, re_fence_open.
  rewrite sub_loop_call_no_word by exact H.
  rewrite count_loop_no_word by exact H. reflexivity.
Qed.

End Pages.

Lemma page_domain_is_host_crawl4ai :
  let md := text_of_lines ["# Title"; "```python"; "x=1"; "```"]%string in
  count_char "/" (txt "https") = 0 /\ count_char "/" (txt "docs.crawl4ai.com") = 0
  /\ (txt "/core/" = [] \/ startswith (txt "/") (txt "/core/") = true)
  /\ exists processed,
       @process_code_blocks literal_floats example_limits md (txt "https://docs.crawl4ai.com/core/")
       = Ok processed
       /\ @post_process_markdown literal_floats example_limits (txt "2025-01-01T00:00:00") md
            (txt "https://docs.crawl4ai.com/core/")
          = Ok (page_header (txt "2025-01-01T00:00:00")
                  (txt "https://docs.crawl4ai.com/core/") (txt "docs.crawl4ai.com")
                  (re_findall_count re_fence_open md)
                ++ processed).
Proof.
  intros md.
  assert (H1 : count_char "/" (txt "https") = 0) by reflexivity.
  assert (H2 : count_char "/" (txt "docs.crawl4ai.com") = 0) by reflexivity.
  assert (H3 : txt "/core/" = [] \/ startswith (txt "/") (txt "/core/") = true)
    by (right; reflexivity).
  repeat (split; [assumption|]).
  exact (@page_domain_is_host literal_floats example_limits (txt "2025-01-01T00:00:00") md
           (txt "https") (txt "docs.crawl4ai.com") (txt "/core/") H1 H2 H3).
Defined.

Lemma fence_free_page_unchanged_hello :
  str_in fence (text_of_lines ["# Hello"; ""; "Some `inline` code."]%string) = false
  /\ @post_process_markdown literal_floats example_limits (txt "2025-01-01T00:00:00")
       (text_of_lines ["# Hello"; ""; "Some `inline` code."]%string)
       (txt "https://example.com/a")
     = Ok (page_header (txt "2025-01-01T00:00:00") (txt "https://example.com/a")
             (domain_of (txt "https://example.com/a")) 0
           ++ text_of_lines ["# Hello"; ""; "Some `inline` code."]%string).
Proof.
  assert (H : str_in fence
                (text_of_lines ["# Hello"; ""; "Some `inline` code."]%string) = false)
    by reflexivity.
  split; [exact H|].
  exact (@fence_free_page_unchanged literal_floats example_limits (txt "2025-01-01T00:00:00")
           (text_of_lines ["# Hello"; ""; "Some `inline` code."]%string)
           (txt "https://example.com/a") H).
Defined.

(** ** Pages with one block *)

Lemma ltb_succ (n : nat) : (n <? S n) = true.
Proof. apply Nat.ltb_lt. lia. Qed.

Lemma prev_after_app (a b : str) (p : option ascii) :
  prev_after (a ++ b) p = prev_after b (prev_after a p).
Proof. unfold prev_after. apply fold_left_app. Qed.

(** A greedy repetition of a character class takes the whole run of the
    class when the continuation accepts what follows the run. *)
Lemma rmatch_star_greedy_run {A} (p : ascii -> bool) (a r : str)
      (k : mstate -> option A) (v : A) :
  forallb p a = true ->
  match r with [] => True | c :: _ => p c = false end ->
  forall (q : option ascii) (g : list (nat * str)),
    k (MState (prev_after a q) r g) = Some v ->
    rmatch (Star true (Chr p)) (MState q (a ++ r) g) k = Some v.
Proof.
  intros Ha Hr. induction a as [|c a IH]; intros q g Hk.
  - cbn [app rmatch rest]. cbn [prev_after fold_left] in Hk.
    destruct r as [|c r].
    + cbn [length star_loop or_else]. exact Hk.
    + cbn [length]. rewrite star_loop_step. cbv zeta. cbn [rmatch rest].
      rewrite Hr. cbn [or_else]. exact Hk.
  - cbn [forallb] in Ha. apply andb_true_iff in Ha as [Hc Ha].
    cbn [app rmatch rest length]. rewrite star_loop_step. cbv zeta.
    cbn [rmatch rest groups]. rewrite Hc. cbn [rest length].
    rewrite ltb_succ.
    specialize (IH Ha (Some c) g Hk). cbn [rmatch rest] in IH. rewrite IH.
    reflexivity.
Qed.

(** A lazy repetition of any character stops at the first place where
    the continuation accepts. *)
Lemma rmatch_star_lazy_run {A} (a r : str) (k : mstate -> option A) (v : A) :
  forall (q : option ascii) (g : list (nat * str)),
    (forall a1 a2, a = a1 ++ a2 -> a2 <> [] ->
                   k (MState (prev_after a1 q) (a2 ++ r) g) = None) ->
    k (MState (prev_after a q) r g) = Some v ->
    rmatch (Star false dot_all) (MState q (a ++ r) g) k = Some v.
Proof.
  induction a as [|c a IH]; intros q g Hnone Hk.
  - cbn [app rmatch rest]. cbn [prev_after fold_left] in Hk.
    destruct (length r); [cbn [star_loop] | rewrite star_loop_step; cbv zeta];
      now rewrite Hk.
  - cbn [app rmatch rest length]. rewrite star_loop_step. cbv zeta.
    pose proof (Hnone [] (c :: a) eq_refl ltac:(discriminate)) as H0.
    cbn [prev_after fold_left app] in H0. rewrite H0. cbn [or_else].
    unfold dot_all at 1. cbn [rmatch rest groups length].
    rewrite ltb_succ.
    assert (IH' := IH (Some c) g). cbn [rmatch rest] in IH'. apply IH'.
    + intros a1 a2 E Hne. apply (Hnone (c :: a1) a2); [now rewrite E | exact Hne].
    + exact Hk.
Qed.

(** Skipping a piece of text at no place of which the pattern matches. *)
Lemma sub_loop_call_skip (r : regex) (f : mstate -> result str) (s : str) (fuel : nat) :
  forall (pre : str) (p : option ascii),
    (forall pre1 pre2, pre = pre1 ++ pre2 -> pre2 <> [] ->
                       match_at r (prev_after pre1 p) (pre2 ++ s) = None) ->
    sub_loop_call (length pre + fuel) r f p (pre ++ s)
    = out <- sub_loop_call fuel r f (prev_after pre p) s ;; Ok (pre ++ out).
Proof.
  induction pre as [|c pre IH]; intros p Hnone.
  - cbn [app length Nat.add prev_after fold_left].
    now destruct (sub_loop_call fuel r f p s).
  - cbn [app length Nat.add sub_loop_call].
    pose proof (Hnone [] (c :: pre) eq_refl ltac:(discriminate)) as H0.
    cbn [prev_after fold_left app] in H0. rewrite H0.
    rewrite (IH (Some c)).
    + cbn [prev_after fold_left].
      now destruct (sub_loop_call fuel r f _ s).
    + intros pre1 pre2 E Hne. apply (Hnone (c :: pre1) pre2); [now rewrite E | exact Hne].
Qed.

Lemma count_loop_skip (r : regex) (s : str) (fuel : nat) :
  forall (pre : str) (p : option ascii),
    (forall pre1 pre2, pre = pre1 ++ pre2 -> pre2 <> [] ->
                       match_at r (prev_after pre1 p) (pre2 ++ s) = None) ->
    count_loop (length pre + fuel) r p (pre ++ s)
    = count_loop fuel r (prev_after pre p) s.
Proof.
  induction pre as [|c pre IH]; intros p Hnone; [reflexivity|].
  cbn [app length Nat.add count_loop].
  pose proof (Hnone [] (c :: pre) eq_refl ltac:(discriminate)) as H0.
  cbn [prev_after fold_left app] in H0. rewrite H0.
  rewrite (IH (Some c)); [reflexivity|].
  intros pre1 pre2 E Hne. apply (Hnone (c :: pre1) pre2); [now rewrite E | exact Hne].
Qed.

Lemma fence_chars : fence = ["`"; "`"; "`"]%char.
Proof. reflexivity. Qed.

(** No fence begins inside a text without fence that does not end with a
    backquote, whatever follows it. *)
Lemma no_fence_before (pre1 pre2 s : str) :
  str_in fence (pre1 ++ pre2) = false ->
  last (pre1 ++ pre2) " "%char <> "`"%char ->
  pre2 <> [] ->
  startswith fence (pre2 ++ s) = false.
Proof.
  intros Hin Hlast Hne.
  assert (Hin2 : str_in fence pre2 = false).
  { clear -Hin. induction pre1 as [|c pre1 IH]; [exact Hin|].
    apply IH. cbn [app] in Hin. now apply str_in_cons_false in Hin. }
  assert (Hlast2 : last pre2 " "%char <> "`"%char).
  { clear -Hlast Hne. induction pre1 as [|c pre1 IH]; [exact Hlast|].
    apply IH. cbn [app] in Hlast.
    destruct (pre1 ++ pre2) eqn:E; [|exact Hlast].
    apply app_eq_nil in E as [_ E]. contradiction. }
  clear Hin Hlast. apply str_in_false_start in Hin2.
  rewrite fence_chars in *.
  destruct pre2 as [|c1 [|c2 [|c3 pre2]]]; [contradiction | | |];
    cbn [last] in Hlast2; cbn [app startswith] in *.
  - destruct (ascii_eqb "`" c1) eqn:E; [|reflexivity].
    apply ascii_eqb_eq in E. congruence.
  - destruct (ascii_eqb "`" c1); [|reflexivity].
    destruct (ascii_eqb "`" c2) eqn:E; [|reflexivity].
    apply ascii_eqb_eq in E. congruence.
  - exact Hin2.
Qed.

(** The end of a block is not found before the end of a code that does
    not contain it. *)
Lemma no_block_end_inside (a1 a2 s : str) :
  str_in (LF :: fence) (a1 ++ a2) = false -> a2 <> [] ->
  startswith (LF :: fence) (a2 ++ LF :: fence ++ s) = false.
Proof.
  intros Hin Hne.
  assert (Hin2 : str_in (LF :: fence) a2 = false).
  { clear -Hin. induction a1 as [|c a1 IH]; [exact Hin|].
    apply IH. cbn [app] in Hin. now apply str_in_cons_false in Hin. }
  apply str_in_false_start in Hin2. rewrite fence_chars in *.
  destruct a2 as [|c1 [|c2 [|c3 [|c4 a2]]]]; [contradiction | | | |];
    cbn [app startswith] in *.
  - destruct (ascii_eqb LF c1); reflexivity.
  - destruct (ascii_eqb LF c1); [|reflexivity].
    destruct (ascii_eqb "`" c2); reflexivity.
  - destruct (ascii_eqb LF c1); [|reflexivity].
    destruct (ascii_eqb "`" c2); [|reflexivity].
    destruct (ascii_eqb "`" c3); reflexivity.
  - exact Hin2.
Qed.

Lemma rmatch_group {A} (n : nat) (r : regex) (st : mstate) (k : mstate -> option A) :
  rmatch (Group n r) st k
  = rmatch r st (fun st' =>
      k (set_group n (firstn (length (rest st) - length (rest st')) (rest st)) st')).
Proof. reflexivity. Qed.

Lemma rmatch_chr_hit {A} (c : ascii) (q : option ascii) (t : str)
      (g : list (nat * str)) (k : mstate -> option A) :
  rmatch (chr c) (MState q (c :: t) g) k = k (MState (Some c) t g).
Proof. cbn [chr rmatch rest groups]. unfold ascii_eqb. now rewrite Ascii.eqb_refl. Qed.

Lemma rmatch_word_first_none {A} (w : str) (rs : list regex) (st : mstate)
      (k : mstate -> option A) :
  startswith w (rest st) = false ->
  rmatch (seqs (seqs (map chr w) :: rs)) st k = None.
Proof.
  intros H. destruct (rmatch _ st k) as [v|] eqn:E; [|reflexivity].
  apply rmatch_sound in E as (st' & M & _).
  apply matches_seqs_inv in M as (st1 & M1 & _).
  apply matches_word in M1 as [Hr _]. rewrite Hr, startswith_self_app in H.
  discriminate H.
Qed.

Lemma dot_line_feed : (fun c => negb (ascii_eqb c LF)) LF = false.
Proof. reflexivity. Qed.

(** The match of the block pattern at the opening fence of a block. *)
Lemma match_at_code_block (p : option ascii) (hint code post : str) :
  forallb (fun c => negb (ascii_eqb c LF)) hint = true ->
  str_in (LF :: fence) code = false ->
  match_at re_code_block p (fence ++ hint ++ LF :: code ++ LF :: fence ++ post)
  = Some (MState (Some "`"%char) post [(2, code); (1, hint)]).
Proof.
  intros Hhint Hcode. unfold match_at, re_code_block.
  rewrite rmatch_seqs_cons. unfold lit at 1. change (txt "```") with fence.
  rewrite rmatch_word, rmatch_seqs_cons, rmatch_group.
  unfold star, dot. apply rmatch_star_greedy_run; [exact Hhint | reflexivity|].
  cbn [rest]. rewrite firstn_consumed. unfold set_group. cbn [prev rest groups].
  rewrite rmatch_seqs_cons, rmatch_chr_hit, rmatch_seqs_cons, rmatch_group.
  apply rmatch_star_lazy_run.
  - intros a1 a2 E Hne. cbn [rest].
    change (seqs [chr LF; lit "```"]) with (seqs (seqs (map chr [LF]) :: [lit "```"])).
    unfold lit.
    destruct (rmatch _ _ _) as [v|] eqn:Ev; [|reflexivity]. exfalso.
    apply rmatch_sound in Ev as (st' & M & _).
    apply matches_seqs_inv in M as (st1 & M1 & M2).
    apply matches_word in M1 as [Hr1 _]. apply matches_word in M2 as [Hr2 _].
    cbn [rest set_group] in Hr1. rewrite Hr2 in Hr1.
    assert (Hs : startswith (LF :: fence) (a2 ++ LF :: fence ++ post) = true).
    { rewrite Hr1. apply (startswith_self_app (LF :: fence)). }
    rewrite no_block_end_inside with (a1 := a1) in Hs;
      [discriminate Hs | now rewrite <- E | exact Hne].
  - cbn [rest]. rewrite firstn_consumed. unfold set_group. cbn [prev rest groups].
    rewrite rmatch_seqs_cons, rmatch_chr_hit. unfold lit. change (txt "```") with fence.
    change (seqs [seqs (map chr fence)]) with (seqs (map chr fence)).
    rewrite rmatch_word. reflexivity.
Qed.

Section OneBlock.

Context {PF : PyFloat} {PL : PyLimits}.

(** X7. A page with one block: a text without fence that does not end
    with a backquote, a fence with a hint on its line, a code in which no
    line feed is followed by a fence, a line feed and the closing fence,
    and a text without fence.  The block is replaced by the code formatted
    by [process_code_block] in the language of the hint (trimmed, in lower
    case; [text] when it is empty) between fences that carry that
    language; the text around the block is unchanged. *)
Theorem one_block_page (timestamp url pre hint code post : str) :
  str_in fence pre = false -> last pre " "%char <> "`"%char ->
  forallb (fun c => negb (ascii_eqb c LF)) hint = true ->
  str_in (LF :: fence) code = false ->
  str_in fence post = false ->
  let md := pre ++ fence ++ hint ++ LF :: code ++ LF :: fence ++ post in
  let lang := if truthy (lower (strip hint)) then lower (strip hint)
              else txt "text" in
  exists t,
    process_code_block code lang (Some url) = Ok (t, lang)
    /\ post_process_markdown timestamp md url
       = Ok (page_header timestamp url (domain_of url)
               (re_findall_count re_fence_open md)
             ++ pre ++ fence ++ lang ++ LF :: t ++ LF :: fence ++ post).
Proof.
  intros Hpre Hlast Hhint Hcode Hpost md lang.
  set (st := MState (Some "`"%char) post [(2, code); (1, hint)]).
  destruct (replace_code_block_ok url st) as (t & Ht & Hr).
  change (group 2 st) with code in Ht. change (group 1 st) with hint in Ht, Hr.
  fold lang in Ht, Hr.
  exists t. split; [exact Ht|].
  rewrite post_process_markdown_page.
  assert (Hsub : process_code_blocks md url
                 = Ok (pre ++ fence ++ lang ++ LF :: t ++ LF :: fence ++ post)).
  { unfold process_code_blocks.
    rewrite (re_sub_call_any_fuel _ _ _ 0). cbn [Nat.add].
    unfold md. rewrite length_app.
    replace (S (length pre + length (fence ++ hint ++ LF :: code ++ LF :: fence ++ post)))
      with (length pre + S (length (fence ++ hint ++ LF :: code ++ LF :: fence ++ post)))
      by lia.
    rewrite sub_loop_call_skip.
    2:{ intros pre1 pre2 E Hne. unfold re_code_block.
        apply no_word_no_match. change (txt "```") with fence.
        apply (no_fence_before pre1); [now rewrite <- E | now rewrite <- E | exact Hne]. }
    cbn [sub_loop_call]. rewrite (match_at_code_block _ hint code post Hhint Hcode).
    fold st. rewrite Hr. cbn [bind]. change (rest st) with post.
    destruct (length (fence ++ hint ++ LF :: code ++ LF :: fence ++ post)
              - length post) eqn:En.
    { exfalso. repeat (rewrite !length_app in En; cbn [length] in En).
      change (length fence) with 3 in En. lia. }
    unfold re_code_block. rewrite sub_loop_call_no_word by exact Hpost.
    cbn [bind]. repeat rewrite <- app_assoc. reflexivity. }
  rewrite Hsub. reflexivity.
Qed.

End OneBlock.

(** ** The number of blocks in the header *)

Lemma str_in_suffix_false (needle a b : str) :
  str_in needle (a ++ b) = false -> str_in needle b = false.
Proof.
  induction a as [|c a IH]; [auto|]. cbn [app]. intros H.
  apply str_in_cons_false in H as [_ H]. now apply IH.
Qed.

Lemma startswith_fence_line_feed (a s : str) :
  startswith fence (a ++ LF :: s) = true -> startswith fence a = true.
Proof.
  rewrite fence_chars.
  destruct a as [|c1 [|c2 [|c3 a]]]; cbn [app startswith]; intros H.
  - discriminate H.
  - apply andb_true_iff in H as [_ H]. discriminate H.
  - apply andb_true_iff in H as [_ H]. apply andb_true_iff in H as [_ H].
    discriminate H.
  - exact H.
Qed.

(** A fence does not reach over a line feed. *)
Lemma str_in_fence_line_feed (a s : str) :
  str_in fence a = false -> str_in fence s = false ->
  str_in fence (a ++ LF :: s) = false.
Proof.
  intros Ha Hs. induction a as [|c a IH].
  - cbn [app str_in]. rewrite Hs. now rewrite fence_chars.
  - apply str_in_cons_false in Ha as [Hc Ha]. cbn [app str_in].
    rewrite (IH Ha), orb_false_r.
    destruct (startswith fence (c :: a ++ LF :: s)) eqn:E; [|reflexivity].
    apply (startswith_fence_line_feed (c :: a)) in E. congruence.
Qed.

(** The text up to the first line feed. *)
Lemma first_line_feed (s : str) :
  existsb (ascii_eqb LF) s = true ->
  exists a b, s = a ++ LF :: b
              /\ forallb (fun c => negb (ascii_eqb c LF)) a = true.
Proof.
  induction s as [|c s IH]; [discriminate|]. cbn [existsb]. intros H.
  destruct (ascii_eqb LF c) eqn:E.
  - apply ascii_eqb_eq in E. subst c. now exists [], s.
  - destruct (IH H) as (a & b & -> & Ha). exists (c :: a), b. split; [reflexivity|].
    cbn [forallb]. unfold ascii_eqb in *. rewrite Ascii.eqb_sym, E. exact Ha.
Qed.

(** The fence-line pattern matches a fence and the rest of its line. *)
Lemma match_at_fence_line (p : option ascii) (a b : str) :
  forallb (fun c => negb (ascii_eqb c LF)) a = true ->
  match_at re_fence_open p (fence ++ a ++ LF :: b) = Some (MState (Some LF) b []).
Proof.
  intros Ha. unfold match_at, re_fence_open.
  rewrite rmatch_seqs_cons. unfold lit. change (txt "```") with fence.
  rewrite rmatch_word, rmatch_seqs_cons. unfold star, dot.
  apply rmatch_star_greedy_run; [exact Ha | reflexivity|].
  change (seqs [chr LF]) with (chr LF). now rewrite rmatch_chr_hit.
Qed.

(** The fence-line pattern matches only where a line feed follows. *)
Lemma match_at_fence_line_none (p : option ascii) (s : str) :
  existsb (ascii_eqb LF) s = false -> match_at re_fence_open p s = None.
Proof.
  intros H. destruct (match_at re_fence_open p s) as [st|] eqn:E; [|reflexivity].
  exfalso. apply match_at_matches in E. unfold re_fence_open in E.
  apply matches_seqs_inv in E as (st1 & M1 & M2).
  apply matches_seqs_inv in M2 as (st2 & M2 & M3).
  apply matches_word in M1 as [Hr1 _].
  apply matches_star_class in M2 as (a & Hr2 & _ & _).
  apply matches_chr_inv in M3 as (c & Hc & Hr3 & _ & _).
  apply ascii_eqb_eq in Hc. subst c.
  cbn [rest] in Hr1. rewrite Hr2, Hr3 in Hr1. rewrite Hr1 in H.
  rewrite !existsb_app in H. cbn [existsb] in H.
  change (ascii_eqb LF LF) with true in H.
  rewrite orb_true_l, !orb_true_r in H. discriminate H.
Qed.

Lemma count_loop_no_line_feed (s : str) :
  existsb (ascii_eqb LF) s = false ->
  forall fuel p, count_loop fuel re_fence_open p s = 0.
Proof.
  induction s as [|c s IH]; intros H fuel p.
  - destruct fuel; [reflexivity|]. cbn [count_loop].
    now rewrite match_at_fence_line_none.
  - destruct fuel; [reflexivity|]. cbn [count_loop].
    rewrite match_at_fence_line_none by exact H.
    cbn [existsb] in H. apply orb_false_iff in H as [_ H]. now apply IH.
Qed.

(** The fence lines of a page with one block. *)
Lemma count_one_block (pre hint code post : str) :
  str_in fence pre = false -> last pre " "%char <> "`"%char ->
  forallb (fun c => negb (ascii_eqb c LF)) hint = true ->
  str_in fence code = false ->
  str_in fence post = false ->
  re_findall_count re_fence_open
    (pre ++ fence ++ hint ++ LF :: code ++ LF :: fence ++ post)
  = if existsb (ascii_eqb LF) post then 2 else 1.
Proof.
  intros Hpre Hlast Hhint Hcode Hpost.
  unfold re_findall_count.
  replace (pre ++ fence ++ hint ++ LF :: code ++ LF :: fence ++ post)
    with (pre ++ fence ++ hint ++ LF :: (code ++ [LF]) ++ fence ++ post)
    by (now rewrite <- app_assoc).
  set (close := fence ++ post).
  set (body := code ++ [LF]).
  replace (S (length (pre ++ fence ++ hint ++ LF :: body ++ close)))
    with (length pre + S (length body + S (6 + length hint + length post))).
  2:{ unfold body, close. repeat (rewrite !length_app; cbn [length]).
      change (length fence) with 3. lia. }
  rewrite count_loop_skip.
  2:{ intros pre1 pre2 E Hne. unfold re_fence_open.
      apply no_word_no_match. change (txt "```") with fence.
      apply (no_fence_before pre1); [now rewrite <- E | now rewrite <- E | exact Hne]. }
  cbn [count_loop].
  rewrite (match_at_fence_line _ hint (body ++ close) Hhint). cbn [rest prev].
  destruct (length (fence ++ hint ++ LF :: body ++ close) - length (body ++ close))
    eqn:En.
  { exfalso. repeat (rewrite !length_app in En; cbn [length] in En).
    change (length fence) with 3 in En. lia. }
  rewrite count_loop_skip.
  2:{ intros a1 a2 E Hne. unfold re_fence_open.
      apply no_word_no_match. change (txt "```") with fence.
      apply (no_fence_before a1).
      - rewrite <- E. unfold body.
        now apply (str_in_fence_line_feed code []).
      - rewrite <- E. unfold body. rewrite last_last. discriminate.
      - exact Hne. }
  unfold close.
  destruct (existsb (ascii_eqb LF) post) eqn:Elf.
  - apply first_line_feed in Elf as (a & b & -> & Ha).
    cbn [count_loop]. rewrite (match_at_fence_line _ a b Ha). cbn [rest prev].
    destruct (length (fence ++ a ++ LF :: b) - length b) eqn:En'.
    { exfalso. repeat (rewrite !length_app in En'; cbn [length] in En').
      change (length fence) with 3 in En'. lia. }
    unfold re_fence_open. rewrite count_loop_no_word; [reflexivity|].
    change (txt "```") with fence. apply (str_in_suffix_false fence (a ++ [LF])).
    now rewrite <- app_assoc.
  - rewrite count_loop_no_line_feed; [reflexivity|].
    rewrite existsb_app, Elf. reflexivity.
Qed.

Section BlockCount.

Context {PF : PyFloat} {PL : PyLimits}.

(** X8. [code_blocks_count] counts fence lines, not blocks: a page with one
    block, whose code contains no fence, is counted as two blocks when a
    line feed follows the closing fence anywhere in the rest of the page,
    and as one block otherwise. *)
Theorem one_block_counted_twice (timestamp url pre hint code post : str) :
  str_in fence pre = false -> last pre " "%char <> "`"%char ->
  forallb (fun c => negb (ascii_eqb c LF)) hint = true ->
  str_in fence code = false ->
  str_in fence post = false ->
  let md := pre ++ fence ++ hint ++ LF :: code ++ LF :: fence ++ post in
  exists processed,
    process_code_blocks md url = Ok processed
    /\ post_process_markdown timestamp md url
       = Ok (page_header timestamp url (domain_of url)
               (if existsb (ascii_eqb LF) post then 2 else 1)
             ++ processed).
Proof.
  intros Hpre Hlast Hhint Hcode Hpost md.
  destruct (process_code_blocks_returns md url) as [processed E].
  exists processed. split; [exact E|].
  rewrite post_process_markdown_page, E. cbn [bind].
  unfold md. now rewrite count_one_block.
Qed.

End BlockCount.

(** ** detect_code_language without a usable hint *)

Lemma is_space_spaces (c : ascii) : is_space c = true -> In c spaces.
Proof.
  destruct c as [[] [] [] [] [] [] [] []]; vm_compute; intros H;
    first [discriminate H | tauto].
Qed.

Lemma no_ink_spaces (s : str) : has_ink s = false -> Forall (fun c => In c spaces) s.
Proof.
  induction s as [|c s IH]; [constructor|]. cbn [has_ink existsb].
  intros H. apply orb_false_iff in H as [Hc Hs].
  constructor; [|now apply IH].
  apply is_space_spaces. now destruct (is_space c).
Qed.

Lemma no_ink_suffix (a b : str) : has_ink (a ++ b) = false -> has_ink b = false.
Proof. rewrite has_ink_app. intros H. now apply orb_false_iff in H. Qed.

(** A pattern that matches in a text without ink passes [blank_ok]. *)
Lemma matches_blank_ok (r : regex) (st st' : mstate) :
  matches r st st' -> has_ink (rest st) = false -> blank_ok r = true.
Proof.
  induction 1 as [ st | p st c t Er Ep | r1 r2 st st1 st2 M1 IH1 M2 IH2
                 | r1 r2 st st' M IH | r1 r2 st st' M IH
                 | greedy r st | greedy r st st1 st2 M1 IH1 Hlt M2 IH2
                 | n r st st1 M IH | ml st E | ml st E | st E ];
    intros Hink; cbn [blank_ok]; try reflexivity.
  - apply existsb_exists. exists c. split; [|exact Ep].
    apply no_ink_spaces in Hink. rewrite Er in Hink. now inversion Hink.
  - rewrite (IH1 Hink). cbn [andb]. apply IH2.
    destruct (matches_rest _ _ _ M1) as [a Ha]. rewrite Ha in Hink.
    now apply no_ink_suffix in Hink.
  - now rewrite IH.
  - rewrite IH by assumption. apply orb_true_r.
  - now apply IH.
Qed.

Lemma search_from_none (r : regex) (s : str) :
  (forall a b q, s = a ++ b -> match_at r q b = None) ->
  forall p i, search_from r p s i = None.
Proof.
  induction s as [|c s IH]; intros H p i; cbn [search_from].
  - now rewrite (H [] []).
  - rewrite (H [] (c :: s)) by reflexivity. apply IH.
    intros a b q E. apply (H (c :: a) b). now rewrite E.
Qed.

(** A pattern that needs ink is not found in a text without ink. *)
Lemma re_search_blank (r : regex) (x : str) :
  blank_ok r = false -> has_ink x = false -> re_search r x = false.
Proof.
  intros Hr Hx. unfold re_search. rewrite search_from_none; [reflexivity|].
  intros a b q E. destruct (match_at r q b) as [st|] eqn:Em; [|reflexivity].
  apply match_at_matches in Em. apply matches_blank_ok in Em; [congruence|].
  cbn [rest]. rewrite E in Hx. now apply no_ink_suffix in Hx.
Qed.

(** X9. Without a usable hint, a block with no character other than white
    space (the empty block among them) is classified as [text], whatever
    the url is. *)
Theorem blank_block_is_text (x : str) (hint : option str) (u : option str) :
  usable_hint hint = false -> has_ink x = false ->
  detect_code_language x hint u = txt "text".
Proof.
  intros Hh Hx. unfold detect_code_language. fold (usable_hint hint). rewrite Hh.
  rewrite (re_search_blank re_url_context x), andb_false_r by (reflexivity || exact Hx).
  rewrite (re_search_blank re_python x) by (reflexivity || exact Hx).
  rewrite (re_search_blank re_javascript x) by (reflexivity || exact Hx).
  rewrite (re_search_blank re_html x) by (reflexivity || exact Hx).
  rewrite (re_search_blank re_sql x) by (reflexivity || exact Hx).
  rewrite (re_search_blank re_json_open x) by (reflexivity || exact Hx).
  rewrite (re_search_blank re_java x) by (reflexivity || exact Hx).
  rewrite (re_search_blank re_cpp x) by (reflexivity || exact Hx).
  rewrite (re_search_blank re_go x) by (reflexivity || exact Hx).
  rewrite (re_search_blank re_rust x) by (reflexivity || exact Hx).
  rewrite (re_search_blank re_bash x) by (reflexivity || exact Hx).
  rewrite (re_search_blank re_yaml x) by (reflexivity || exact Hx).
  reflexivity.
Qed.

Lemma blank_block_is_text_tabs :
  usable_hint (Some (txt " Text ")) = false
  /\ has_ink (txt "   " ++ [LF; "009"%char; CR; LF]) = false
  /\ detect_code_language (txt "   " ++ [LF; "009"%char; CR; LF])
       (Some (txt " Text ")) (Some (txt "https://docs.crawl4ai.com/"))
     = txt "text".
Proof.
  assert (H1 : usable_hint (Some (txt " Text ")) = false) by reflexivity.
  assert (H2 : has_ink (txt "   " ++ [LF; "009"%char; CR; LF]) = false)
    by reflexivity.
  split; [exact H1 | split; [exact H2|]].
  exact (blank_block_is_text _ _ (Some (txt "https://docs.crawl4ai.com/")) H1 H2).
Defined.

(** ** An import statement *)

Lemma matches_chr_step (p : ascii -> bool) (q : option ascii) (c : ascii) (t : str)
      (g : list (nat * str)) :
  p c = true -> matches (Chr p) (MState q (c :: t) g) (MState (Some c) t g).
Proof. intros H. now apply (matches_chr p (MState q (c :: t) g) c t). Qed.

Lemma matches_seqs_cons (r : regex) (rs : list regex) (st st1 st2 : mstate) :
  matches r st st1 -> matches (seqs rs) st1 st2 -> matches (seqs (r :: rs)) st st2.
Proof.
  intros M1 M2. destruct rs as [|r' rs].
  - apply matches_eps_inv in M2. now subst.
  - now apply matches_seq with st1.
Qed.

(** A word matches itself whatever the letter case of the pattern. *)
Lemma matches_iword (w s : str) (q : option ascii) (g : list (nat * str)) :
  matches (seqs (map ichr w)) (MState q (w ++ s) g) (MState (prev_after w q) s g).
Proof.
  revert q; induction w as [|c w IH]; intros q; [constructor|].
  change (map ichr (c :: w)) with (ichr c :: map ichr w).
  apply matches_seqs_cons with (MState (Some c) (w ++ s) g).
  - apply matches_chr_step. unfold ascii_eqb. apply Ascii.eqb_refl.
  - apply IH.
Qed.

(** A run of characters of a class matches a repetition of the class. *)
Lemma matches_star_run (greedy : bool) (p : ascii -> bool) (a s : str)
      (q : option ascii) (g : list (nat * str)) :
  forallb p a = true ->
  matches (Star greedy (Chr p)) (MState q (a ++ s) g) (MState (prev_after a q) s g).
Proof.
  revert q; induction a as [|c a IH]; intros q H; [constructor|].
  cbn [forallb] in H. apply andb_true_iff in H as [Hc Ha].
  apply matches_star_more with (MState (Some c) (a ++ s) g).
  - now apply matches_chr_step.
  - simpl. lia.
  - now apply IH.
Qed.

Lemma matches_plus_run (p : ascii -> bool) (a s : str) (q : option ascii)
      (g : list (nat * str)) :
  a <> [] -> forallb p a = true ->
  matches (plus (Chr p)) (MState q (a ++ s) g) (MState (prev_after a q) s g).
Proof.
  intros Hne H. destruct a as [|c a]; [contradiction|].
  cbn [forallb] in H. apply andb_true_iff in H as [Hc Ha].
  apply matches_seq with (MState (Some c) (a ++ s) g).
  - now apply matches_chr_step.
  - now apply (matches_star_run true p a s (Some c) g).
Qed.

(** A pattern is found in a text where it has a match. *)
Lemma re_search_found (r : regex) (pre s : str) :
  (forall q, exists st, matches r (MState q s []) st) ->
  re_search r (pre ++ s) = true.
Proof.
  intros H. unfold re_search.
  destruct (search_from r None (pre ++ s) 0) eqn:E; [reflexivity|].
  exfalso. revert E. apply search_from_found. intros q.
  destruct (H q) as [st M]. now apply (match_at_complete r q s st).
Qed.

(** X10. Without a usable hint, a block in which the word [import] is
    followed by white space and a word character is classified as python,
    whatever else it contains and whatever the url is: the Python rule
    comes before the JavaScript rule for [import ... from]. *)
Theorem import_statement_is_python (pre sp post : str) (w : ascii)
        (hint : option str) (u : option str) :
  usable_hint hint = false ->
  sp <> [] -> forallb is_space sp = true -> is_word w = true ->
  detect_code_language (pre ++ txt "import" ++ sp ++ w :: post) hint u
  = txt "python".
Proof.
  intros Hh Hne Hsp Hw. unfold detect_code_language. fold (usable_hint hint).
  rewrite Hh.
  assert (Hpy : re_search re_python (pre ++ txt "import" ++ sp ++ w :: post) = true).
  { apply re_search_found. intros q. eexists.
    unfold re_python. cbn [alts]. apply matches_alt_l.
    apply matches_seqs_cons with (MState (prev_after (txt "import") q)
                                    (sp ++ w :: post) []);
      [apply matches_iword|].
    apply matches_seqs_cons with (MState (prev_after sp (prev_after (txt "import") q))
                                    (w :: post) []);
      [now apply matches_plus_run|].
    change (seqs [plus W]) with (plus W).
    apply (matches_plus_run is_word [w] post); [discriminate|].
    cbn [forallb]. now rewrite Hw. }
  rewrite Hpy. now destruct (_ && _).
Qed.

Lemma import_statement_is_python_react :
  usable_hint None = false
  /\ txt " " <> [] /\ forallb is_space (txt " ") = true /\ is_word "R" = true
  /\ detect_code_language
       (txt "// app" ++ [LF] ++ txt "import" ++ txt " "
        ++ "R"%char :: txtq "eact from 'react';")
       None None
     = txt "python".
Proof.
  assert (H1 : usable_hint None = false) by reflexivity.
  assert (H2 : txt " " <> []) by discriminate.
  assert (H3 : forallb is_space (txt " ") = true) by reflexivity.
  assert (H4 : is_word "R" = true) by reflexivity.
  repeat (split; [assumption|]).
  exact (import_statement_is_python (txt "// app" ++ [LF]) (txt " ")
           (txtq "eact from 'react';") "R" None None H1 H2 H3 H4).
Defined.

(** ** Blocks classified as json *)

Lemma search_from_some (r : regex) (s : str) :
  forall p i j st,
    search_from r p s i = Some (j, st) ->
    exists a b, s = a ++ b /\ match_at r (prev_after a p) b = Some st.
Proof.
  induction s as [|c s IH]; intros p i j st H; cbn [search_from] in H.
  - destruct (match_at r p []) as [st0|] eqn:E; [|discriminate H].
    injection H as _ <-. now exists [], [].
  - destruct (match_at r p (c :: s)) as [st0|] eqn:E.
    + injection H as _ <-. now exists [], (c :: s).
    + apply IH in H as (a & b & -> & H). now exists (c :: a), b.
Qed.

Lemma prev_after_none (a : str) (p : option ascii) :
  prev_after a p = None -> a = [].
Proof.
  destruct a as [|c a]; [reflexivity|]. intros H. exfalso.
  revert c H. induction a as [|d a IH]; intros c H; [discriminate H|].
  apply (IH d). exact H.
Qed.

Lemma matches_bol_inv (ml : bool) (st st' : mstate) :
  matches (Bol ml) st st' -> st' = st /\ at_bol ml st = true.
Proof. intros M. inversion M; subst. auto. Qed.

Lemma matches_eol_inv (ml : bool) (st st' : mstate) :
  matches (Eol ml) st st' -> st' = st /\ at_eol ml st = true.
Proof. intros M. inversion M; subst. auto. Qed.

Lemma lstrip_run (sp s : str) (c : ascii) :
  forallb is_space sp = true -> is_space c = false ->
  lstrip (sp ++ c :: s) = c :: s.
Proof.
  intros Hsp Hc. induction sp as [|x sp IH]; cbn [app lstrip].
  - now rewrite Hc.
  - cbn [forallb] in Hsp. apply andb_true_iff in Hsp as [Hx Hsp].
    rewrite Hx. now apply IH.
Qed.

Lemma forallb_rev {A} (f : A -> bool) (l : list A) :
  forallb f (rev l) = forallb f l.
Proof.
  induction l as [|a l IH]; [reflexivity|].
  cbn [rev forallb]. rewrite forallb_app, IH. cbn [forallb].
  rewrite andb_true_r. apply andb_comm.
Qed.

Lemma rstrip_run (s sp : str) (c : ascii) :
  forallb is_space sp = true -> is_space c = false ->
  rstrip (s ++ c :: sp) = s ++ [c].
Proof.
  intros Hsp Hc. unfold rstrip.
  rewrite rev_app_distr. cbn [rev]. rewrite <- app_assoc. cbn [app].
  rewrite lstrip_run by (rewrite ?forallb_rev; assumption).
  cbn [rev]. now rewrite rev_involutive.
Qed.

(** X11. Without a usable hint, only a block in braces is classified as
    json: its first character other than white space is an opening brace
    and its last one a closing brace. *)
Theorem json_block_is_in_braces (x : str) (hint : option str) (u : option str) :
  usable_hint hint = false ->
  detect_code_language x hint u = txt "json" ->
  (exists t, lstrip x = "{"%char :: t) /\ (exists a, rstrip x = a ++ txt "}").
Proof.
  intros Hh. unfold detect_code_language. fold (usable_hint hint). rewrite Hh.
  destruct (_ && re_search re_url_context x); [discriminate|].
  destruct (re_search re_python x); [discriminate|].
  destruct (re_search re_javascript x);
    [destruct (re_search re_typescript x); discriminate|].
  destruct (re_search re_html x); [discriminate|].
  destruct (re_search re_sql x); [discriminate|].
  destruct (re_search re_json_open x && re_search re_json_close x) eqn:Ej.
  2:{ repeat match goal with
             | |- context [if ?b then _ else _] => destruct b
             end; discriminate. }
  intros _. apply andb_true_iff in Ej as [Hopen Hclose]. split.
  - unfold re_search in Hopen.
    destruct (search_from re_json_open None x 0) as [[j st]|] eqn:E;
      [|discriminate Hopen].
    apply search_from_some in E as (a & b & -> & E).
    apply match_at_matches in E. unfold re_json_open in E.
    apply matches_seqs_inv in E as (st1 & M1 & M2).
    apply matches_bol_inv in M1 as [-> Hbol].
    cbn [at_bol prev] in Hbol.
    destruct (prev_after a None) eqn:Ep; [discriminate Hbol|].
    apply prev_after_none in Ep. subst a. cbn [app].
    apply matches_seqs_inv in M2 as (st2 & M2 & M3).
    apply matches_seqs_inv in M3 as (st3 & M3 & _).
    apply matches_star_class in M2 as (sp & Hr2 & Hsp & _).
    apply matches_chr_inv in M3 as (c & Hc & Hr3 & _ & _).
    apply ascii_eqb_eq in Hc. subst c.
    cbn [rest] in Hr2. rewrite Hr2, Hr3.
    exists (rest st3). now apply lstrip_run.
  - unfold re_search in Hclose.
    destruct (search_from re_json_close None x 0) as [[j st]|] eqn:E;
      [|discriminate Hclose].
    apply search_from_some in E as (a & b & -> & E).
    apply match_at_matches in E. unfold re_json_close in E.
    apply matches_seqs_inv in E as (st1 & M1 & M2).
    apply matches_seqs_inv in M2 as (st2 & M2 & M3).
    apply matches_chr_inv in M1 as (c & Hc & Hr1 & _ & _).
    apply ascii_eqb_eq in Hc. subst c.
    apply matches_star_class in M2 as (sp & Hr2 & Hsp & _).
    change (seqs [Eol false]) with (Eol false) in M3.
    apply matches_eol_inv in M3 as [-> Heol].
    cbn [rest] in Hr1. rewrite Hr1, Hr2.
    exists a. apply rstrip_run; [|reflexivity].
    rewrite forallb_app, Hsp. cbn [andb].
    unfold at_eol in Heol. destruct (rest st2) as [|c [|d t]]; [reflexivity | |].
    + cbn [orb] in Heol. rewrite andb_true_r in Heol.
      apply ascii_eqb_eq in Heol. now subst c.
    + cbn [orb] in Heol. rewrite andb_false_r in Heol. discriminate Heol.
Qed.

Lemma json_block_is_in_braces_object :
  usable_hint (Some (txt "text")) = false
  /\ detect_code_language (txtq "  {'name': 1, 'b': [2]}" ++ [LF])
       (Some (txt "text")) None = txt "json"
  /\ (exists t, lstrip (txtq "  {'name': 1, 'b': [2]}" ++ [LF]) = "{"%char :: t)
  /\ (exists a, rstrip (txtq "  {'name': 1, 'b': [2]}" ++ [LF]) = a ++ txt "}").
Proof.
  assert (H1 : usable_hint (Some (txt "text")) = false) by reflexivity.
  assert (H2 : detect_code_language (txtq "  {'name': 1, 'b': [2]}" ++ [LF])
                 (Some (txt "text")) None = txt "json") by (vm_compute; reflexivity).
  split; [exact H1 | split; [exact H2|]].
  exact (json_block_is_in_braces _ _ _ H1 H2).
Defined.

(** ** Substitution of a character class *)

Lemma match_at_class (P : ascii -> bool) (p : option ascii) (s : str) :
  match_at (Chr P) p s
  = match s with
    | c :: t => if P c then Some (MState (Some c) t []) else None
    | [] => None
    end.
Proof. reflexivity. Qed.

(** Replacing the characters of a class one by one. *)
Lemma sub_loop_class (P : ascii -> bool) (t : str) (fuel : nat) :
  forall p s, length s < fuel ->
    sub_loop fuel (Chr P) (expand [TLit t]) p s
    = flat_map (fun c => if P c then t else [c]) s.
Proof.
  induction fuel as [|fuel IH]; intros p s Hf; [lia|].
  cbn [sub_loop]. rewrite match_at_class.
  destruct s as [|c s]; [reflexivity|]. cbn [length] in Hf.
  cbn [flat_map]. destruct (P c).
  - cbn [rest prev length]. replace (S (length s) - length s) with 1 by lia.
    rewrite IH by lia. unfold expand. cbn [flat_map]. now rewrite app_nil_r.
  - rewrite IH by lia. reflexivity.
Qed.

Lemma re_sub_class (P : ascii -> bool) (t s : str) :
  re_sub (Chr P) [TLit t] s = flat_map (fun c => if P c then t else [c]) s.
Proof. apply sub_loop_class. lia. Qed.

Lemma sub_loop_no_match (r : regex) (repl : mstate -> str) (s : str) :
  (forall a b q, s = a ++ b -> match_at r q b = None) ->
  forall fuel p, sub_loop fuel r repl p s = s.
Proof.
  induction s as [|c s IH]; intros H fuel p.
  - destruct fuel; [reflexivity|]. cbn [sub_loop]. now rewrite (H [] []).
  - destruct fuel; [reflexivity|]. cbn [sub_loop].
    rewrite (H [] (c :: s)) by reflexivity. rewrite IH; [reflexivity|].
    intros a b q E. apply (H (c :: a) b). now rewrite E.
Qed.

(** ** The scheme *)

(** The scheme pattern matches at the start of the text only. *)
Lemma match_at_scheme_inside (c : ascii) (s : str) :
  match_at re_scheme (Some c) s = None.
Proof. reflexivity. Qed.

Lemma sub_loop_scheme_inside (repl : mstate -> str) (fuel : nat) :
  forall c s, sub_loop fuel re_scheme repl (Some c) s = s.
Proof.
  induction fuel as [|fuel IH]; intros c s; [reflexivity|].
  cbn [sub_loop]. rewrite match_at_scheme_inside.
  destruct s as [|d s]; [reflexivity|]. now rewrite IH.
Qed.

Lemma match_at_http (x : str) :
  match_at re_scheme None (txt "http://" ++ x) = Some (MState (Some "/"%char) x []).
Proof.
  unfold match_at, re_scheme. rewrite rmatch_seqs_cons. cbn [rmatch at_bol prev].
  rewrite rmatch_seqs_cons. unfold lit at 1.
  change (txt "http://" ++ x) with (txt "http" ++ txt "://" ++ x).
  rewrite rmatch_word, rmatch_seqs_cons. unfold opt. cbn [rmatch].
  change (rmatch (chr "s") _ _) with (@None mstate). cbn [or_else].
  change (seqs [lit "://"]) with (seqs (map chr (txt "://"))).
  now rewrite rmatch_word.
Qed.

Lemma match_at_https (x : str) :
  match_at re_scheme None (txt "https://" ++ x) = Some (MState (Some "/"%char) x []).
Proof.
  unfold match_at, re_scheme. rewrite rmatch_seqs_cons. cbn [rmatch at_bol prev].
  rewrite rmatch_seqs_cons. unfold lit at 1.
  change (txt "https://" ++ x) with (txt "http" ++ "s"%char :: txt "://" ++ x).
  rewrite rmatch_word, rmatch_seqs_cons. unfold opt. cbn [rmatch].
  rewrite rmatch_chr_hit.
  change (seqs [lit "://"]) with (seqs (map chr (txt "://"))).
  now rewrite rmatch_word.
Qed.

Lemma re_sub_http (x : str) : re_sub re_scheme [] (txt "http://" ++ x) = x.
Proof.
  unfold re_sub. cbn [sub_loop]. rewrite match_at_http. cbn [rest prev expand flat_map app].
  replace (length (txt "http://" ++ x) - length x) with 7
    by (rewrite length_app; change (length (txt "http://")) with 7; lia).
  apply sub_loop_scheme_inside.
Qed.

Lemma re_sub_https (x : str) : re_sub re_scheme [] (txt "https://" ++ x) = x.
Proof.
  unfold re_sub. cbn [sub_loop]. rewrite match_at_https. cbn [rest prev expand flat_map app].
  replace (length (txt "https://" ++ x) - length x) with 8
    by (rewrite length_app; change (length (txt "https://")) with 8; lia).
  apply sub_loop_scheme_inside.
Qed.

(** A text that does not begin with [http] has no scheme to remove. *)
Lemma re_sub_no_scheme (x : str) :
  startswith (txt "http") x = false -> re_sub re_scheme [] x = x.
Proof.
  intros H. unfold re_sub. cbn [sub_loop].
  assert (Hm : match_at re_scheme None x = None).
  { destruct (match_at re_scheme None x) as [st|] eqn:E; [|reflexivity].
    apply match_at_matches in E. unfold re_scheme in E.
    apply matches_seqs_inv in E as (st1 & M1 & M2).
    apply matches_bol_inv in M1 as [-> _].
    apply matches_seqs_inv in M2 as (st2 & M2 & _).
    apply matches_word in M2 as [Hr _]. cbn [rest] in Hr.
    rewrite Hr, startswith_self_app in H. discriminate H. }
  rewrite Hm. destruct x as [|c x]; [reflexivity|].
  now rewrite sub_loop_scheme_inside.
Qed.

(** X12. The scheme does not count: [http://] and [https://] in front of a
    text that does not itself begin with [http] give the file name of the
    text alone, so that pages that differ in their scheme only get the
    same file name. *)
Theorem sanitize_filename_drops_scheme (x : str) :
  startswith (txt "http") x = false ->
  sanitize_filename (txt "https://" ++ x) = sanitize_filename x
  /\ sanitize_filename (txt "http://" ++ x) = sanitize_filename x.
Proof.
  intros H. unfold sanitize_filename.
  now rewrite re_sub_http, re_sub_https, (re_sub_no_scheme x H).
Qed.

Lemma sanitize_filename_drops_scheme_docs :
  startswith (txt "http") (txt "docs.crawl4ai.com/core/") = false
  /\ sanitize_filename (txt "https://" ++ txt "docs.crawl4ai.com/core/")
     = sanitize_filename (txt "docs.crawl4ai.com/core/")
  /\ sanitize_filename (txt "http://" ++ txt "docs.crawl4ai.com/core/")
     = sanitize_filename (txt "docs.crawl4ai.com/core/").
Proof.
  assert (H : startswith (txt "http") (txt "docs.crawl4ai.com/core/") = false)
    by reflexivity.
  split; [exact H|].
  exact (sanitize_filename_drops_scheme (txt "docs.crawl4ai.com/core/") H).
Defined.

(** ** Stripping characters *)

Lemma lstrip_chars_suffix (chars s : str) :
  exists a, s = a ++ lstrip_chars chars s.
Proof.
  induction s as [|c s [a Ha]]; [now exists []|]. cbn [lstrip_chars].
  destruct (existsb (ascii_eqb c) chars); [|now exists []].
  exists (c :: a). cbn [app]. now rewrite <- Ha.
Qed.

Lemma lstrip_chars_head (chars s : str) (c : ascii) (t : str) :
  lstrip_chars chars s = c :: t -> existsb (ascii_eqb c) chars = false.
Proof.
  induction s as [|x s IH]; [discriminate|]. cbn [lstrip_chars].
  destruct (existsb (ascii_eqb x) chars) eqn:E; [exact IH|].
  intros H. injection H as <- _. exact E.
Qed.

Lemma lstrip_chars_fixed (chars s : str) :
  match s with [] => True | c :: _ => existsb (ascii_eqb c) chars = false end ->
  lstrip_chars chars s = s.
Proof. destruct s as [|c s]; [reflexivity|]. cbn [lstrip_chars]. now intros ->. Qed.

(** [strip] keeps a piece of the text. *)
Lemma strip_chars_piece (chars s : str) :
  exists a b, s = a ++ strip_chars chars s ++ b.
Proof.
  unfold strip_chars.
  destruct (lstrip_chars_suffix chars s) as [a Ha].
  destruct (lstrip_chars_suffix chars (rev (lstrip_chars chars s))) as [b Hb].
  exists a, (rev b). rewrite <- rev_app_distr, <- Hb, rev_involutive. exact Ha.
Qed.

Lemma strip_chars_last (chars s : str) (c : ascii) (t : str) :
  strip_chars chars s = t ++ [c] -> existsb (ascii_eqb c) chars = false.
Proof.
  unfold strip_chars. intros H.
  apply (f_equal (@rev ascii)) in H. rewrite rev_involutive, rev_app_distr in H.
  cbn [rev app] in H. now apply lstrip_chars_head in H.
Qed.

Lemma strip_chars_head (chars s : str) (c : ascii) (t : str) :
  strip_chars chars s = c :: t -> existsb (ascii_eqb c) chars = false.
Proof.
  unfold strip_chars. intros H.
  destruct (lstrip_chars_suffix chars (rev (lstrip_chars chars s))) as [b Hb].
  apply (f_equal (@rev ascii)) in Hb.
  rewrite rev_involutive, rev_app_distr, H in Hb. cbn [app] in Hb.
  now apply lstrip_chars_head in Hb.
Qed.

Lemma strip_chars_fixed (chars s : str) :
  match s with [] => True | c :: _ => existsb (ascii_eqb c) chars = false end ->
  match rev s with [] => True | c :: _ => existsb (ascii_eqb c) chars = false end ->
  strip_chars chars s = s.
Proof.
  intros Hh Hl. unfold strip_chars.
  rewrite (lstrip_chars_fixed chars s Hh), (lstrip_chars_fixed chars (rev s) Hl).
  apply rev_involutive.
Qed.

(** ** Runs of underscores *)

Lemma no_double_app (c : ascii) (a b : str) :
  no_double c (a ++ b) = true -> no_double c a = true /\ no_double c b = true.
Proof.
  induction a as [|x a IH]; [now split|]. cbn [app no_double].
  intros H. apply andb_true_iff in H as [Hx H]. destruct (IH H) as [Ha Hb].
  split; [|exact Hb]. rewrite Ha, andb_true_r.
  destruct a as [|y a]; [|exact Hx].
  now rewrite andb_false_r.
Qed.

Lemma no_double_firstn (c : ascii) (n : nat) (s : str) :
  no_double c s = true -> no_double c (firstn n s) = true.
Proof.
  intros H. rewrite <- (firstn_skipn n s) in H. now apply no_double_app in H.
Qed.

Lemma no_double_strip (c : ascii) (chars s : str) :
  no_double c s = true -> no_double c (strip_chars chars s) = true.
Proof.
  intros H. destruct (strip_chars_piece chars s) as (a & b & E).
  rewrite E in H. apply no_double_app in H as [_ H].
  now apply no_double_app in H.
Qed.

Lemma no_double_str_in (c : ascii) (s : str) :
  no_double c s = true -> str_in [c; c] s = false.
Proof.
  induction s as [|x s IH]; [reflexivity|]. cbn [no_double str_in startswith].
  intros H. apply andb_true_iff in H as [Hx H]. rewrite (IH H), orb_false_r.
  unfold ascii_eqb in *. rewrite (Ascii.eqb_sym c x).
  destruct (Ascii.eqb x c); [|reflexivity]. cbn [andb negb] in Hx |- *.
  destruct s as [|y s]; [reflexivity|].
  rewrite (Ascii.eqb_sym c y), andb_true_r. now destruct (Ascii.eqb y c).
Qed.

(** The run of [c] at the head of a text. *)
Lemma lstrip_chars_run (c : ascii) (s : str) :
  exists a, s = a ++ lstrip_chars [c] s /\ forallb (ascii_eqb c) a = true
            /\ match lstrip_chars [c] s with
               | [] => True
               | x :: _ => ascii_eqb c x = false
               end.
Proof.
  induction s as [|x s (a & Ha & Hr & Hn)]; [now exists []|].
  cbn [lstrip_chars existsb]. rewrite orb_false_r.
  destruct (ascii_eqb x c) eqn:E.
  - exists (x :: a). split; [cbn [app]; now rewrite <- Ha | split; [|exact Hn]].
    cbn [forallb]. apply ascii_eqb_eq in E. subst x.
    unfold ascii_eqb at 1. now rewrite Ascii.eqb_refl.
  - exists []. split; [reflexivity | split; [reflexivity|]].
    unfold ascii_eqb in *. now rewrite Ascii.eqb_sym.
Qed.

(** The pattern [_+] takes a whole run of underscores. *)
Lemma rmatch_seq {A} (r1 r2 : regex) (st : mstate) (k : mstate -> option A) :
  rmatch (Seq r1 r2) st k = rmatch r1 st (fun st' => rmatch r2 st' k).
Proof. reflexivity. Qed.

Lemma match_at_underscores (p : option ascii) (s : str) :
  match_at re_underscores p ("_"%char :: s)
  = Some (MState (Some "_"%char) (lstrip_chars (txt "_") s) []).
Proof.
  change (txt "_") with ["_"%char].
  destruct (lstrip_chars_run "_" s) as (a & Ha & Hr & Hn).
  remember (lstrip_chars ["_"%char] s) as r eqn:Er. clear Er. subst s.
  assert (Hprev : prev_after a (Some "_"%char) = Some "_"%char).
  { clear -Hr. induction a as [|x a IH] using rev_ind; [reflexivity|].
    rewrite prev_after_app. cbn [prev_after fold_left].
    rewrite forallb_app in Hr. apply andb_true_iff in Hr as [_ Hx].
    cbn [forallb] in Hx. rewrite andb_true_r in Hx.
    apply ascii_eqb_eq in Hx. now subst x. }
  unfold match_at, re_underscores, plus. rewrite rmatch_seq, rmatch_chr_hit.
  apply (rmatch_star_greedy_run (ascii_eqb "_") a r).
  - exact Hr.
  - destruct r; [exact I | exact Hn].
  - now rewrite Hprev.
Qed.

Lemma match_at_underscores_none (p : option ascii) (s : str) :
  match s with [] => True | c :: _ => ascii_eqb "_" c = false end ->
  match_at re_underscores p s = None.
Proof.
  intros H. unfold match_at, re_underscores, plus. cbn [rmatch chr rest].
  destruct s as [|c s]; [reflexivity|]. now rewrite H.
Qed.

Lemma length_lstrip_chars (chars s : str) :
  length (lstrip_chars chars s) <= length s.
Proof.
  induction s as [|c s IH]; [constructor|]. cbn [lstrip_chars].
  destruct (existsb (ascii_eqb c) chars); simpl; lia.
Qed.

(** After the substitution of [_+] no two underscores are side by side,
    and the result begins with an underscore only if the text does. *)
Lemma sub_loop_underscores (fuel : nat) :
  forall p s, length s < fuel ->
    let out := sub_loop fuel re_underscores (expand [TLit (txt "_")]) p s in
    no_double "_" out = true
    /\ (forall t, out = "_"%char :: t -> exists t', s = "_"%char :: t').
Proof.
  induction fuel as [|fuel IH]; intros p s Hf; [lia|].
  cbn zeta. destruct s as [|c s].
  - cbn [sub_loop]. rewrite match_at_underscores_none by exact I.
    split; [reflexivity | discriminate].
  - cbn [length] in Hf. destruct (ascii_eqb "_" c) eqn:Ec.
    + apply ascii_eqb_eq in Ec. subst c.
      cbn [sub_loop]. rewrite match_at_underscores. cbn [rest prev].
      pose proof (length_lstrip_chars (txt "_") s) as Hl.
      destruct (length ("_"%char :: s) - length (lstrip_chars (txt "_") s)) eqn:En;
        [cbn [length] in En; lia|].
      destruct (IH (Some "_"%char) (lstrip_chars (txt "_") s) ltac:(lia)) as [H1 H2].
      cbv zeta in H1, H2.
      change (expand [TLit (txt "_")] ?x) with ["_"%char]. cbn [app].
      split; [|intros t _; now exists s].
      cbn [no_double]. rewrite H1, andb_true_r.
      destruct (sub_loop fuel re_underscores _ _ _) as [|y out] eqn:Eo; [reflexivity|].
      change (ascii_eqb "_" "_") with true. cbn [andb].
      destruct (ascii_eqb y "_") eqn:Ey; [|reflexivity]. exfalso.
      apply ascii_eqb_eq in Ey. subst y.
      destruct (H2 out eq_refl) as [t' Ht'].
      destruct (lstrip_chars_run "_" s) as (a & _ & _ & Hn).
      change ["_"%char] with (txt "_") in Hn. rewrite Ht' in Hn. discriminate Hn.
    + cbn [sub_loop]. rewrite match_at_underscores_none by exact Ec.
      destruct (IH (Some c) s ltac:(lia)) as [H1 H2]. cbv zeta in H1, H2.
      split.
      * cbn [no_double]. rewrite H1, andb_true_r.
        unfold ascii_eqb in *. rewrite Ascii.eqb_sym, Ec. reflexivity.
      * intros t E. injection E as -> _. discriminate Ec.
Qed.

Lemma re_sub_underscores_no_double (s : str) :
  no_double "_" (re_sub re_underscores [TLit (txt "_")] s) = true.
Proof. apply sub_loop_underscores. lia. Qed.

(** ** The file name *)

Lemma valid_underscore : invalid_char "_" = false.
Proof. reflexivity. Qed.

Lemma sanitize_filename_valid (url_str : str) :
  Forall (fun c => invalid_char c = false) (sanitize_filename url_str).
Proof.
  unfold sanitize_filename. apply Forall_prefix.
  destruct (strip_chars_piece (txt "_.")
              (re_sub re_underscores [TLit (txt "_")]
                 (re_sub (Chr invalid_char) [TLit (txt "_")]
                    (re_sub re_scheme [] url_str)))) as (a & b & E).
  assert (H : Forall (fun c => invalid_char c = false)
                (re_sub re_underscores [TLit (txt "_")]
                   (re_sub (Chr invalid_char) [TLit (txt "_")]
                      (re_sub re_scheme [] url_str)))).
  { apply re_sub_ok; [repeat constructor|].
    rewrite re_sub_class. apply Forall_flat_map, Forall_forall. intros c _.
    destruct (invalid_char c) eqn:Ec; repeat constructor; assumption. }
  rewrite E in H. apply Forall_app in H as [_ H]. now apply Forall_app in H.
Qed.

Lemma sanitize_filename_no_double (url_str : str) :
  no_double "_" (sanitize_filename url_str) = true.
Proof.
  unfold sanitize_filename.
  apply no_double_firstn, no_double_strip, re_sub_underscores_no_double.
Qed.

Lemma firstn_short {A} (n : nat) (l : list A) :
  length (firstn n l) < n -> firstn n l = l.
Proof.
  intros H. rewrite length_firstn in H. apply firstn_all2.
  destruct (Nat.min_spec n (length l)) as [[_ E] | [_ E]]; rewrite E in H; lia.
Qed.

Lemma sanitize_filename_head (url_str : str) (c : ascii) (t : str) :
  sanitize_filename url_str = c :: t -> end_char c = false.
Proof.
  unfold sanitize_filename. intros H.
  destruct (strip_chars (txt "_.") _) as [|x s] eqn:E; [discriminate H|].
  cbn [firstn] in H. injection H as <- _.
  now apply strip_chars_head in E.
Qed.

Lemma sanitize_filename_last (url_str : str) (c : ascii) (t : str) :
  length (sanitize_filename url_str) < 100 ->
  sanitize_filename url_str = t ++ [c] -> end_char c = false.
Proof.
  unfold sanitize_filename. intros Hlen H.
  rewrite (firstn_short _ _ Hlen) in H. now apply strip_chars_last in H.
Qed.

(** X13. A file name has at most 100 characters and none of the characters
    [<>:\x22/\|?*]. *)
Theorem sanitize_filename_safe (url_str : str) :
  length (sanitize_filename url_str) <= 100
  /\ Forall (fun c => invalid_char c = false) (sanitize_filename url_str).
Proof.
  split; [|apply sanitize_filename_valid].
  unfold sanitize_filename. rewrite length_firstn. apply Nat.le_min_l.
Qed.

(** X14. In a file name no two underscores are side by side. *)
Theorem sanitize_filename_single_underscores (url_str : str) :
  str_in (txt "__") (sanitize_filename url_str) = false.
Proof. apply (no_double_str_in "_"), sanitize_filename_no_double. Qed.

(** X15. A file name does not begin with an underscore or a period, and it
    does not end with one unless it was cut at 100 characters. *)
Theorem sanitize_filename_ends (url_str : str) :
  end_char (hd "a"%char (sanitize_filename url_str)) = false
  /\ (length (sanitize_filename url_str) = 100
      \/ end_char (last (sanitize_filename url_str) "a"%char) = false).
Proof.
  split.
  - destruct (sanitize_filename url_str) as [|c t] eqn:E; [reflexivity|].
    now apply (sanitize_filename_head url_str c t).
  - destruct (Nat.eq_dec (length (sanitize_filename url_str)) 100) as [E | Hne];
      [now left | right].
    assert (Hlen : length (sanitize_filename url_str) < 100).
    { assert (H : length (sanitize_filename url_str) <= 100); [|lia].
      unfold sanitize_filename. rewrite length_firstn. apply Nat.le_min_l. }
    destruct (sanitize_filename url_str) as [|c t] eqn:E using rev_ind;
      [reflexivity|].
    rewrite last_last. apply (sanitize_filename_last url_str c t); [|exact E].
    now rewrite E.
Qed.

(** A name cut at 100 characters can end with an underscore. *)
Example sanitize_filename_cut_at_underscore :
  sanitize_filename (repeat "a"%char 99 ++ txt "/b") = repeat "a"%char 99 ++ txt "_".
Proof. vm_compute. reflexivity. Qed.

(** ** A file name is its own file name *)

Lemma re_sub_scheme_valid (y : str) :
  Forall (fun c => invalid_char c = false) y -> re_sub re_scheme [] y = y.
Proof.
  intros H. unfold re_sub. cbn [sub_loop].
  assert (Hm : match_at re_scheme None y = None).
  { destruct (match_at re_scheme None y) as [st|] eqn:E; [|reflexivity].
    exfalso. apply match_at_matches in E. unfold re_scheme in E.
    apply matches_seqs_inv in E as (st1 & M1 & M2).
    apply matches_bol_inv in M1 as [-> _].
    apply matches_seqs_inv in M2 as (st2 & M2 & M3).
    apply matches_seqs_inv in M3 as (st3 & M3 & M4).
    apply matches_word in M2 as [Hr2 _].
    destruct (matches_rest _ _ _ M3) as [o Hr3].
    apply matches_word in M4 as [Hr4 _].
    cbn [rest] in Hr2. rewrite Hr2, Hr3, Hr4 in H.
    apply Forall_app in H as [_ H]. apply Forall_app in H as [_ H].
    apply Forall_app in H as [H _]. inversion H as [|c l Hc _]. discriminate Hc. }
  rewrite Hm. destruct y as [|c y]; [reflexivity|].
  now rewrite sub_loop_scheme_inside.
Qed.

Lemma re_sub_invalid_valid (y : str) :
  Forall (fun c => invalid_char c = false) y ->
  re_sub (Chr invalid_char) [TLit (txt "_")] y = y.
Proof.
  intros H. rewrite re_sub_class.
  induction H as [|c y Hc Hy IH]; [reflexivity|].
  cbn [flat_map]. now rewrite Hc, IH.
Qed.

Lemma sub_loop_underscores_fixed (fuel : nat) :
  forall p s, length s < fuel -> no_double "_" s = true ->
    sub_loop fuel re_underscores (expand [TLit (txt "_")]) p s = s.
Proof.
  induction fuel as [|fuel IH]; intros p s Hf Hs; [lia|].
  destruct s as [|c s].
  - cbn [sub_loop]. now rewrite match_at_underscores_none.
  - cbn [length] in Hf. cbn [no_double] in Hs.
    apply andb_true_iff in Hs as [Hc Hs].
    destruct (ascii_eqb "_" c) eqn:Ec.
    + apply ascii_eqb_eq in Ec. subst c.
      assert (Hfix : lstrip_chars (txt "_") s = s).
      { apply lstrip_chars_fixed. destruct s as [|y s]; [exact I|].
        change (txt "_") with ["_"%char]. cbn [existsb]. rewrite orb_false_r.
        change (ascii_eqb "_" "_") with true in Hc. cbn [andb] in Hc.
        now destruct (ascii_eqb y "_"). }
      cbn [sub_loop]. rewrite match_at_underscores, Hfix. cbn [rest prev].
      replace (length ("_"%char :: s) - length s) with 1 by (cbn [length]; lia).
      change (expand [TLit (txt "_")] ?x) with ["_"%char]. cbn [app].
      rewrite IH by (assumption || lia). reflexivity.
    + cbn [sub_loop]. rewrite match_at_underscores_none by exact Ec.
      rewrite IH by (assumption || lia). reflexivity.
Qed.

(** X16. A file name that was not cut is its own file name: sanitizing it
    again changes nothing. *)
Theorem sanitize_filename_idempotent (url_str : str) :
  length (sanitize_filename url_str) < 100 ->
  sanitize_filename (sanitize_filename url_str) = sanitize_filename url_str.
Proof.
  intros Hlen. set (y := sanitize_filename url_str) in *.
  pose proof (sanitize_filename_valid url_str) as Hv. fold y in Hv.
  pose proof (sanitize_filename_no_double url_str) as Hd. fold y in Hd.
  unfold sanitize_filename at 1.
  rewrite (re_sub_scheme_valid y Hv), (re_sub_invalid_valid y Hv).
  unfold re_sub. rewrite sub_loop_underscores_fixed by (assumption || lia).
  rewrite strip_chars_fixed.
  - apply firstn_all2. lia.
  - destruct y as [|c t] eqn:E; [exact I|].
    apply (sanitize_filename_head url_str c t). exact E.
  - destruct (rev y) as [|c t] eqn:E; [exact I|].
    apply (sanitize_filename_last url_str c (rev t)); [exact Hlen|].
    fold y. apply (f_equal (@rev ascii)) in E. now rewrite rev_involutive in E.
Qed.

Lemma sanitize_filename_idempotent_docs :
  length (sanitize_filename (txt "https://docs.crawl4ai.com/core/?a=1")) < 100
  /\ sanitize_filename (sanitize_filename (txt "https://docs.crawl4ai.com/core/?a=1"))
     = sanitize_filename (txt "https://docs.crawl4ai.com/core/?a=1").
Proof.
  assert (H : length (sanitize_filename (txt "https://docs.crawl4ai.com/core/?a=1"))
              < 100) by (vm_compute; lia).
  split; [exact H|].
  exact (sanitize_filename_idempotent (txt "https://docs.crawl4ai.com/core/?a=1") H).
Defined.

(** ** The crawl4ai import *)

(** The first match of a pattern in a text. *)
Lemma search_from_first (r : regex) (s : str) :
  forall p i j st,
    search_from r p s i = Some (j, st) ->
    exists a b,
      s = a ++ b /\ match_at r (prev_after a p) b = Some st /\ j = i + length a
      /\ forall a1 a2, a = a1 ++ a2 -> a2 <> [] ->
                       match_at r (prev_after a1 p) (a2 ++ b) = None.
Proof.
  induction s as [|c s IH]; intros p i j st H; cbn [search_from] in H.
  - destruct (match_at r p []) as [st0|] eqn:E; [|discriminate H].
    injection H as <- <-. exists [], []. repeat split; [exact E | simpl; lia|].
    intros a1 a2 E1 Hne. destruct a1; [|discriminate E1].
    cbn [app] in E1. congruence.
  - destruct (match_at r p (c :: s)) as [st0|] eqn:E.
    + injection H as <- <-. exists [], (c :: s).
      repeat split; [exact E | simpl; lia|].
      intros a1 a2 E1 Hne. destruct a1; [|discriminate E1].
      cbn [app] in E1. congruence.
    + apply IH in H as (a & b & -> & Hm & -> & Hfirst).
      exists (c :: a), b. repeat split; [exact Hm | simpl; lia|].
      intros a1 a2 E1 Hne. destruct a1 as [|x a1].
      * cbn [app] in E1. subst a2. exact E.
      * cbn [app] in E1. injection E1 as <- ->. now apply Hfirst.
Qed.

Lemma prev_after_last (a : str) (p : option ascii) :
  prev_after a p = match rev a with [] => p | c :: _ => Some c end.
Proof.
  induction a as [|c a IH] using rev_ind; [reflexivity|].
  rewrite prev_after_app, rev_app_distr. reflexivity.
Qed.

(** A word matches itself. *)
Lemma matches_word_here (w s : str) (q : option ascii) (g : list (nat * str)) :
  matches (seqs (map chr w)) (MState q (w ++ s) g) (MState (prev_after w q) s g).
Proof.
  revert q; induction w as [|c w IH]; intros q; [constructor|].
  change (map chr (c :: w)) with (chr c :: map chr w).
  apply matches_seqs_cons with (MState (Some c) (w ++ s) g).
  - apply matches_chr_step. unfold ascii_eqb. apply Ascii.eqb_refl.
  - apply IH.
Qed.

(** The import pattern matches at the beginning of a line that begins
    with [import] or [from], and nowhere else. *)
Lemma match_at_import_line (before s : str) :
  match_at re_import_line (prev_after before None) s <> None
  <-> line_start before = true /\ import_start s = true.
Proof.
  unfold line_start, import_start. rewrite prev_after_last. split.
  - intros H. destruct (match_at re_import_line _ s) as [st|] eqn:E; [|contradiction].
    apply match_at_matches in E. unfold re_import_line in E.
    apply matches_seq_inv in E as (st1 & M1 & M2).
    apply matches_bol_inv in M1 as [-> Hbol].
    apply matches_group_inv in M2 as (st2 & g & M2 & _ & _).
    split.
    + cbn [at_bol prev] in Hbol. destruct (rev before); [reflexivity | exact Hbol].
    + inversion M2 as [| | | r1 r2 st0 st' M | r1 r2 st0 st' M | | | | | |]; subst;
        apply matches_word in M as [Hr _]; cbn [rest] in Hr; rewrite Hr;
        rewrite startswith_self_app; [reflexivity | apply orb_true_r].
  - intros [Hl Hs].
    assert (Hbol : at_bol true (MState match rev before with
                                      | [] => None
                                      | c :: _ => Some c
                                      end s []) = true).
    { cbn [at_bol prev]. destruct (rev before); [reflexivity | exact Hl]. }
    apply orb_true_iff in Hs as [Hs | Hs]; apply startswith_app in Hs as [t ->];
      eapply match_at_complete; unfold re_import_line;
      (eapply matches_seq; [now apply matches_bol|]);
      apply matches_group; [apply matches_alt_l | apply matches_alt_r];
      unfold lit; apply matches_word_here.
Qed.

Section ImportPatch.

Context {PF : PyFloat} {PL : PyLimits}.

(** X17. The import patch that [process_code_block] applies to a Python
    block of a crawl4ai page puts the import line in at most once:
    patching a patched block changes nothing. *)
Theorem crawl4ai_import_added_once (body : str) :
  add_crawl4ai_import (add_crawl4ai_import body) = add_crawl4ai_import body.
Proof.
  unfold add_crawl4ai_import at 2 3.
  destruct (str_in (txt "AsyncWebCrawler") body
            && negb (str_in (txt "from crawl4ai import AsyncWebCrawler") body))
    eqn:Ec.
  - destruct (search_from re_import_line None body 0) as [[i st]|] eqn:Es.
    + unfold add_crawl4ai_import.
      assert (Hin : str_in (txt "from crawl4ai import AsyncWebCrawler")
                      (firstn i body ++ import_line ++ skipn i body) = true).
      { change import_line
          with (txt "from crawl4ai import AsyncWebCrawler"
                ++ txt ", CrawlerRunConfig" ++ [LF]).
        rewrite <- !app_assoc. apply str_in_app_intro. }
      rewrite Hin. cbn [negb]. rewrite andb_false_r. reflexivity.
    + unfold add_crawl4ai_import. now rewrite Ec, Es.
  - unfold add_crawl4ai_import. now rewrite Ec.
Qed.

(** X18. When the import patch changes a block, it puts the import line
    directly before the first line of the block that begins with [import]
    or [from]: at the beginning of that line, with no other such line
    before it. *)
Theorem crawl4ai_import_before_first_import (body : str) :
  add_crawl4ai_import body <> body ->
  exists a b,
    body = a ++ b
    /\ add_crawl4ai_import body = a ++ import_line ++ b
    /\ line_start a = true /\ import_start b = true
    /\ forall a1 a2, a = a1 ++ a2 -> a2 <> [] ->
                     line_start a1 && import_start (a2 ++ b) = false.
Proof.
  unfold add_crawl4ai_import.
  destruct (_ && _); [|contradiction].
  destruct (search_from re_import_line None body 0) as [[i st]|] eqn:Es;
    [|contradiction].
  intros _. apply search_from_first in Es as (a & b & -> & Hm & -> & Hfirst).
  exists a, b. cbn [Nat.add].
  rewrite firstn_app, Nat.sub_diag, firstn_all, skipn_app, Nat.sub_diag, skipn_all.
  cbn [firstn skipn app]. rewrite app_nil_r.
  assert (Hhere : line_start a = true /\ import_start b = true).
  { apply match_at_import_line. now rewrite Hm. }
  destruct Hhere as [Hl Hs].
  repeat split; try assumption.
  intros a1 a2 E Hne.
  destruct (line_start a1 && import_start (a2 ++ b)) eqn:Eb; [|reflexivity].
  apply andb_true_iff in Eb. apply match_at_import_line in Eb.
  now rewrite (Hfirst a1 a2 E Hne) in Eb.
Qed.

End ImportPatch.

Lemma crawl4ai_import_before_first_import_os :
  let body := text_of_lines ["# AsyncWebCrawler demo"; "import os"; "from x import y"]%string in
  add_crawl4ai_import body <> body
  /\ exists a b,
       body = a ++ b
       /\ add_crawl4ai_import body = a ++ import_line ++ b
       /\ line_start a = true /\ import_start b = true
       /\ forall a1 a2, a = a1 ++ a2 -> a2 <> [] ->
                        line_start a1 && import_start (a2 ++ b) = false.
Proof.
  intros body.
  assert (H : add_crawl4ai_import body <> body) by (vm_compute; discriminate).
  split; [exact H|]. exact (crawl4ai_import_before_first_import body H).
Defined.

(** ** The number of non-blank lines *)

Lemma splitlines_nonempty (s : str) : splitlines s = [] -> s = [].
Proof.
  destruct s as [|c t]; [reflexivity|]. cbn [splitlines].
  destruct (is_linebreak c); [discriminate|].
  destruct (splitlines t); discriminate.
Qed.

(** A line feed ends a line whatever comes before it: the lines of the
    text after it are those of that text alone. *)
Lemma splitlines_at_line_feed (a b : str) :
  splitlines (a ++ LF :: b) = splitlines (a ++ [LF]) ++ splitlines b.
Proof.
  remember (length a) as n eqn:En.
  assert (Hn : length a <= n) by lia. clear En.
  revert a Hn; induction n as [|n IH]; intros a Hn.
  { destruct a; [|simpl in Hn; lia]. destruct b; reflexivity. }
  destruct a as [|c a]; [destruct b; reflexivity|]. simpl in Hn.
  destruct (is_linebreak c) eqn:Ec.
  - cbn [app splitlines]. rewrite Ec.
    destruct a as [|d a]; cbn [app].
    + change (ascii_eqb LF LF) with true. rewrite andb_true_r.
      destruct (ascii_eqb c CR); [reflexivity | destruct b; reflexivity].
    + destruct (ascii_eqb c CR && ascii_eqb d LF).
      * cbn [app]. f_equal. apply IH. simpl in Hn. lia.
      * cbn [app]. f_equal. apply (IH (d :: a)). lia.
  - cbn [app]. rewrite !splitlines_cons_plain by assumption.
    rewrite IH by lia.
    destruct (splitlines (a ++ [LF])) as [|l ls] eqn:El; [|reflexivity].
    apply splitlines_nonempty in El. now destruct a.
Qed.

Lemma line_start_cases (a : str) :
  line_start a = true -> a = [] \/ exists a', a = a' ++ [LF].
Proof.
  unfold line_start. destruct (rev a) as [|c t] eqn:E.
  - intros _. left. apply (f_equal (@rev ascii)) in E.
    now rewrite rev_involutive in E.
  - intros H. apply ascii_eqb_eq in H. subst c. right. exists (rev t).
    apply (f_equal (@rev ascii)) in E. now rewrite rev_involutive in E.
Qed.

(** The import line without its line feed. *)
Lemma import_line_text :
  exists imp, import_line = imp ++ [LF] /\ one_line imp /\ truthy (strip imp) = true.
Proof.
  exists (txt "from crawl4ai import AsyncWebCrawler, CrawlerRunConfig").
  split; [reflexivity|]. split; [|vm_compute; reflexivity].
  apply is_one_line_spec. vm_compute. reflexivity.
Qed.

(** The import line put at the beginning of a line is one more non-blank
    line. *)
Lemma count_import_line (a b : str) :
  line_start a = true ->
  count_nonblank_lines (a ++ import_line ++ b) = count_nonblank_lines (a ++ b) + 1.
Proof.
  intros Ha. unfold count_nonblank_lines.
  destruct import_line_text as (imp & -> & Hone & Hink).
  destruct (line_start_cases a Ha) as [-> | [a' ->]]; rewrite <- !app_assoc;
    cbn [app].
  - rewrite (splitlines_line_feed imp b Hone). cbn [filter]. rewrite Hink.
    cbn [length]. lia.
  - rewrite (splitlines_at_line_feed a' (imp ++ LF :: b)).
    rewrite (splitlines_at_line_feed a' b).
    rewrite (splitlines_line_feed imp b Hone).
    rewrite !filter_app, !length_app. cbn [filter]. rewrite Hink. cbn [length]. lia.
Qed.

(** The import patch: when its three tests pass, the import line is put
    at the beginning of a line; when one fails, nothing changes. *)
Lemma add_crawl4ai_import_cases (body : str) :
  if inserts_import body
  then exists a b, body = a ++ b
                   /\ add_crawl4ai_import body = a ++ import_line ++ b
                   /\ line_start a = true
  else add_crawl4ai_import body = body.
Proof.
  unfold inserts_import, add_crawl4ai_import.
  destruct (str_in (txt "AsyncWebCrawler") body
            && negb (str_in (txt "from crawl4ai import AsyncWebCrawler") body));
    [|reflexivity].
  cbn [andb].
  destruct (search_from re_import_line None body 0) as [[i st]|] eqn:Es;
    [|reflexivity].
  apply search_from_first in Es as (a & b & -> & Hm & -> & _).
  exists a, b. cbn [Nat.add].
  rewrite firstn_app, Nat.sub_diag, firstn_all, skipn_app, Nat.sub_diag, skipn_all.
  cbn [firstn skipn app]. rewrite app_nil_r.
  repeat split. apply (match_at_import_line a b). now rewrite Hm.
Qed.

Section LineCountTheorem.

Context {PF : PyFloat} {PL : PyLimits}.

Lemma count_formatted_block (L : str) (u : option str) (x : str) :
  count_nonblank_lines (formatted_block L u x) = count_nonblank_lines x.
Proof.
  unfold formatted_block. rewrite format_lines_count.
  - fold (non_empty_lines x). now rewrite filter_block_lines.
  - apply content_fix_inked_line.
  - apply block_lines_one_line.
Qed.

(** C1, as the code has it.  Unless the block is written again as a JSON
    document (language [json], five characters or more, and [json] reads
    and writes it), the returned text has as many non-blank lines as the
    input, and one more when the import patch puts its line into a Python
    block of a crawl4ai page; a Python block into which no line is put and
    a [json] block that does not parse keep their number of lines. *)
Theorem line_count_preserved (x L : str) (u : option str) :
  (L = txt "json" -> 5 <= length x -> reserialized x = None) ->
  exists t, process_code_block x L u = Ok (t, L)
            /\ count_nonblank_lines t
               = count_nonblank_lines x + (if import_added x L u then 1 else 0).
Proof.
  intros Hjson. rewrite (process_code_block_paths x L u Hjson).
  eexists. split; [reflexivity|]. unfold import_added.
  destruct (Nat.ltb_spec (length x) 5) as [Hlt | Hge].
  { destruct (Nat.leb_spec 5 (length x)); [lia | cbn [orb andb]; lia]. }
  destruct (Nat.leb_spec 5 (length x)) as [_ | Hlt]; [|lia].
  destruct (has_ink x); cbn [orb negb andb]; [|lia].
  destruct (str_eqb L (txt "python")); cbn [andb];
    [|rewrite count_formatted_block; lia].
  destruct (is_crawl4ai u); cbn [andb]; [|rewrite count_formatted_block; lia].
  pose proof (add_crawl4ai_import_cases (formatted_block L u x)) as Hp.
  destruct (inserts_import (formatted_block L u x)).
  - destruct Hp as (a & b & Hab & -> & Ha).
    rewrite count_import_line by exact Ha.
    now rewrite <- Hab, count_formatted_block.
  - rewrite Hp, count_formatted_block. lia.
Qed.

End LineCountTheorem.

Lemma line_count_preserved_broken_json :
  let x := text_of_lines ["  {"; "    oops"; ""; "  }"]%string in
  (txt "json" = txt "json" -> 5 <= length x ->
   @reserialized literal_floats example_limits x = None)
  /\ exists t,
       @process_code_block literal_floats example_limits x (txt "json") None
       = Ok (t, txt "json")
       /\ count_nonblank_lines t
          = count_nonblank_lines x
            + (if import_added x (txt "json") None then 1 else 0).
Proof.
  intros x.
  assert (H : txt "json" = txt "json" -> 5 <= length x ->
              @reserialized literal_floats example_limits x = None)
    by (intros _ _; vm_compute; reflexivity).
  split; [exact H|].
  exact (@line_count_preserved literal_floats example_limits x (txt "json") None H).
Defined.

(** ** Indentation *)

(** A substitution whose replacement begins as the text it replaces, and
    which replaces no empty text, keeps the first character of the whole
    text. *)
Lemma sub_loop_keeps_head (r : regex) (repl : mstate -> str) :
  (forall p s st, match_at r p s = Some st ->
                  exists a, s = a ++ rest st /\ a <> []
                            /\ hd_error (repl st) = hd_error a) ->
  forall fuel p s, hd_error (sub_loop fuel r repl p s) = hd_error s.
Proof.
  intros Hr. destruct fuel as [|fuel]; intros p s; [reflexivity|].
  cbn [sub_loop]. destruct (match_at r p s) as [st|] eqn:Em.
  - destruct (Hr p s st Em) as (a & Hs & Hne & Hh).
    destruct a as [|c a]; [contradiction|].
    destruct (repl st) as [|d out]; [discriminate Hh|].
    cbn [hd_error] in Hh. injection Hh as ->. now rewrite Hs.
  - now destruct s.
Qed.

Section KeepsHead.

Context {PF : PyFloat} {PL : PyLimits}.

Lemma fix_keyword_keeps_head (content : str) (kw : string) :
  kw <> ""%string -> hd_error (fix_keyword content kw) = hd_error content.
Proof.
  intros Hkw. apply sub_loop_keeps_head. intros p s st Em.
  apply match_at_matches in Em.
  apply matches_seq_inv in Em as (st1 & M1 & M2).
  apply matches_word in M1 as [Hr1 _]. cbn [rest] in Hr1.
  apply matches_group_inv in M2 as (st2 & g & M2 & Hr2 & ->).
  exists (txt kw ++ g). split; [|split].
  - cbn [rest set_group]. now rewrite Hr1, Hr2, app_assoc.
  - destruct kw; [contradiction | discriminate].
  - unfold expand. cbn [flat_map]. destruct kw; [contradiction | reflexivity].
Qed.

Lemma fix_operator_keeps_head (content : str) (rule : string * ascii * string) :
  hd_error (fix_operator content rule) = hd_error content.
Proof.
  destruct rule as [[before op] after]. cbn [fix_operator].
  apply sub_loop_keeps_head. intros p s st Em.
  apply match_at_matches in Em.
  apply matches_seqs_inv in Em as (st1 & M1 & M2).
  apply matches_seqs_inv in M2 as (st2 & M2 & M3).
  apply matches_group_inv in M1 as (st1' & a & M1 & Hr1 & ->).
  apply matches_chr_inv in M1 as (x & _ & Hx & Hg1 & _).
  apply matches_chr_inv in M2 as (o & Ho & Hr2 & Hg2 & _).
  apply matches_group_inv in M3 as (st3 & b & M3 & Hr3 & ->).
  apply matches_chr_inv in M3 as (y & _ & Hy & Hg3 & _).
  cbn [rest set_group groups] in *.
  assert (Ha : a = [x]).
  { rewrite Hx in Hr1. change (x :: rest st1') with ([x] ++ rest st1') in Hr1.
    now apply app_inv_tail in Hr1. }
  exists (a ++ o :: b). split; [|split].
  - rewrite Hr1, Hr2, Hr3, <- app_assoc. reflexivity.
  - subst a. discriminate.
  - unfold expand, group. cbn [flat_map set_group groups find_group Nat.eqb].
    rewrite Hg3. cbn [find_group Nat.eqb]. rewrite Hg2. cbn [find_group Nat.eqb].
    subst a. reflexivity.
Qed.

Lemma fix_call_keeps_head (content : str) (name : string) :
  name <> ""%string -> hd_error (fix_call content name) = hd_error content.
Proof.
  intros Hname. apply sub_loop_keeps_head. intros p s st Em.
  apply match_at_matches in Em.
  apply matches_seqs_inv in Em as (st1 & M1 & M2).
  apply matches_seqs_inv in M2 as (st2 & M2 & M3).
  apply matches_group_inv in M1 as (st1' & a & M1 & Hr1 & ->).
  apply matches_word in M1 as [Hw Hg1].
  apply matches_star_class in M2 as (sp & Hsp & _ & Hg2).
  apply matches_chr_inv in M3 as (o & _ & Hr3 & Hg3 & _).
  cbn [rest set_group groups] in *.
  assert (Ha : a = txt name).
  { rewrite Hw in Hr1. now apply app_inv_tail in Hr1. }
  exists (a ++ sp ++ [o]). split; [|split].
  - rewrite Hr1, Hsp, Hr3, <- !app_assoc. reflexivity.
  - subst a. destruct name; [contradiction | discriminate].
  - unfold expand, group. cbn [flat_map]. rewrite Hg3, Hg2.
    cbn [find_group Nat.eqb]. subst a.
    destruct name; [contradiction | reflexivity].
Qed.

Lemma fix_chaining_keeps_head (content : str) :
  hd_error (fix_chaining content) = hd_error content.
Proof.
  apply sub_loop_keeps_head. intros p s st Em.
  apply match_at_matches in Em.
  apply matches_seqs_inv in Em as (st1 & M1 & M2).
  apply matches_chr_inv in M1 as (d & Hd & Hr1 & _ & _).
  apply ascii_eqb_eq in Hd. subst d.
  destruct (matches_rest _ _ _ M2) as [a Ha].
  exists ("."%char :: a). split; [|split].
  - cbn [rest] in Hr1. rewrite Hr1, Ha. reflexivity.
  - discriminate.
  - reflexivity.
Qed.

Lemma fold_keeps_head {A} (P : A -> Prop) (f : str -> A -> str) (l : list A)
      (content : str) :
  (forall c a, P a -> hd_error (f c a) = hd_error c) -> Forall P l ->
  hd_error (fold_left f l content) = hd_error content.
Proof.
  intros Hf Hl. revert content; induction Hl as [|a l Ha Hl IH]; intros content;
    [reflexivity|]. cbn [fold_left]. now rewrite IH, Hf.
Qed.

Lemma words_not_empty :
  Forall (fun kw => kw <> ""%string) python_keywords
  /\ Forall (fun kw => kw <> ""%string) js_keywords
  /\ Forall (fun kw => kw <> ""%string) crawl4ai_calls.
Proof. repeat split; repeat constructor; discriminate. Qed.

Lemma content_fix_keeps_head (L : str) (u : option str) (c : str) :
  hd_error (content_fix L u c) = hd_error c.
Proof.
  destruct words_not_empty as (Hpy & Hjs & Hcalls).
  assert (Hop : forall l c0, hd_error (fold_left fix_operator l c0) = hd_error c0).
  { intros l c0. apply (fold_keeps_head (fun _ => True)).
    - intros c1 a _. apply fix_operator_keeps_head.
    - apply Forall_forall. auto. }
  assert (Hkw : forall l c0, Forall (fun kw => kw <> ""%string) l ->
                             hd_error (fold_left fix_keyword l c0) = hd_error c0).
  { intros l c0. apply fold_keeps_head. intros c1 a. apply fix_keyword_keeps_head. }
  unfold content_fix. destruct (str_eqb L (txt "python")).
  - unfold fix_python. rewrite Hop, fix_chaining_keeps_head.
    destruct (is_crawl4ai u); [|now apply Hkw].
    rewrite (fold_keeps_head (fun kw => kw <> ""%string) fix_call);
      [now apply Hkw | apply fix_call_keeps_head | exact Hcalls].
  - destruct (existsb _ _); [|reflexivity].
    unfold fix_js. rewrite Hop. now apply Hkw.
Qed.

Lemma lstrip_head (s : str) (c : ascii) :
  hd_error s = Some c -> is_space c = false -> lstrip s = s.
Proof.
  destruct s as [|x s]; [discriminate|]. cbn [hd_error lstrip].
  intros H. injection H as ->. now intros ->.
Qed.

Lemma lstrip_ink_head (s : str) :
  has_ink s = true -> exists c, hd_error (lstrip s) = Some c /\ is_space c = false.
Proof.
  induction s as [|x s IH]; [discriminate|]. cbn [has_ink existsb lstrip].
  destruct (is_space x) eqn:E; [exact IH|]. intros _. now exists x.
Qed.

(** The indentation of a line written by a formatting loop. *)
Lemma indent_of_formatted_line (L : str) (u : option str) (m : nat) (line : str) :
  has_ink line = true ->
  indent_of (format_line (content_fix L u) m line) = indent_of line - m.
Proof.
  intros H. unfold format_line. rewrite truthy_strip, H. cbn [negb].
  destruct (lstrip_ink_head line H) as (c & Hc & Hs).
  rewrite <- (content_fix_keeps_head L u) in Hc.
  unfold indent_of at 1.
  assert (Hl : lstrip ((if m <? indent_of line
                        then repeat " "%char (indent_of line - m) else [])
                       ++ content_fix L u (lstrip line))
               = content_fix L u (lstrip line)).
  { destruct (m <? indent_of line);
      [rewrite lstrip_spaces|]; now apply (lstrip_head _ c). }
  rewrite Hl, length_app.
  destruct (Nat.ltb_spec m (indent_of line)); [rewrite repeat_length|];
    simpl; lia.
Qed.

(** X19. Formatting keeps the indentation of the lines relative to each
    other: when a block is formatted line by line, its non-blank lines
    come out, in order, with their indentation less the indentation common
    to all of them. *)
Theorem reformat_keeps_relative_indentation (x L : str) (u : option str) :
  5 <= length x -> has_ink x = true ->
  (L = txt "json" -> reserialized x = None) ->
  (L = txt "python" -> is_crawl4ai u = false) ->
  exists t,
    process_code_block x L u = Ok (t, L)
    /\ map indent_of (filter (fun line => truthy (strip line)) (splitlines t))
       = map (fun line => indent_of line - min_indent x) (non_empty_lines x).
Proof.
  intros Hlen Hink Hjson Hpy. rewrite (process_code_block_formatted x L u Hjson).
  apply Nat.ltb_ge in Hlen. rewrite Hlen, Hink. cbn [orb negb].
  assert (Hplain : str_eqb L (txt "python") && is_crawl4ai u = false).
  { destruct (str_eqb L (txt "python")) eqn:Ep; [|reflexivity].
    apply str_eqb_eq in Ep. now rewrite (Hpy Ep). }
  rewrite Hplain. eexists. split; [reflexivity|].
  unfold formatted_block, format_lines.
  rewrite nonblank_lines_of_join.
  2:{ apply Forall_map. generalize (block_lines_one_line x). apply Forall_impl.
      intros l Hl. apply format_line_one_line; [|exact Hl].
      apply content_fix_inked_line. }
  assert (Hblank : forall l, In l (block_lines x) ->
                    truthy (strip (format_line (content_fix L u) (min_indent x) l))
                    = truthy (strip l)).
  { intros l Hl. apply format_line_nonblank; [apply content_fix_inked_line|].
    pose proof (block_lines_one_line x) as H1. rewrite Forall_forall in H1. auto. }
  unfold non_empty_lines. induction (block_lines x) as [|l ls IH]; [reflexivity|].
  cbn [map filter]. rewrite Hblank by now left.
  destruct (truthy (strip l)) eqn:El.
  - cbn [map]. rewrite IH by (intros l' Hl'; apply Hblank; now right).
    f_equal. apply indent_of_formatted_line. now rewrite <- truthy_strip.
  - apply IH. intros l' Hl'. apply Hblank. now right.
Qed.

End KeepsHead.

Lemma reformat_keeps_relative_indentation_def :
  let x := text_of_lines ["    def f(x):"; ""; "        if x:"; "            return1"]%string in
  5 <= length x /\ has_ink x = true
  /\ exists t,
       @process_code_block literal_floats example_limits x python None = Ok (t, python)
       /\ map indent_of (filter (fun line => truthy (strip line)) (splitlines t))
          = map (fun line => indent_of line - min_indent x) (non_empty_lines x).
Proof.
  intros x.
  assert (H1 : 5 <= length x) by (vm_compute; lia).
  assert (H2 : has_ink x = true) by reflexivity.
  split; [exact H1 | split; [exact H2|]].
  apply (@reformat_keeps_relative_indentation literal_floats example_limits x python None H1 H2);
    [discriminate | reflexivity].
Defined.

Lemma one_block_page_python :
  let timestamp := txt "2025-01-01T00:00:00" in
  let url := txt "https://example.com/a" in
  let pre := text_of_lines ["# Title"; ""; ""]%string in
  let hint := txt " Python" in
  let code := text_of_lines ["  x=1"; "  return1"]%string in
  let post := text_of_lines [""; "The `end`."]%string in
  str_in fence pre = false /\ last pre " "%char <> "`"%char
  /\ forallb (fun c => negb (ascii_eqb c LF)) hint = true
  /\ str_in (LF :: fence) code = false
  /\ str_in fence post = false
  /\ exists t,
       @process_code_block literal_floats example_limits code python (Some url) = Ok (t, python)
       /\ @post_process_markdown literal_floats example_limits timestamp
            (pre ++ fence ++ hint ++ LF :: code ++ LF :: fence ++ post) url
          = Ok (page_header timestamp url (domain_of url)
                  (re_findall_count re_fence_open
                     (pre ++ fence ++ hint ++ LF :: code ++ LF :: fence ++ post))
                ++ pre ++ fence ++ python ++ LF :: t ++ LF :: fence ++ post).
Proof.
  intros timestamp url pre hint code post.
  assert (H1 : str_in fence pre = false) by reflexivity.
  assert (H2 : last pre " "%char <> "`"%char) by (vm_compute; discriminate).
  assert (H3 : forallb (fun c => negb (ascii_eqb c LF)) hint = true) by reflexivity.
  assert (H4 : str_in (LF :: fence) code = false) by reflexivity.
  assert (H5 : str_in fence post = false) by reflexivity.
  repeat (split; [assumption|]).
  exact (@one_block_page literal_floats example_limits timestamp url pre hint code post
           H1 H2 H3 H4 H5).
Defined.

Lemma one_block_counted_twice_python :
  let timestamp := txt "2025-01-01T00:00:00" in
  let url := txt "https://example.com/a" in
  let pre := text_of_lines ["# Title"; ""]%string in
  let hint := txt "python" in
  let code := txt "x = 1" in
  let post := [LF] in
  str_in fence pre = false /\ last pre " "%char <> "`"%char
  /\ forallb (fun c => negb (ascii_eqb c LF)) hint = true
  /\ str_in fence code = false
  /\ str_in fence post = false
  /\ exists processed,
       @process_code_blocks literal_floats example_limits
         (pre ++ fence ++ hint ++ LF :: code ++ LF :: fence ++ post) url
       = Ok processed
       /\ @post_process_markdown literal_floats example_limits timestamp
            (pre ++ fence ++ hint ++ LF :: code ++ LF :: fence ++ post) url
          = Ok (page_header timestamp url (domain_of url) 2 ++ processed).
Proof.
  intros timestamp url pre hint code post.
  assert (H1 : str_in fence pre = false) by reflexivity.
  assert (H2 : last pre " "%char <> "`"%char) by (vm_compute; discriminate).
  assert (H3 : forallb (fun c => negb (ascii_eqb c LF)) hint = true) by reflexivity.
  assert (H4 : str_in fence code = false) by reflexivity.
  assert (H5 : str_in fence post = false) by reflexivity.
  repeat (split; [assumption|]).
  exact (@one_block_counted_twice literal_floats example_limits timestamp url pre hint code post
           H1 H2 H3 H4 H5).
Defined.
